(** * MuseCam realtime media pipeline

    Shallow embedding of the frame compositor and capture session
    (components/Recorder.tsx, types.ts) and of the audio uplink codec and the
    assistant session (hooks/useGeminiInterviewer.ts), with the properties
    stated about them. *)

From Stdlib Require Import ZArith NArith Nnat QArith Qround Qpower Qabs Lqa Floats Uint63 List String Ascii Bool Lia Morphisms.
Import ListNotations.

(** ** Frame compositor (components/Recorder.tsx, [draw]) *)

Module Compositor.

(** JavaScript numbers are IEEE-754 binary64 values.  The crop computation
    only divides, multiplies, subtracts and compares, so it is written once
    over that small interface.  It is read at the primitive binary64 floats
    (what the browser computes) and at [B64], the rationals rounded to
    binary64 after every operation, on which the rounding is reasoned
    about. *)
Class Num (T : Type) := {
  ofZ  : Z -> T;
  nadd : T -> T -> T;
  nsub : T -> T -> T;
  nmul : T -> T -> T;
  ndiv : T -> T -> T;
  ngtb : T -> T -> bool;
  nleb : T -> T -> bool;
  neqb : T -> T -> bool
}.

(** Sizes are unsigned integers far below 2^53, which [of_uint63] converts
    exactly. *)
#[export] Instance Num_float : Num float := {
  ofZ z := PrimFloat.of_uint63 (Uint63.of_Z z);
  nadd := PrimFloat.add;
  nsub := PrimFloat.sub;
  nmul := PrimFloat.mul;
  ndiv := PrimFloat.div;
  ngtb a b := PrimFloat.ltb b a;
  nleb := PrimFloat.leb;
  neqb := PrimFloat.eqb
}.

(** The same formulas without any rounding: only a reference value next
    to a binary64 result, never the arithmetic a property of [draw] is
    stated in. *)
#[export] Instance Num_Q : Num Q := {
  ofZ z := inject_Z z;
  nadd := Qplus;
  nsub := Qminus;
  nmul := Qmult;
  ndiv := Qdiv;
  ngtb a b := negb (Qle_bool a b);
  nleb := Qle_bool;
  neqb := Qeq_bool
}.

(** *** Binary64 rounding

    Every arithmetic operation on JavaScript numbers returns the binary64
    number nearest to the exact result, ties going to the even significand.
    [round53] is that rounding on the rationals: 53 significant bits and no
    bound on the exponent (the crop computation works on sizes below 2^32
    and on the ratios of the table, far from overflow and underflow). *)

Definition pow2 (e : Z) : Q := (2 ^ e)%Q.

(** The exponent [e] with [2^e <= q < 2^(e+1)], for [q > 0]. *)
Definition ilog2 (q : Q) : Z :=
  let e0 := (Z.log2 (Qnum q) - Z.log2 (Zpos (Qden q)))%Z in
  if Qle_bool (pow2 e0) q then e0 else (e0 - 1)%Z.

(** Nearest integer, ties to even. *)
Definition rne (t : Q) : Z :=
  let f := Qfloor t in
  match Qcompare (t - inject_Z f) (1 # 2) with
  | Lt => f
  | Gt => (f + 1)%Z
  | Eq => if Z.even f then f else (f + 1)%Z
  end.

Definition round_pos (q : Q) : Q :=
  let e := (ilog2 q - 52)%Z in (inject_Z (rne (q / pow2 e)) * pow2 e)%Q.

Definition round53 (q : Q) : Q :=
  match Qnum q with
  | Z0 => 0%Q
  | Zpos _ => round_pos q
  | Zneg _ => (- round_pos (- q))%Q
  end.

Definition representable (q : Q) : Prop := (round53 q == q)%Q.

(** One unit in the last place, relative: 2^-53; and 2^-54. *)
Definition u53 : Q := pow2 (-53).
Definition eps54 : Q := (1 # 18014398509481984)%Q.

(** The binary64 carrier as rationals that are rounded after every
    operation. *)
Record B64 := mkB64 { value : Q }.

#[export] Instance Num_B64 : Num B64 := {
  ofZ z := mkB64 (round53 (inject_Z z));
  nadd a b := mkB64 (round53 (value a + value b));
  nsub a b := mkB64 (round53 (value a - value b));
  nmul a b := mkB64 (round53 (value a * value b));
  ndiv a b := mkB64 (round53 (value a / value b));
  ngtb a b := negb (Qle_bool (value a) (value b));
  nleb a b := Qle_bool (value a) (value b);
  neqb a b := Qeq_bool (value a) (value b)
}.

Record Rect (T : Type) := mkRect { sx : T; sy : T; sWidth : T; sHeight : T }.
Arguments mkRect {T}.
Arguments sx {T}.
Arguments sy {T}.
Arguments sWidth {T}.
Arguments sHeight {T}.

Section Crop.
Context {T : Type} `{Num T}.

Definition vRatio (vw vh : Z) : T := ndiv (ofZ vw) (ofZ vh).
Definition cRatio (cw ch : Z) : T := ndiv (ofZ cw) (ofZ ch).

(** Lines 89-108 of [draw]. *)
Definition crop (vw vh cw ch : Z) : Rect T :=
  if ngtb (vRatio vw vh) (cRatio cw ch) then
    let sHeight := ofZ vh in
    let sWidth := nmul (ofZ vh) (cRatio cw ch) in
    mkRect (ndiv (nsub (ofZ vw) sWidth) (ofZ 2)) (ofZ 0) sWidth sHeight
  else
    let sWidth := ofZ vw in
    let sHeight := ndiv (ofZ vw) (cRatio cw ch) in
    mkRect (ofZ 0) (ndiv (nsub (ofZ vh) sHeight) (ofZ 2)) sWidth sHeight.

(** The properties asked of a crop rectangle, decided in the carrier's own
    comparisons. *)
Definition in_source (vw vh : Z) (r : Rect T) : bool :=
  nleb (ofZ 0) (sx r) && nleb (ofZ 0) (sy r)
  && nleb (nadd (sx r) (sWidth r)) (ofZ vw)
  && nleb (nadd (sy r) (sHeight r)) (ofZ vh).

Definition centered (vw vh cw ch : Z) (r : Rect T) : bool :=
  if ngtb (vRatio vw vh) (cRatio cw ch)
  then neqb (sx r) (ndiv (nsub (ofZ vw) (sWidth r)) (ofZ 2))
  else neqb (sy r) (ndiv (nsub (ofZ vh) (sHeight r)) (ofZ 2)).

End Crop.

(** types.ts *)
Inductive AspectRatio := PORTRAIT_9_16 | LANDSCAPE_16_9 | PORTRAIT_3_4 | SQUARE_1_1.

Record VideoConfig := mkConfig { width : Z; height : Z }.

Definition ASPECT_RATIO_CONFIGS (a : AspectRatio) : VideoConfig :=
  match a with
  | PORTRAIT_9_16 => mkConfig 405 720
  | LANDSCAPE_16_9 => mkConfig 720 405
  | PORTRAIT_3_4 => mkConfig 540 720
  | SQUARE_1_1 => mkConfig 600 600
  end.

Definition crop_for {T} `{Num T} (a : AspectRatio) (vw vh : Z) : Rect T :=
  let config := ASPECT_RATIO_CONFIGS a in
  crop vw vh (width config) (height config).

(** The properties asked of the crop rectangle [r], read on the numbers
    the rectangle holds: it lies inside the source, both sides are
    positive, and the ratio and the centring on each axis hold up to the
    relative tolerance 2^-51 (four roundings of binary64). *)
Definition fits (vw vh cw ch : Z) (r : Rect B64) : Prop :=
  (0 <= value (sx r) /\ 0 <= value (sy r) /\
   value (sx r) + value (sWidth r) <= inject_Z vw /\
   value (sy r) + value (sHeight r) <= inject_Z vh /\
   0 < value (sWidth r) /\ 0 < value (sHeight r) /\
   Qabs (value (sWidth r) / value (sHeight r) - inject_Z cw / inject_Z ch)
     <= inject_Z cw / inject_Z ch * pow2 (-51) /\
   Qabs (value (sx r) - (inject_Z vw - value (sWidth r)) / 2)
     <= (inject_Z vw - value (sWidth r)) / 2 * pow2 (-51) /\
   Qabs (value (sy r) - (inject_Z vh - value (sHeight r)) / 2)
     <= (inject_Z vh - value (sHeight r)) / 2 * pow2 (-51))%Q.

(** The rational a finite binary64 number stands for, through the
    library's specification of the primitive floats. *)
Definition SF2Q (x : spec_float) : Q :=
  match x with
  | S754_finite s m e => ((if s then - inject_Z (Zpos m) else inject_Z (Zpos m)) * pow2 e)%Q
  | _ => 0%Q
  end.

Definition number_of (f : float) : Q := SF2Q (Prim2SF f).

Definition is_finite (f : float) : bool :=
  match Prim2SF f with
  | S754_zero _ | S754_finite _ _ _ => true
  | _ => false
  end.

(** The numbers a rectangle of floats holds. *)
Definition numbers (r : Rect float) : Rect B64 :=
  mkRect (mkB64 (number_of (sx r))) (mkB64 (number_of (sy r)))
         (mkB64 (number_of (sWidth r))) (mkB64 (number_of (sHeight r))).

Definition all_finite (r : Rect float) : bool :=
  is_finite (sx r) && is_finite (sy r) && is_finite (sWidth r) && is_finite (sHeight r).

Definition rational_of (f : float) : option Q :=
  if is_finite f then Some (number_of f) else None.

Definition same_number (f : float) (b : B64) : bool :=
  match rational_of f with
  | Some q => Qeq_bool q (value b)
  | None => false
  end.

Definition same_rect (r : Rect float) (b : Rect B64) : bool :=
  same_number (sx r) (sx b) && same_number (sy r) (sy b)
  && same_number (sWidth r) (sWidth b) && same_number (sHeight r) (sHeight b).

(** Where the number [f] above an integer significand lies, as the round
    and sticky bits of the library's rounding record it. *)
Definition frac_loc (f : Q) (r s : bool) : Prop :=
  match r, s with
  | false, false => (f == 0)%Q
  | false, true => (0 < f /\ f < 1 # 2)%Q
  | true, false => (f == 1 # 2)%Q
  | true, true => ((1 # 2) < f /\ f < 1)%Q
  end.

Definition located (t : Q) (mrs : shr_record) : Prop :=
  (0 <= shr_m mrs)%Z /\ frac_loc (t - inject_Z (shr_m mrs)) (shr_r mrs) (shr_s mrs).

(** Zero, or a positive normal number with exponent within [B]. *)
Definition regular (B : Z) (x : spec_float) : Prop :=
  match x with
  | S754_zero s => s = false
  | S754_finite s m e => s = false /\ Zpos (digits2_pos m) = 53%Z /\ (- B <= e <= B)%Z
  | _ => False
  end.

(** The float [f] holds the number of [b]. *)
Definition sim (B : Z) (f : float) (b : B64) : Prop :=
  regular B (Prim2SF f) /\ (SF2Q (Prim2SF f) == value b)%Q.

Definition rect_sim (B : Z) (r : Rect float) (b : Rect B64) : Prop :=
  sim B (sx r) (sx b) /\ sim B (sy r) (sy b) /\
  sim B (sWidth r) (sWidth b) /\ sim B (sHeight r) (sHeight b).

(** *** The draw pass and its schedule *)

Record Video := mkVideo { videoWidth : Z; videoHeight : Z }.

(** One [ctx.drawImage(video, sx, sy, sWidth, sHeight, 0, 0, dw, dh)]. *)
Record DrawImage := mkDrawImage { src : Rect float; dWidth : Z; dHeight : Z }.

(** [has_context2d] is whether [getContext('2d')] returns a context;
    [painted] records the draws, latest first. *)
Record Canvas := mkCanvas {
  canvas_width : Z;
  canvas_height : Z;
  has_context2d : bool;
  painted : list DrawImage
}.

(** The refs of the component and the browser's animation-frame requests:
    [pending] are the callbacks requested and not yet run. *)
Record Stage := mkStage {
  videoRef : option Video;
  canvasRef : option Canvas;
  animationFrameRef : option nat;
  pending : list nat;
  next_handle : nat
}.

Definition requestAnimationFrame (s : Stage) : nat * Stage :=
  (next_handle s,
   mkStage (videoRef s) (canvasRef s) (animationFrameRef s)
           (pending s ++ [next_handle s]) (S (next_handle s))).

Definition resize (config : VideoConfig) (c : Canvas) : Canvas :=
  if negb (canvas_width c =? width config)%Z || negb (canvas_height c =? height config)%Z
  then mkCanvas (width config) (height config) (has_context2d c) []
  else c.

Definition drawImage (d : DrawImage) (c : Canvas) : Canvas :=
  mkCanvas (canvas_width c) (canvas_height c) (has_context2d c) (d :: painted c).

(** Lines 70-118. *)
Definition draw (aspectRatio : AspectRatio) (s : Stage) : Stage :=
  match videoRef s, canvasRef s with
  | Some video, Some canvas =>
      if has_context2d canvas then
        let config := ASPECT_RATIO_CONFIGS aspectRatio in
        let canvas := resize config canvas in
        let r := crop (videoWidth video) (videoHeight video)
                      (width config) (height config) in
        let canvas := drawImage (mkDrawImage r (width config) (height config)) canvas in
        let s := mkStage (videoRef s) (Some canvas) (animationFrameRef s)
                         (pending s) (next_handle s) in
        let (h, s) := requestAnimationFrame s in
        mkStage (videoRef s) (canvasRef s) (Some h) (pending s) (next_handle s)
      else s
  | _, _ => s
  end.

(** A display refresh runs the oldest requested callback; with nothing
    requested the loop is over. *)
Definition tick (aspectRatio : AspectRatio) (s : Stage) : option Stage :=
  match pending s with
  | [] => None
  | _ :: rest =>
      Some (draw aspectRatio
              (mkStage (videoRef s) (canvasRef s) (animationFrameRef s)
                       rest (next_handle s)))
  end.

Fixpoint ticks (aspectRatio : AspectRatio) (n : nat) (s : Stage) : nat * Stage :=
  match n with
  | O => (O, s)
  | S n' =>
      match tick aspectRatio s with
      | None => (O, s)
      | Some s' => let (k, s'') := ticks aspectRatio n' s' in (S k, s'')
      end
  end.

Definition skips (s : Stage) : bool :=
  match videoRef s, canvasRef s with
  | Some _, Some canvas => negb (has_context2d canvas)
  | _, _ => true
  end.

(** A stage in the middle of the loop (one frame requested) whose canvas
    yields no 2D context, and the same stage with a context. *)
Definition no_context_stage : Stage :=
  mkStage (Some (mkVideo 1920 1080)) (Some (mkCanvas 405 720 false []))
          (Some 1%nat) [1%nat] 2.

Definition ready_stage : Stage :=
  mkStage (Some (mkVideo 1920 1080)) (Some (mkCanvas 405 720 true []))
          (Some 1%nat) [1%nat] 2.

(** *** Starting and cancelling the loop *)

(** [cancelAnimationFrame(handle)]: the request, if still pending, is
    dropped. *)
Definition cancelAnimationFrame (handle : nat) (s : Stage) : Stage :=
  mkStage (videoRef s) (canvasRef s) (animationFrameRef s)
          (filter (fun h => negb (Nat.eqb h handle)) (pending s)) (next_handle s).

(** Lines 120-127, the body of the effect: [if (stream)
    animationFrameRef.current = requestAnimationFrame(draw)]. *)
Definition start_loop (has_stream : bool) (s : Stage) : Stage :=
  if has_stream then
    let (h, s) := requestAnimationFrame s in
    mkStage (videoRef s) (canvasRef s) (Some h) (pending s) (next_handle s)
  else s.

(** Its cleanup: [if (animationFrameRef.current) cancelAnimationFrame(...)];
    a number is truthy when it is not zero. *)
Definition stop_loop (s : Stage) : Stage :=
  match animationFrameRef s with
  | Some h => if Nat.eqb h 0 then s else cancelAnimationFrame h s
  | None => s
  end.

(** React runs the cleanup of the previous effect before the body of the
    next one when [draw] or [stream] changes. *)
Definition restart_loop (has_stream : bool) (s : Stage) : Stage :=
  start_loop has_stream (stop_loop s).

(** Handles are positive and issued in increasing order; the component
    keeps at most one request pending, the one whose handle is in
    [animationFrameRef]. *)
Definition one_pending (s : Stage) : bool :=
  (0 <? next_handle s)%nat &&
  match pending s with
  | [] => true
  | [h] =>
      match animationFrameRef s with
      | Some k => Nat.eqb k h && (0 <? h)%nat && (h <? next_handle s)%nat
      | None => false
      end
  | _ => false
  end.

(** The stage of a component that has just mounted. *)
Definition mounted_stage (video : option Video) (canvas : option Canvas) : Stage :=
  mkStage video canvas None [] 1.

End Compositor.

(** ** Audio uplink codec (hooks/useGeminiInterviewer.ts, [createBlob]) *)

Module UplinkCodec.

Local Open Scope Z_scope.

(** An element of a [Float32Array]: a finite binary32 value, kept as the
    rational it denotes, NaN, or an infinity.  Reading it gives the same
    value as a binary64 number, and scaling a binary32 value by 32768 = 2^15
    is exact in binary64 (24 significant bits, exponent far from the
    limits), so the product is the rational product. *)
Inductive float32 :=
| F32 (q : Q)
| F32_NaN
| F32_Infinity (negative : bool).

Definition scale (x : float32) : float32 :=
  match x with
  | F32 q => F32 (q * (32768 # 1))%Q
  | other => other
  end.

(** Truncation toward zero of a rational. *)
Definition Qtrunc (q : Q) : Z := Z.quot (Qnum q) (Zpos (Qden q)).

(** ECMAScript ToInt16, the conversion applied by a store into an
    [Int16Array]: NaN and the infinities give 0; otherwise the number is
    truncated, reduced modulo 2^16, and read as a signed value. *)
Definition ToInt16 (x : float32) : Z :=
  match x with
  | F32 q =>
      let int := Qtrunc q in
      let int16bit := int mod 65536 in
      if 32768 <=? int16bit then int16bit - 65536 else int16bit
  | _ => 0
  end.

(** Lines 19-23: [int16[i] = data[i] * 32768]. *)
Definition quantize (data : list float32) : list Z :=
  map (fun x => ToInt16 (scale x)) data.

(** [new Uint8Array(int16.buffer)]: the two bytes of each element in the
    byte order of the host, which is little-endian on the platforms that
    run browsers. *)
Definition bytes_of_int16 (v : Z) : list Z :=
  [Z.land v 255; Z.land (Z.shiftr v 8) 255].

Definition buffer_bytes (int16 : list Z) : list Z :=
  flat_map bytes_of_int16 int16.

(** Lines 26-31: [binary += String.fromCharCode(bytes[i])]. *)
Definition fromCharCode (b : Z) : ascii := ascii_of_N (Z.to_N b).

Fixpoint binary_of (bytes : list Z) : string :=
  match bytes with
  | [] => EmptyString
  | b :: rest => String (fromCharCode b) (binary_of rest)
  end.

(** *** [btoa]: base64 of a binary string (RFC 4648, section 4) *)

Definition alphabet : string :=
  "ABCDEFGHIJKLMNOPQRSTUVWXYZabcdefghijklmnopqrstuvwxyz0123456789+/".

Definition pad : ascii := "="%char.

Definition b64_char (sextet : N) : ascii :=
  match String.get (N.to_nat sextet) alphabet with
  | Some c => c
  | None => pad
  end.

Local Open Scope N_scope.

Fixpoint btoa (binary : string) : string :=
  match binary with
  | EmptyString => EmptyString
  | String a EmptyString =>
      let a := N_of_ascii a in
      String (b64_char (a / 4))
        (String (b64_char (a mod 4 * 16))
           (String pad (String pad EmptyString)))
  | String a (String b EmptyString) =>
      let a := N_of_ascii a in
      let b := N_of_ascii b in
      String (b64_char (a / 4))
        (String (b64_char (a mod 4 * 16 + b / 16))
           (String (b64_char (b mod 16 * 4)) (String pad EmptyString)))
  | String a (String b (String c rest)) =>
      let a := N_of_ascii a in
      let b := N_of_ascii b in
      let c := N_of_ascii c in
      String (b64_char (a / 4))
        (String (b64_char (a mod 4 * 16 + b / 16))
           (String (b64_char (b mod 16 * 4 + c / 64))
              (String (b64_char (c mod 64)) (btoa rest))))
  end.

Local Close Scope N_scope.

Record Packet := mkPacket { data : string; mimeType : string }.

(** Lines 18-37. *)
Definition createBlob (samples : list float32) : Packet :=
  let int16 := quantize samples in
  let bytes := buffer_bytes int16 in
  let binary := binary_of bytes in
  mkPacket (btoa binary) "audio/pcm;rate=16000".

(** *** The receiving side: payload back to 16-bit integers

    The reader the round-trip property speaks of: base64 text to bytes, and
    each pair of bytes, low byte first, to a signed 16-bit integer. *)

Local Open Scope N_scope.

Definition b64_index (c : ascii) : option N :=
  let n := N_of_ascii c in
  if (65 <=? n) && (n <=? 90) then Some (n - 65)
  else if (97 <=? n) && (n <=? 122) then Some (n - 71)
  else if (48 <=? n) && (n <=? 57) then Some (n + 4)
  else if n =? 43 then Some 62
  else if n =? 47 then Some 63
  else None.

Definition is_empty (s : string) : bool :=
  match s with EmptyString => true | _ => false end.

Fixpoint atob (text : string) : option string :=
  match text with
  | EmptyString => Some EmptyString
  | String c0 (String c1 (String c2 (String c3 rest))) =>
      match b64_index c0, b64_index c1 with
      | Some s0, Some s1 =>
          let b0 := ascii_of_N (s0 * 4 + s1 / 16) in
          if Ascii.eqb c2 pad then
            if Ascii.eqb c3 pad && is_empty rest
            then Some (String b0 EmptyString) else None
          else
            match b64_index c2 with
            | Some s2 =>
                let b1 := ascii_of_N (s1 mod 16 * 16 + s2 / 4) in
                if Ascii.eqb c3 pad then
                  if is_empty rest
                  then Some (String b0 (String b1 EmptyString)) else None
                else
                  match b64_index c3, atob rest with
                  | Some s3, Some tail =>
                      let b2 := ascii_of_N (s2 mod 4 * 64 + s3) in
                      Some (String b0 (String b1 (String b2 tail)))
                  | _, _ => None
                  end
            | None => None
            end
      | _, _ => None
      end
  | _ => None
  end.

Local Close Scope N_scope.

Definition int16_of_bytes (lo hi : ascii) : Z :=
  let u := Z.of_N (N_of_ascii lo) + 256 * Z.of_N (N_of_ascii hi) in
  if 32768 <=? u then u - 65536 else u.

Fixpoint int16_le (bytes : string) : option (list Z) :=
  match bytes with
  | EmptyString => Some []
  | String lo (String hi rest) =>
      option_map (cons (int16_of_bytes lo hi)) (int16_le rest)
  | _ => None
  end.

Definition decode_payload (p : Packet) : option (list Z) :=
  match atob (data p) with
  | Some bytes => int16_le bytes
  | None => None
  end.

(** Rounding to the nearest integer, halves upward ([Math.round]). *)
Definition round (q : Q) : Z := Qfloor (q + (1 # 2))%Q.

Definition in_unit_range (q : Q) : Prop := (-1 <= q /\ q <= 1)%Q.

(** The sixty-four sextets, and the check that a sextet's character
    decodes to it and is not the padding character. *)
Definition sextets : list N := map N.of_nat (seq 0 64).

Definition sextet_ok (n : N) : bool :=
  match b64_index (b64_char n) with
  | Some m => N.eqb m n
  | None => false
  end && negb (Ascii.eqb (b64_char n) pad).

(** The range of an [Int16Array] element. *)
Definition is_int16 (v : Z) : Prop := (-32768 <= v <= 32767)%Z.

(** The property as the specification words it: the decoded payload is the
    rounded scaled sample at every position. *)
Definition quantizes_by_rounding (samples : list Q) : Prop :=
  decode_payload (createBlob (map F32 samples))
  = Some (map (fun s => round (s * (32768 # 1))%Q) samples).

(** Lines 65-71, [processor.onaudioprocess]: each block of samples is
    encoded and handed to the open session, which sends the packets in the
    order the blocks arrived. *)
Definition onaudioprocess (inputData : list float32) (sent : list Packet) : list Packet :=
  sent ++ [createBlob inputData].

Definition transmit (blocks : list (list float32)) : list Packet :=
  fold_left (fun sent block => onaudioprocess block sent) blocks [].

(** What the receiver reads from a sequence of packets: the samples of
    each packet, one after the other. *)
Fixpoint decode_stream (packets : list Packet) : option (list Z) :=
  match packets with
  | [] => Some []
  | p :: rest =>
      match decode_payload p, decode_stream rest with
      | Some samples, Some more => Some (samples ++ more)
      | _, _ => None
      end
  end.

End UplinkCodec.

(** ** Assistant session (hooks/useGeminiInterviewer.ts) *)

Module Assistant.

(** The part of [LiveServerMessage] the hook reads; every field is
    optional. *)
Record OutputTranscription := mkTranscription { text : option string }.

Record ServerContent := mkContent {
  outputTranscription : option OutputTranscription;
  turnComplete : option bool
}.

Record LiveServerMessage := mkMessage { serverContent : option ServerContent }.

(** Host objects held through the refs.  Whether releasing one raises is
    the host's doing, so it is carried by the object. *)
Record Session := mkSession { session_id : nat }.
Record AudioNode := mkNode { node_id : nat; disconnect_throws : bool }.
Record AudioContext := mkContext { context_id : nat; close_throws : bool }.

(** Calls made on the host, oldest first. *)
Inductive Call :=
| ThenClose (session : nat)
| Disconnect (node : nat)
| Close (context : nat).

Record Hook := mkHook {
  currentQuestion : string;
  isConnected : bool;
  sessionRef : option Session;
  audioContextRef : option AudioContext;
  scriptProcessorRef : option AudioNode;
  sourceRef : option AudioNode;
  calls : list Call;
  console : list string
}.

(** *** Statements that may raise

    A computation returns normally or raises; either way the updates made
    so far stay. *)
Inductive Completion (A : Type) :=
| Normal (a : A)
| Throw.
Arguments Normal {A}.
Arguments Throw {A}.

Definition JS (A : Type) : Type := Hook -> Completion A * Hook.

Definition ret {A} (a : A) : JS A := fun h => (Normal a, h).

Definition bind {A B} (m : JS A) (k : A -> JS B) : JS B :=
  fun h =>
    match m h with
    | (Normal a, h') => k a h'
    | (Throw, h') => (Throw, h')
    end.

Definition throw {A} : JS A := fun h => (Throw, h).

Definition modify (f : Hook -> Hook) : JS unit := fun h => (Normal tt, f h).

Definition read {A} (f : Hook -> A) : JS A := fun h => (Normal (f h), h).

Declare Scope js_scope.
Delimit Scope js_scope with js.
Notation "m ;; k" := (bind m (fun _ => k))
  (at level 61, right associativity) : js_scope.
Notation "x <- m ;; k" := (bind m (fun x => k))
  (at level 61, m at next level, right associativity) : js_scope.

Definition when_some {A} (o : option A) (k : A -> JS unit) : JS unit :=
  match o with
  | Some a => k a
  | None => ret tt
  end.

Local Open Scope js_scope.

(** State setters and ref assignments. *)
Definition setIsConnected (b : bool) : JS unit :=
  modify (fun h => mkHook (currentQuestion h) b (sessionRef h) (audioContextRef h)
                          (scriptProcessorRef h) (sourceRef h) (calls h) (console h)).

Definition setCurrentQuestion (f : string -> string) : JS unit :=
  modify (fun h => mkHook (f (currentQuestion h)) (isConnected h) (sessionRef h)
                          (audioContextRef h) (scriptProcessorRef h) (sourceRef h)
                          (calls h) (console h)).

Definition set_sessionRef (v : option Session) : JS unit :=
  modify (fun h => mkHook (currentQuestion h) (isConnected h) v (audioContextRef h)
                          (scriptProcessorRef h) (sourceRef h) (calls h) (console h)).

Definition set_audioContextRef (v : option AudioContext) : JS unit :=
  modify (fun h => mkHook (currentQuestion h) (isConnected h) (sessionRef h) v
                          (scriptProcessorRef h) (sourceRef h) (calls h) (console h)).

Definition set_scriptProcessorRef (v : option AudioNode) : JS unit :=
  modify (fun h => mkHook (currentQuestion h) (isConnected h) (sessionRef h)
                          (audioContextRef h) v (sourceRef h) (calls h) (console h)).

Definition set_sourceRef (v : option AudioNode) : JS unit :=
  modify (fun h => mkHook (currentQuestion h) (isConnected h) (sessionRef h)
                          (audioContextRef h) (scriptProcessorRef h) v (calls h)
                          (console h)).

Definition call (c : Call) : JS unit :=
  modify (fun h => mkHook (currentQuestion h) (isConnected h) (sessionRef h)
                          (audioContextRef h) (scriptProcessorRef h) (sourceRef h)
                          (calls h ++ [c]) (console h)).

Definition console_log (line : string) : JS unit :=
  modify (fun h => mkHook (currentQuestion h) (isConnected h) (sessionRef h)
                          (audioContextRef h) (scriptProcessorRef h) (sourceRef h)
                          (calls h) (console h ++ [line])).

(** Host calls.  [promise.then(cb)] registers the callback and returns; the
    close itself runs later, inside the callback, so nothing it raises
    reaches the caller. *)
Definition then_close (s : Session) : JS unit := call (ThenClose (session_id s)).

Definition disconnect (n : AudioNode) : JS unit :=
  if disconnect_throws n then throw else call (Disconnect (node_id n)).

Definition close (c : AudioContext) : JS unit :=
  if close_throws c then throw else call (Close (context_id c)).

(** Lines 182-205. *)
Definition cleanup : JS unit :=
  setIsConnected false ;;
  setCurrentQuestion (fun _ => EmptyString) ;;
  (session <- read sessionRef ;;
   when_some session (fun s => then_close s ;; set_sessionRef None)) ;;
  (processor <- read scriptProcessorRef ;;
   when_some processor (fun n => disconnect n ;; set_scriptProcessorRef None)) ;;
  (source <- read sourceRef ;;
   when_some source (fun n => disconnect n ;; set_sourceRef None)) ;;
  (context <- read audioContextRef ;;
   when_some context (fun c => close c ;; set_audioContextRef None)).

(** A JavaScript string is truthy when it is not empty. *)
Definition truthy (s : string) : bool :=
  match s with EmptyString => false | _ => true end.

(** Lines 79-106. *)
Definition onmessage (message : LiveServerMessage) : JS unit :=
  (match serverContent message with
   | Some content =>
       match outputTranscription content with
       | Some transcription =>
           match text transcription with
           | Some text =>
               if truthy text
               then setCurrentQuestion (fun prev => prev ++ text)%string
               else ret tt
           | None => ret tt
           end
       | None => ret tt
       end
   | None => ret tt
   end) ;;
  match serverContent message with
  | Some content =>
      match turnComplete content with
      | Some true => console_log "Turn complete"
      | _ => ret tt
      end
  | None => ret tt
  end.

Local Close Scope js_scope.

(** The hook state after a computation, whichever way it completed. *)
Definition exec {A} (m : JS A) (h : Hook) : Hook := snd (m h).

Definition completes {A} (m : JS A) (h : Hook) : bool :=
  match fst (m h) with Normal _ => true | Throw => false end.

(** Messages are handled one at a time, in the order they arrive. *)
Definition receive (messages : list LiveServerMessage) (h : Hook) : Hook :=
  fold_left (fun h m => exec (onmessage m) h) messages h.

(** The two server events the reducer distinguishes. *)
Definition text_event (fragment : string) : LiveServerMessage :=
  mkMessage (Some (mkContent (Some (mkTranscription (Some fragment))) None)).

Definition turn_complete_event : LiveServerMessage :=
  mkMessage (Some (mkContent None (Some true))).

Definition with_turnComplete (flag : option bool) (m : LiveServerMessage)
  : LiveServerMessage :=
  match serverContent m with
  | Some content => mkMessage (Some (mkContent (outputTranscription content) flag))
  | None => m
  end.

(** The four actions of a teardown, as calls on the host. *)
Definition teardown_calls (h : Hook) : list Call :=
  match sessionRef h with Some s => [ThenClose (session_id s)] | None => [] end
  ++ match scriptProcessorRef h with Some n => [Disconnect (node_id n)] | None => [] end
  ++ match sourceRef h with Some n => [Disconnect (node_id n)] | None => [] end
  ++ match audioContextRef h with Some c => [Close (context_id c)] | None => [] end.

(** No handle held by the hook raises when it is released. *)
Definition releases_quietly (h : Hook) : bool :=
  match scriptProcessorRef h with Some n => negb (disconnect_throws n) | None => true end
  && match sourceRef h with Some n => negb (disconnect_throws n) | None => true end
  && match audioContextRef h with Some c => negb (close_throws c) | None => true end.

Definition handles_cleared (h : Hook) : bool :=
  match sessionRef h, audioContextRef h, scriptProcessorRef h, sourceRef h with
  | None, None, None, None => true
  | _, _, _, _ => false
  end.

(** The states of the session as the refs show them: nothing held; the
    context and the pending connection held; everything held and the
    connection open; everything held after the remote side closed. *)
Inductive Phase := Disconnected | Connecting | Connected | Closing.

Definition in_phase (p : Phase) (question : string) (log : list Call)
    (s : Session) (c : AudioContext) (processor source : AudioNode) : Hook :=
  match p with
  | Disconnected => mkHook question false None None None None log []
  | Connecting => mkHook question false (Some s) (Some c) None None log []
  | Connected => mkHook question true (Some s) (Some c) (Some processor) (Some source) log []
  | Closing => mkHook question false (Some s) (Some c) (Some processor) (Some source) log []
  end.

(** A connected session whose processing node raises on [disconnect]. *)
Definition raising_processor : Hook :=
  in_phase Connected "What do you love?" []
           (mkSession 1) (mkContext 4 false) (mkNode 2 true) (mkNode 3 false).



(** The first release of a teardown that raises, if any, in the order
    the teardown makes them, and the calls each of the four actions makes
    when it is reached. *)
Inductive Release := release_processor | release_source | release_context.

Definition first_raising (h : Hook) : option Release :=
  if match scriptProcessorRef h with Some n => disconnect_throws n | None => false end
  then Some release_processor
  else if match sourceRef h with Some n => disconnect_throws n | None => false end
  then Some release_source
  else if match audioContextRef h with Some c => close_throws c | None => false end
  then Some release_context
  else None.

Definition session_calls (h : Hook) : list Call :=
  match sessionRef h with Some s => [ThenClose (session_id s)] | None => [] end.

Definition processor_calls (h : Hook) : list Call :=
  match scriptProcessorRef h with Some n => [Disconnect (node_id n)] | None => [] end.

Definition source_calls (h : Hook) : list Call :=
  match sourceRef h with Some n => [Disconnect (node_id n)] | None => [] end.


End Assistant.

(** ** Capture session (components/Recorder.tsx, the recording effect) *)

Module Capture.

Record Blob := mkBlob { bytes : list Z; type : string }.

Definition size (b : Blob) : nat := List.length (bytes b).

(** [new Blob(parts, {type})] concatenates the parts. *)
Definition new_Blob (parts : list Blob) (type : string) : Blob :=
  mkBlob (flat_map bytes parts) type.

(** The browser's [MediaRecorder] (W3C MediaStream Recording): its state
    and the data gathered since the last [dataavailable] event. *)
Inductive RecordingState := inactive | recording | paused.

Record MediaRecorder := mkRecorder {
  state : RecordingState;
  mimeType : string;
  gathered : list Z
}.

(** Events the recorder has queued for its handlers. *)
Inductive Event :=
| dataavailable (data : Blob)
| stop_event.

(** The component: its refs, the event queue of the page, the blobs handed
    to [onRecordingComplete] (oldest first), and the assistant hook. *)
Record Component := mkComponent {
  has_canvas : bool;
  mediaRecorderRef : option MediaRecorder;
  chunksRef : list Blob;
  queue : list Event;
  completed : list Blob;
  hook : Assistant.Hook
}.

Definition is_inactive (s : RecordingState) : bool :=
  match s with inactive => true | _ => false end.

(** [recorder.start()] on a fresh recorder. *)
Definition start (r : MediaRecorder) : MediaRecorder :=
  mkRecorder recording (mimeType r) [].

(** [recorder.stop()] on a recorder that is not inactive: the state becomes
    [inactive] at once, and a [dataavailable] event with the gathered data
    followed by a [stop] event are queued. *)
Definition stop (r : MediaRecorder) : MediaRecorder * list Event :=
  (mkRecorder inactive (mimeType r) [],
   [dataavailable (mkBlob (gathered r) (mimeType r)); stop_event]).

(** Lines 130-171, run with the current value of [isRecording]. *)
Definition recording_effect (isRecording : bool) (c : Component) : Component :=
  if isRecording then
    if has_canvas c then
      let recorder := mkRecorder inactive "video/webm;codecs=vp9" [] in
      mkComponent (has_canvas c) (Some (start recorder)) [] (queue c)
                  (completed c) (hook c)
    else c
  else
    match mediaRecorderRef c with
    | Some recorder =>
        if negb (is_inactive (state recorder)) then
          let (recorder', events) := stop recorder in
          mkComponent (has_canvas c) (Some recorder') (chunksRef c)
                      (queue c ++ events) (completed c) (hook c)
        else c
    | None => c
    end.

(** Lines 151-155. *)
Definition ondataavailable (data : Blob) (c : Component) : Component :=
  if (0 <? size data)%nat then
    mkComponent (has_canvas c) (mediaRecorderRef c) (chunksRef c ++ [data])
                (queue c) (completed c) (hook c)
  else c.

(** Lines 157-161. *)
Definition onstop (c : Component) : Component :=
  let blob := new_Blob (chunksRef c) "video/mp4" in
  mkComponent (has_canvas c) (mediaRecorderRef c) (chunksRef c) (queue c)
              (completed c ++ [blob])
              (Assistant.exec (Assistant.setCurrentQuestion (fun _ => EmptyString))
                              (hook c)).

Definition handle (e : Event) (c : Component) : Component :=
  match e with
  | dataavailable data => ondataavailable data c
  | stop_event => onstop c
  end.

(** The page runs the queued events in order. *)
Definition drain (c : Component) : Component :=
  fold_left (fun c e => handle e c) (queue c)
    (mkComponent (has_canvas c) (mediaRecorderRef c) (chunksRef c) []
                 (completed c) (hook c)).

Definition is_stop (e : Event) : bool :=
  match e with stop_event => true | _ => false end.

(** A session is active when a recorder is held and is not inactive. *)
Definition active (c : Component) : bool :=
  match mediaRecorderRef c with
  | Some recorder => negb (is_inactive (state recorder))
  | None => false
  end.

(** A recording in progress with two chunks gathered and delivered. *)
Definition recording_session : Component :=
  mkComponent true (Some (mkRecorder recording "video/webm;codecs=vp9" [7; 8]%Z))
              [mkBlob [1; 2; 3]%Z "video/webm"] [dataavailable (mkBlob [4; 5]%Z "video/webm")]
              []
              (Assistant.mkHook "What do you love?" true None None None None [] []).

(** While it records, the browser's recorder gathers the encoded data of
    the captured stream. *)
Definition gather (data : list Z) (c : Component) : Component :=
  match mediaRecorderRef c with
  | Some recorder =>
      match state recorder with
      | recording =>
          mkComponent (has_canvas c)
                      (Some (mkRecorder recording (mimeType recorder)
                                        (gathered recorder ++ data)))
                      (chunksRef c) (queue c) (completed c) (hook c)
      | _ => c
      end
  | None => c
  end.

Definition event_bytes (e : Event) : list Z :=
  match e with
  | dataavailable data => bytes data
  | stop_event => []
  end.

End Capture.

(** ** Ratio selector (components/AspectRatioSelector.tsx) and types.ts *)

Module Selector.
Import Compositor.

(** The string value of each member of the [AspectRatio] enum. *)
Definition value (a : AspectRatio) : string :=
  match a with
  | PORTRAIT_9_16 => "9:16"
  | LANDSCAPE_16_9 => "16:9"
  | PORTRAIT_3_4 => "3:4"
  | SQUARE_1_1 => "1:1"
  end.

(** The entries of [ratios]; the icon of an entry is decoration and is
    left out. *)
Record Entry := mkEntry { entry_value : AspectRatio; label : string }.

Definition ratios : list Entry :=
  [mkEntry PORTRAIT_9_16 "9:16"; mkEntry PORTRAIT_3_4 "3:4";
   mkEntry SQUARE_1_1 "1:1"; mkEntry LANDSCAPE_16_9 "16:9"].

Definition same_ratio (a b : AspectRatio) : bool :=
  match a, b with
  | PORTRAIT_9_16, PORTRAIT_9_16 | LANDSCAPE_16_9, LANDSCAPE_16_9
  | PORTRAIT_3_4, PORTRAIT_3_4 | SQUARE_1_1, SQUARE_1_1 => true
  | _, _ => false
  end.

(** The button of an entry is shown as chosen when [selected === ratio.value]. *)
Definition highlighted (selected : AspectRatio) (e : Entry) : bool :=
  same_ratio selected (entry_value e).

(** A click on the button of an entry calls [onChange(ratio.value)]; a
    disabled button does not fire. *)
Definition click (disabled : bool) (e : Entry) : option AspectRatio :=
  if disabled then None else Some (entry_value e).

(** Reading a label "w:h" as two decimal numbers. *)
Definition digit (c : ascii) : option Z :=
  let n := Z.of_N (N_of_ascii c) in
  if (48 <=? n)%Z && (n <=? 57)%Z then Some (n - 48)%Z else None.

Fixpoint number (s : string) (acc : Z) : option Z :=
  match s with
  | EmptyString => Some acc
  | String c rest =>
      match digit c with
      | Some d => number rest (10 * acc + d)%Z
      | None => None
      end
  end.

Fixpoint split_colon (s : string) : option (string * string) :=
  match s with
  | EmptyString => None
  | String c rest =>
      if Ascii.eqb c ":"%char then Some (EmptyString, rest)
      else match split_colon rest with
           | Some (a, b) => Some (String c a, b)
           | None => None
           end
  end.

Definition parse_ratio (s : string) : option (Z * Z) :=
  match split_colon s with
  | Some (String a w, String b h) =>
      match number (String a w) 0, number (String b h) 0 with
      | Some n, Some d => Some (n, d)
      | _, _ => None
      end
  | _ => None
  end.

End Selector.

(** ** Camera acquisition (components/Recorder.tsx, [initCamera]) *)

Module Camera.

Inductive Kind := audio | video.

Record Track := mkTrack { track_id : nat; kind : Kind }.

Record MediaStream := mkStream { getTracks : list Track }.

(** How [getUserMedia] settles. *)
Inductive Acquisition :=
| Granted (mediaStream : MediaStream)
| Denied.

(** Calls made on the props of the component. *)
Inductive Callback :=
| onStreamReady (mediaStream : MediaStream)
| onError (message : string).

Record Mount := mkMount {
  stream : option MediaStream;
  has_video_element : bool;
  srcObject : option MediaStream;
  playing : bool;
  callbacks : list Callback;
  logged : nat;
  stopped : list nat
}.

(** The component when it mounts: [useState(null)], nothing called yet. *)
Definition mounting (has_video_element : bool) : Mount :=
  mkMount None has_video_element None false [] 0 [].

(** Lines 35-57. *)
Definition initCamera (outcome : Acquisition) (m : Mount) : Mount :=
  match outcome with
  | Granted mediaStream =>
      let attached := has_video_element m in
      mkMount (Some mediaStream) (has_video_element m)
              (if attached then Some mediaStream else srcObject m)
              (if attached then true else playing m)
              (callbacks m ++ [onStreamReady mediaStream])
              (logged m) (stopped m)
  | Denied =>
      mkMount (stream m) (has_video_element m) (srcObject m) (playing m)
              (callbacks m
               ++ [onError "Could not access camera or microphone. Please allow permissions."])
              (S (logged m)) (stopped m)
  end.

(** Lines 61-65, the cleanup the effect returns.  It is a closure over the
    [stream] of the render that created the effect. *)
Definition release (stream_of_render : option MediaStream) (m : Mount) : Mount :=
  match stream_of_render with
  | Some mediaStream =>
      mkMount (stream m) (has_video_element m) (srcObject m) (playing m)
              (callbacks m) (logged m)
              (stopped m ++ map track_id (getTracks mediaStream))
  | None => m
  end.

(** The effect has no dependencies: it runs once, in the first render,
    where [stream] is still [null], and that render's cleanup is the one
    that runs at unmount. *)
Definition mount_then_unmount (has_video_element : bool) (outcome : Acquisition) : Mount :=
  let first_render := mounting has_video_element in
  release (stream first_render) (initCamera outcome first_render).

End Camera.

(** ** Application shell (App.tsx) *)

Module App.
Import Compositor.

Record State := mkState {
  aspectRatio : AspectRatio;
  isRecording : bool;
  recordedUrl : option string;
  error : option string;
  hasStream : bool
}.

(** Lines 7-11. *)
Definition initial : State := mkState PORTRAIT_9_16 false None None false.

(** [recordedUrl] as a condition: a string that is there and not empty. *)
Definition present (o : option string) : bool :=
  match o with
  | Some (String _ _) => true
  | _ => false
  end.

(** Lines 13-16; [url] is what [URL.createObjectURL(blob)] returned. *)
Definition handleRecordingComplete (url : string) (s : State) : State :=
  mkState (aspectRatio s) (isRecording s) (Some url) (error s) (hasStream s).

(** Lines 18-25. *)
Definition handleToggleRecord (s : State) : State :=
  if isRecording s
  then mkState (aspectRatio s) false (recordedUrl s) (error s) (hasStream s)
  else mkState (aspectRatio s) true None (error s) (hasStream s).

(** Lines 38-40. *)
Definition handleDiscard (s : State) : State :=
  mkState (aspectRatio s) (isRecording s) None (error s) (hasStream s).

Definition setAspectRatio (a : AspectRatio) (s : State) : State :=
  mkState a (isRecording s) (recordedUrl s) (error s) (hasStream s).

Definition setHasStream (b : bool) (s : State) : State :=
  mkState (aspectRatio s) (isRecording s) (recordedUrl s) (error s) b.

Definition setError (message : string) (s : State) : State :=
  mkState (aspectRatio s) (isRecording s) (recordedUrl s) (Some message) (hasStream s).

(** What the render shows (lines 55-61, 76-110, 117-126). *)
Definition selector_shown (s : State) : bool := negb (isRecording s).
Definition selector_disabled (s : State) : bool :=
  isRecording s || present (recordedUrl s).
Definition preview_shown (s : State) : bool := present (recordedUrl s).
Definition recorder_mounted (s : State) : bool := negb (present (recordedUrl s)).
Definition record_shown (s : State) : bool := negb (present (recordedUrl s)).
Definition record_disabled (s : State) : bool := negb (hasStream s).

(** What can happen to the application: a tap on one of its buttons (a
    button that is not shown or is disabled does nothing), or a call from
    the recorder component.  A download changes no state. *)
Inductive Event :=
| TapRecord
| TapRatio (e : Selector.Entry)
| TapDiscard
| TapDownload
| RecordingComplete (url : string)
| StreamReady
| CameraError (message : string).

Definition step (e : Event) (s : State) : State :=
  match e with
  | TapRecord =>
      if record_shown s && negb (record_disabled s) then handleToggleRecord s else s
  | TapRatio entry =>
      if selector_shown s then
        match Selector.click (selector_disabled s) entry with
        | Some a => setAspectRatio a s
        | None => s
        end
      else s
  | TapDiscard => if preview_shown s then handleDiscard s else s
  | TapDownload => s
  | RecordingComplete url => handleRecordingComplete url s
  | StreamReady => setHasStream true s
  | CameraError message => setError message s
  end.

Definition run (events : list Event) (s : State) : State :=
  fold_left (fun s e => step e s) events s.

(** The props the application passes to the recorder (lines 106-108). *)
Definition of_camera (c : Camera.Callback) : Event :=
  match c with
  | Camera.onStreamReady _ => StreamReady
  | Camera.onError message => CameraError message
  end.

Definition is_stream_ready (e : Event) : bool :=
  match e with StreamReady => true | _ => false end.

Definition is_tap (e : Event) : bool :=
  match e with
  | TapRecord | TapRatio _ | TapDiscard | TapDownload => true
  | _ => false
  end.

(** Recording is on or a result is shown. *)
Definition busy (s : State) : bool := isRecording s || present (recordedUrl s).

End App.

(** ** Activation of the assistant session (hooks/useGeminiInterviewer.ts,
    the effect of lines 39-155) *)

Module Lifecycle.
Import Assistant.

(** [try { body } catch { handler }]: what the body did before it raised
    stays. *)
Definition try_catch (body handler : JS unit) : JS unit :=
  fun h =>
    match body h with
    | (Normal a, h') => (Normal a, h')
    | (Throw, h') => handler h'
    end.

(** What the host does with the constructions of [connectToGemini]: one
    of the two constructors raises, or both objects are made and
    [ai.live.connect] returns its promise, which [sessionRef] then holds
    whether the connection is later established or refused. *)
Inductive Host :=
| GenAI_throws
| AudioContext_throws
| connects (context : AudioContext) (session : Session).

Local Open Scope js_scope.

(** Lines 42-142.  [apiKey] is [process.env.API_KEY]: absent, or a string
    that counts only if it is not empty. *)
Definition connectToGemini (isActive : bool) (audioStream : bool)
    (apiKey : option string) (host : Host) : JS unit :=
  let keyed := match apiKey with Some k => truthy k | None => false end in
  if negb isActive || negb audioStream || negb keyed then ret tt
  else
    try_catch
      (match host with
       | GenAI_throws => throw
       | AudioContext_throws => throw
       | connects context session =>
           set_audioContextRef (Some context) ;;
           set_sessionRef (Some session)
       end)
      (console_log "Failed to initialize Gemini:").

(** Lines 144-148, the body of the effect. *)
Definition effect (isActive : bool) (audioStream : bool)
    (apiKey : option string) (host : Host) : JS unit :=
  if isActive then connectToGemini isActive audioStream apiKey host
  else cleanup.

(** Lines 150-153, its cleanup; it also clears [mounted], the flag the
    callbacks of this activation read. *)
Definition effect_cleanup : JS unit := cleanup.

(** Lines 57-78; [source] and [processor] are the nodes the context
    creates, absent when the creation raises.  The connections made
    between the nodes are host state the hook never reads. *)
Definition onopen (mounted : bool) (source processor : option AudioNode) : JS unit :=
  console_log "Gemini Connected" ;;
  (if mounted then setIsConnected true else ret tt) ;;
  match source, processor with
  | Some source, Some processor =>
      set_sourceRef (Some source) ;;
      set_scriptProcessorRef (Some processor)
  | _, _ => throw
  end.

(** Lines 107-110 and 111-114. *)
Definition onclose (mounted : bool) : JS unit :=
  console_log "Gemini Disconnected" ;;
  if mounted then setIsConnected false else ret tt.

Definition onerror (mounted : bool) : JS unit :=
  console_log "Gemini Error" ;;
  if mounted then setIsConnected false else ret tt.

Local Close Scope js_scope.

(** What arrives from the remote side during one activation. *)
Inductive Remote :=
| opened (source processor : option AudioNode)
| message (m : LiveServerMessage)
| closed
| errored.

Definition deliver (mounted : bool) (r : Remote) : JS unit :=
  match r with
  | opened source processor => onopen mounted source processor
  | message m => onmessage m
  | closed => onclose mounted
  | errored => onerror mounted
  end.

(** Callbacks run one at a time; one that raises does not stop the next. *)
Definition deliver_all (mounted : bool) (events : list Remote) (h : Hook) : Hook :=
  fold_left (fun h r => exec (deliver mounted r) h) events h.

(** The text an incoming message adds to the prompt. *)
Definition fragment_of (m : LiveServerMessage) : string :=
  match serverContent m with
  | Some content =>
      match outputTranscription content with
      | Some transcription =>
          match text transcription with
          | Some fragment => fragment
          | None => EmptyString
          end
      | None => EmptyString
      end
  | None => EmptyString
  end.

(** What an activation holds afterwards, as the calls that release it,
    and whether the context it created closes without raising. *)
Definition acquired (host : Host) : list Call :=
  match host with
  | connects context session =>
      [ThenClose (session_id session); Close (context_id context)]
  | _ => []
  end.

Definition host_quiet (host : Host) : bool :=
  match host with
  | connects context _ => negb (close_throws context)
  | _ => true
  end.

Definition failed (host : Host) : bool :=
  match host with connects _ _ => false | _ => true end.

Definition is_opened (r : Remote) : bool :=
  match r with opened _ _ => true | _ => false end.

(** The hook when the component mounts. *)
Definition unused : Hook := mkHook EmptyString false None None None None [] [].

End Lifecycle.

(** * Properties *)

(** ** Frame compositor *)

Module CompositorProps.
Import Compositor.

Local Open Scope Q_scope.

(** *** Rounding to binary64 *)

Lemma pow2_pos (e : Z) : 0 < pow2 e.
Proof. apply Qpower_0_lt. reflexivity. Qed.

Lemma pow2_add (a b : Z) : pow2 (a + b) == pow2 a * pow2 b.
Proof. apply Qpower_plus. discriminate. Qed.

Lemma pow2_0 : pow2 0 == 1.
Proof. reflexivity. Qed.

Lemma pow2_1 : pow2 1 == 2.
Proof. reflexivity. Qed.

Lemma pow2_succ (a : Z) : pow2 (a + 1) == 2 * pow2 a.
Proof. rewrite pow2_add, pow2_1. ring. Qed.

Lemma pow2_le (a b : Z) : (a <= b)%Z -> pow2 a <= pow2 b.
Proof. intros H. apply Qpower_le_compat_l; [exact H | discriminate]. Qed.

Lemma pow2_lt (a b : Z) : (a < b)%Z -> pow2 a < pow2 b.
Proof.
  intros H. apply Qlt_le_trans with (pow2 (a + 1)).
  - rewrite pow2_succ. pose proof (pow2_pos a). lra.
  - apply pow2_le. lia.
Qed.

Lemma pow2_lt_inv (a b : Z) : pow2 a < pow2 b -> (a < b)%Z.
Proof.
  intros H. destruct (Z_lt_le_dec a b) as [Hlt | Hle]; [exact Hlt|].
  apply pow2_le in Hle. lra.
Qed.

Lemma pow2_Z (n : Z) : (0 <= n)%Z -> pow2 n == inject_Z (2 ^ n).
Proof. intros H. unfold pow2. rewrite Zpower_Qpower by exact H. reflexivity. Qed.

Lemma pow2_opp (a : Z) : pow2 (- a) == / pow2 a.
Proof. apply Qpower_opp. Qed.

Lemma pow2_sub (a b : Z) : pow2 (a - b) == pow2 a / pow2 b.
Proof. unfold Z.sub. rewrite pow2_add, pow2_opp. reflexivity. Qed.

(** **** The binade of a positive rational *)

Lemma Q_as_div (q : Q) : q == inject_Z (Qnum q) / inject_Z (Zpos (Qden q)).
Proof. destruct q as [n d]. cbn [Qnum Qden]. apply Qmake_Qdiv. Qed.

Lemma ilog2_spec (q : Q) :
  0 < q -> pow2 (ilog2 q) <= q /\ q < pow2 (ilog2 q + 1).
Proof.
  intros Hq.
  assert (Hn : (0 < Qnum q)%Z).
  { destruct q as [n d]. unfold Qlt in Hq. cbn in *. lia. }
  set (n := Qnum q) in *. set (d := Zpos (Qden q)).
  assert (Hd : (0 < d)%Z) by (unfold d; lia).
  destruct (Z.log2_spec n Hn) as [Hn1 Hn2].
  destruct (Z.log2_spec d Hd) as [Hd1 Hd2].
  set (a := Z.log2 n) in *. set (b := Z.log2 d) in *.
  assert (Ha : (0 <= a)%Z) by apply Z.log2_nonneg.
  assert (Hb : (0 <= b)%Z) by apply Z.log2_nonneg.
  assert (Eq : q * inject_Z d == inject_Z n).
  { rewrite (Q_as_div q) at 1. fold n d. field.
    intro E. apply (Qlt_irrefl 0). rewrite <- E at 2.
    change 0 with (inject_Z 0). rewrite <- Zlt_Qlt. exact Hd. }
  assert (Qd : 0 < inject_Z d) by (change 0 with (inject_Z 0); rewrite <- Zlt_Qlt; exact Hd).
  assert (Qn1 : pow2 a <= inject_Z n) by (rewrite pow2_Z by exact Ha; rewrite <- Zle_Qle; exact Hn1).
  assert (Qn2 : inject_Z n < pow2 (a + 1))
    by (rewrite pow2_Z by lia; rewrite <- Zlt_Qlt; replace (a + 1)%Z with (Z.succ a) by lia; exact Hn2).
  assert (Qd1 : pow2 b <= inject_Z d) by (rewrite pow2_Z by exact Hb; rewrite <- Zle_Qle; exact Hd1).
  assert (Qd2 : inject_Z d < pow2 (b + 1))
    by (rewrite pow2_Z by lia; rewrite <- Zlt_Qlt; replace (b + 1)%Z with (Z.succ b) by lia; exact Hd2).
  (* q < pow2 (a - b + 1) and pow2 (a - b - 1) < q *)
  assert (Hup : q < pow2 (a - b + 1)).
  { apply Qmult_lt_r with (pow2 b); [apply pow2_pos|].
    rewrite <- pow2_add. replace (a - b + 1 + b)%Z with (a + 1)%Z by lia.
    apply Qle_lt_trans with (q * inject_Z d); [|rewrite Eq; exact Qn2].
    apply Qmult_le_l; [exact Hq | exact Qd1]. }
  assert (Hlo : pow2 (a - b - 1) < q).
  { apply Qmult_lt_r with (pow2 (b + 1)); [apply pow2_pos|].
    rewrite <- pow2_add. replace (a - b - 1 + (b + 1))%Z with a by lia.
    apply Qle_lt_trans with (inject_Z n); [exact Qn1|].
    rewrite <- Eq. apply Qmult_lt_l; [exact Hq | exact Qd2]. }
  unfold ilog2. fold n d a b.
  destruct (Qle_bool (pow2 (a - b)) q) eqn:Hc.
  - apply Qle_bool_iff in Hc. split; [exact Hc | exact Hup].
  - assert (Hlt : q < pow2 (a - b)).
    { apply Qnot_le_lt. intro H. apply Qle_bool_iff in H. congruence. }
    split; [apply Qlt_le_weak, Hlo|].
    replace (a - b - 1 + 1)%Z with (a - b)%Z by lia. exact Hlt.
Qed.

Lemma binade_unique (q : Q) (e e' : Z) :
  pow2 e <= q -> q < pow2 (e + 1) -> pow2 e' <= q -> q < pow2 (e' + 1) -> e = e'.
Proof.
  intros H1 H2 H3 H4.
  assert (A : (e < e' + 1)%Z) by (apply pow2_lt_inv; lra).
  assert (B : (e' < e + 1)%Z) by (apply pow2_lt_inv; lra).
  lia.
Qed.

Lemma ilog2_unique (q : Q) (e : Z) :
  pow2 e <= q -> q < pow2 (e + 1) -> ilog2 q = e.
Proof.
  intros H1 H2.
  assert (Hq : 0 < q) by (pose proof (pow2_pos e); lra).
  destruct (ilog2_spec q Hq) as [H3 H4].
  exact (binade_unique q _ _ H3 H4 H1 H2).
Qed.

Lemma ilog2_comp (p q : Q) : 0 < p -> p == q -> ilog2 p = ilog2 q.
Proof.
  intros Hp E. destruct (ilog2_spec p Hp) as [H1 H2].
  symmetry. apply ilog2_unique; rewrite <- E; assumption.
Qed.

Lemma ilog2_le (p q : Q) : 0 < p -> p <= q -> (ilog2 p <= ilog2 q)%Z.
Proof.
  intros Hp Hpq.
  destruct (ilog2_spec p Hp) as [H1 _].
  destruct (ilog2_spec q) as [_ H4]; [lra|].
  assert (A : (ilog2 p < ilog2 q + 1)%Z) by (apply pow2_lt_inv; lra).
  lia.
Qed.

(** **** Rounding to the nearest integer, ties to even *)

Lemma floor_bounds (t : Q) : inject_Z (Qfloor t) <= t /\ t < inject_Z (Qfloor t) + 1.
Proof.
  split; [apply Qfloor_le|].
  pose proof (Qlt_floor t) as H. rewrite inject_Z_plus in H. exact H.
Qed.

Lemma rne_cases (t : Q) :
  (rne t = Qfloor t /\ t - inject_Z (Qfloor t) <= 1 # 2) \/
  (rne t = (Qfloor t + 1)%Z /\ 1 # 2 <= t - inject_Z (Qfloor t)).
Proof.
  unfold rne.
  destruct (Qcompare_spec (t - inject_Z (Qfloor t)) (1 # 2)) as [E | L | G].
  - destruct (Z.even (Qfloor t)); [left | right]; split; try reflexivity; rewrite E; apply Qle_refl.
  - left. split; [reflexivity | apply Qlt_le_weak, L].
  - right. split; [reflexivity | apply Qlt_le_weak, G].
Qed.

Lemma rne_near (t : Q) : t - (1 # 2) <= inject_Z (rne t) /\ inject_Z (rne t) <= t + (1 # 2).
Proof.
  destruct (floor_bounds t) as [F1 F2].
  destruct (rne_cases t) as [[E H] | [E H]]; rewrite E; rewrite ?inject_Z_plus;
    change (inject_Z 1) with 1; split; lra.
Qed.

Lemma Qfloor_unique (t : Q) (z : Z) : inject_Z z <= t -> t < inject_Z z + 1 -> Qfloor t = z.
Proof.
  intros H1 H2. destruct (floor_bounds t) as [F1 F2].
  assert (A : (z < Qfloor t + 1)%Z).
  { rewrite Zlt_Qlt, inject_Z_plus. change (inject_Z 1) with 1. lra. }
  assert (B : (Qfloor t < z + 1)%Z).
  { rewrite Zlt_Qlt, inject_Z_plus. change (inject_Z 1) with 1. lra. }
  lia.
Qed.

Lemma rne_below_half (t : Q) (z : Z) :
  inject_Z z <= t -> t < inject_Z z + (1 # 2) -> rne t = z.
Proof.
  intros H1 H2.
  assert (F : Qfloor t = z) by (apply Qfloor_unique; lra).
  unfold rne. rewrite F.
  destruct (Qcompare_spec (t - inject_Z z) (1 # 2)) as [E | L | G]; try reflexivity; lra.
Qed.

Lemma rne_Z (z : Z) : rne (inject_Z z) = z.
Proof. apply rne_below_half; lra. Qed.

Lemma rne_comp (t u : Q) : t == u -> rne t = rne u.
Proof.
  intros E. unfold rne. rewrite (Qfloor_comp t u E).
  assert (E' : t - inject_Z (Qfloor u) == u - inject_Z (Qfloor u)) by (rewrite E; reflexivity).
  rewrite (Qcompare_comp _ _ E' (1 # 2) (1 # 2) (Qeq_refl _)). reflexivity.
Qed.

Lemma rne_mono (t u : Q) : t <= u -> (rne t <= rne u)%Z.
Proof.
  intros Htu.
  pose proof (Qfloor_resp_le t u Htu) as Hf.
  destruct (floor_bounds t) as [T1 T2]. destruct (floor_bounds u) as [U1 U2].
  destruct (Z.eq_dec (Qfloor t) (Qfloor u)) as [E | N].
  - unfold rne. rewrite E.
    destruct (Qcompare_spec (t - inject_Z (Qfloor u)) (1 # 2)) as [E1 | L1 | G1];
      destruct (Qcompare_spec (u - inject_Z (Qfloor u)) (1 # 2)) as [E2 | L2 | G2];
      try lia; try lra; destruct (Z.even (Qfloor u)); lia.
  - assert (Hlt : (Qfloor t + 1 <= Qfloor u)%Z) by lia.
    destruct (rne_cases t) as [[Et _] | [Et _]];
      destruct (rne_cases u) as [[Eu _] | [Eu _]]; lia.
Qed.

Lemma pow2_neq (e : Z) : ~ pow2 e == 0.
Proof. pose proof (pow2_pos e). lra. Qed.

Lemma scaled (q : Q) (e : Z) : q / pow2 e * pow2 e == q.
Proof. field. apply pow2_neq. Qed.

Lemma scaled_le (p q : Q) (e : Z) : p <= q -> p / pow2 e <= q / pow2 e.
Proof.
  intros H. unfold Qdiv. apply Qmult_le_compat_r; [exact H|].
  apply Qlt_le_weak, Qinv_lt_0_compat, pow2_pos.
Qed.

Lemma scaled_lt (p q : Q) (e : Z) : p < q -> p / pow2 e < q / pow2 e.
Proof.
  intros H. unfold Qdiv. apply Qmult_lt_r; [|exact H].
  apply Qinv_lt_0_compat, pow2_pos.
Qed.

Lemma pow2_div (a b : Z) : pow2 a / pow2 b == pow2 (a - b).
Proof. rewrite pow2_sub. reflexivity. Qed.

Lemma pow2_52 : pow2 52 == inject_Z (2 ^ 52).
Proof. apply pow2_Z. lia. Qed.

Lemma pow2_53 : pow2 53 == inject_Z (2 ^ 53).
Proof. apply pow2_Z. lia. Qed.

Section Binade.

Variables (q : Q) (e : Z).
Hypothesis lower : pow2 e <= q.
Hypothesis upper : q < pow2 (e + 1).

Lemma round_pos_at : round_pos q == inject_Z (rne (q / pow2 (e - 52))) * pow2 (e - 52).
Proof. unfold round_pos. rewrite (ilog2_unique q e lower upper). reflexivity. Qed.

Lemma significand_bounds :
  (2 ^ 52 <= rne (q / pow2 (e - 52)) <= 2 ^ 53)%Z.
Proof.
  assert (E1 : inject_Z (2 ^ 52) == pow2 e / pow2 (e - 52)).
  { rewrite pow2_div, <- pow2_52. replace (e - (e - 52))%Z with 52%Z by lia. reflexivity. }
  assert (E2 : inject_Z (2 ^ 53) == pow2 (e + 1) / pow2 (e - 52)).
  { rewrite pow2_div, <- pow2_53. replace (e + 1 - (e - 52))%Z with 53%Z by lia. reflexivity. }
  split.
  - rewrite <- (rne_Z (2 ^ 52)). apply rne_mono. rewrite E1. apply scaled_le, lower.
  - rewrite <- (rne_Z (2 ^ 53)). apply rne_mono. rewrite E2.
    apply scaled_le. apply Qlt_le_weak, upper.
Qed.

Lemma round_pos_bounds : pow2 e <= round_pos q /\ round_pos q <= pow2 (e + 1).
Proof.
  rewrite round_pos_at. destruct significand_bounds as [L U].
  rewrite Zle_Qle in L, U. rewrite <- pow2_52 in L. rewrite <- pow2_53 in U.
  pose proof (pow2_pos (e - 52)) as P.
  assert (E1 : pow2 e == pow2 52 * pow2 (e - 52)).
  { rewrite <- pow2_add. replace (52 + (e - 52))%Z with e by lia. reflexivity. }
  assert (E2 : pow2 (e + 1) == pow2 53 * pow2 (e - 52)).
  { rewrite <- pow2_add. replace (53 + (e - 52))%Z with (e + 1)%Z by lia. reflexivity. }
  rewrite E1, E2. split; apply Qmult_le_compat_r; lra.
Qed.

Lemma round_pos_error :
  q - pow2 (e - 53) <= round_pos q /\ round_pos q <= q + pow2 (e - 53).
Proof.
  rewrite round_pos_at.
  destruct (rne_near (q / pow2 (e - 52))) as [L U].
  pose proof (pow2_pos (e - 52)) as P.
  assert (E : pow2 (e - 53) == (1 # 2) * pow2 (e - 52)).
  { replace (e - 52)%Z with ((e - 53) + 1)%Z by lia. rewrite pow2_succ. field. }
  rewrite E.
  assert (Q1 : q == q / pow2 (e - 52) * pow2 (e - 52)) by (symmetry; apply scaled).
  split.
  - rewrite Q1 at 1.
    setoid_replace (q / pow2 (e - 52) * pow2 (e - 52) - (1 # 2) * pow2 (e - 52))
      with ((q / pow2 (e - 52) - (1 # 2)) * pow2 (e - 52)) by ring.
    apply Qmult_le_compat_r; lra.
  - rewrite Q1 at 2.
    setoid_replace (q / pow2 (e - 52) * pow2 (e - 52) + (1 # 2) * pow2 (e - 52))
      with ((q / pow2 (e - 52) + (1 # 2)) * pow2 (e - 52)) by ring.
    apply Qmult_le_compat_r; lra.
Qed.

Lemma round_pos_relative :
  q * (1 - pow2 (-53)) <= round_pos q /\ round_pos q <= q * (1 + pow2 (-53)).
Proof.
  destruct round_pos_error as [L U].
  assert (E : pow2 (e - 53) == pow2 e * pow2 (-53)).
  { rewrite <- pow2_add. replace (e + -53)%Z with (e - 53)%Z by lia. reflexivity. }
  pose proof (pow2_pos (-53)) as P.
  assert (B : pow2 (e - 53) <= q * pow2 (-53)).
  { rewrite E. apply Qmult_le_compat_r; lra. }
  split; lra.
Qed.

Lemma round_pos_fixed (z k : Z) :
  q == inject_Z z * pow2 k -> (e - 52 <= k)%Z -> round_pos q == q.
Proof.
  intros E Hk. rewrite round_pos_at.
  assert (T : q / pow2 (e - 52) == inject_Z (z * 2 ^ (k - (e - 52)))).
  { rewrite inject_Z_mult, <- pow2_Z by lia. rewrite <- (pow2_div k (e - 52)), E.
    field. apply pow2_neq. }
  rewrite (rne_comp _ _ T), rne_Z, <- T. apply scaled.
Qed.

End Binade.

Lemma round_pos_comp (p q : Q) : 0 < p -> p == q -> round_pos p == round_pos q.
Proof.
  intros Hp E. unfold round_pos. rewrite (ilog2_comp p q Hp E).
  assert (T : p / pow2 (ilog2 q - 52) == q / pow2 (ilog2 q - 52)) by (rewrite E; reflexivity).
  rewrite (rne_comp _ _ T). reflexivity.
Qed.

Lemma round_pos_pos (q : Q) : 0 < q -> 0 < round_pos q.
Proof.
  intros Hq. destruct (ilog2_spec q Hq) as [L U].
  destruct (round_pos_bounds q _ L U) as [B _].
  pose proof (pow2_pos (ilog2 q)). lra.
Qed.

Lemma round_pos_mono (p q : Q) : 0 < p -> p <= q -> round_pos p <= round_pos q.
Proof.
  intros Hp Hpq.
  assert (Hq : 0 < q) by lra.
  destruct (ilog2_spec p Hp) as [Lp Up]. destruct (ilog2_spec q Hq) as [Lq Uq].
  pose proof (ilog2_le p q Hp Hpq) as Hle.
  destruct (Z.eq_dec (ilog2 p) (ilog2 q)) as [E | N].
  - unfold round_pos. rewrite E.
    apply Qmult_le_compat_r; [|apply Qlt_le_weak, pow2_pos].
    rewrite <- Zle_Qle. apply rne_mono, scaled_le, Hpq.
  - destruct (round_pos_bounds p _ Lp Up) as [_ B1].
    destruct (round_pos_bounds q _ Lq Uq) as [B2 _].
    assert (H : pow2 (ilog2 p + 1) <= pow2 (ilog2 q)) by (apply pow2_le; lia).
    lra.
Qed.

Lemma round_pos_idem (q : Q) : 0 < q -> round_pos (round_pos q) == round_pos q.
Proof.
  intros Hq. destruct (ilog2_spec q Hq) as [L U].
  set (e := ilog2 q) in *.
  destruct (round_pos_bounds q e L U) as [B1 B2].
  pose proof (round_pos_at q e L U) as A.
  destruct (Qlt_le_dec (round_pos q) (pow2 (e + 1))) as [Hlt | Hge].
  - apply (round_pos_fixed _ e B1 Hlt _ (e - 52) A). lia.
  - assert (E : round_pos q == pow2 (e + 1)) by lra.
    apply (round_pos_fixed _ (e + 1)%Z) with (z := 1%Z) (k := (e + 1)%Z).
    + lra.
    + rewrite E. apply pow2_lt. lia.
    + rewrite E. change (inject_Z 1) with 1. ring.
    + lia.
Qed.

Lemma round_pos_nearest (x : Q) (m k : Z) :
  (2 ^ 52 <= m < 2 ^ 53)%Z ->
  inject_Z m * pow2 k <= x -> x < inject_Z m * pow2 k + pow2 (k - 1) ->
  round_pos x == inject_Z m * pow2 k.
Proof.
  intros [M1 M2] L U.
  assert (M3 : (m + 1 <= 2 ^ 53)%Z) by lia.
  rewrite Zle_Qle in M1, M3. rewrite inject_Z_plus in M3. change (inject_Z 1) with 1 in M3.
  rewrite <- pow2_52 in M1. rewrite <- pow2_53 in M3.
  pose proof (pow2_pos k) as P.
  assert (Hk : pow2 (k - 1) == (1 # 2) * pow2 k).
  { replace k with ((k - 1) + 1)%Z at 2 by lia. rewrite pow2_succ. field. }
  assert (E1 : pow2 (k + 52) == pow2 52 * pow2 k).
  { rewrite <- pow2_add. replace (52 + k)%Z with (k + 52)%Z by lia. reflexivity. }
  assert (E2 : pow2 (k + 52 + 1) == pow2 53 * pow2 k).
  { rewrite <- pow2_add. replace (53 + k)%Z with (k + 52 + 1)%Z by lia. reflexivity. }
  assert (B1 : pow2 (k + 52) <= x).
  { rewrite E1. apply Qle_trans with (inject_Z m * pow2 k); [|exact L].
    apply Qmult_le_compat_r; lra. }
  assert (B2 : x < pow2 (k + 52 + 1)).
  { rewrite E2. apply Qlt_le_trans with ((inject_Z m + 1) * pow2 k).
    - rewrite Hk in U. lra.
    - apply Qmult_le_compat_r; lra. }
  rewrite (round_pos_at x _ B1 B2).
  replace (k + 52 - 52)%Z with k by lia.
  assert (R : rne (x / pow2 k) = m).
  { apply rne_below_half.
    - setoid_replace (inject_Z m) with (inject_Z m * pow2 k / pow2 k)
        by (field; apply pow2_neq).
      apply scaled_le, L.
    - setoid_replace (inject_Z m + (1 # 2)) with ((inject_Z m * pow2 k + pow2 (k - 1)) / pow2 k)
        by (rewrite Hk; field; apply pow2_neq).
      apply scaled_lt, U. }
  rewrite R. reflexivity.
Qed.

(** **** Signed rounding *)

Lemma Qnum_pos (q : Q) : 0 < q -> exists p, Qnum q = Zpos p.
Proof.
  destruct q as [[|p|p] d]; unfold Qlt; cbn; intros H; try lia. exists p. reflexivity.
Qed.

Lemma Qnum_neg (q : Q) : q < 0 -> exists p, Qnum q = Zneg p.
Proof.
  destruct q as [[|p|p] d]; unfold Qlt; cbn; intros H; try lia. exists p. reflexivity.
Qed.

Lemma Qnum_zero (q : Q) : q == 0 -> Qnum q = 0%Z.
Proof. destruct q as [n d]; unfold Qeq; cbn; lia. Qed.

Lemma round53_pos (q : Q) : 0 < q -> round53 q = round_pos q.
Proof. intros H. destruct (Qnum_pos q H) as [p E]. unfold round53. rewrite E. reflexivity. Qed.

Lemma round53_neg (q : Q) : q < 0 -> round53 q = - round_pos (- q).
Proof. intros H. destruct (Qnum_neg q H) as [p E]. unfold round53. rewrite E. reflexivity. Qed.

Lemma round53_zero (q : Q) : q == 0 -> round53 q = 0.
Proof. intros H. unfold round53. rewrite (Qnum_zero q H). reflexivity. Qed.

Lemma round53_comp (p q : Q) : p == q -> round53 p == round53 q.
Proof.
  intros E. destruct (Q_dec p 0) as [[N | P] | Z].
  - rewrite (round53_neg p N), (round53_neg q) by lra.
    apply Qopp_comp, round_pos_comp; [lra | rewrite E; reflexivity].
  - rewrite (round53_pos p P), (round53_pos q) by lra.
    apply round_pos_comp; assumption.
  - rewrite (round53_zero p Z), (round53_zero q) by lra. reflexivity.
Qed.

Lemma round53_sign (q : Q) :
  (0 < q -> 0 < round53 q) /\ (q < 0 -> round53 q < 0) /\ (q == 0 -> round53 q == 0).
Proof.
  repeat split; intros H.
  - rewrite (round53_pos q H). apply round_pos_pos, H.
  - rewrite (round53_neg q H). assert (P : 0 < round_pos (- q)) by (apply round_pos_pos; lra). lra.
  - rewrite (round53_zero q H). reflexivity.
Qed.

Lemma round53_nonneg (q : Q) : 0 <= q -> 0 <= round53 q.
Proof.
  intros H. destruct (round53_sign q) as [P [_ Z]].
  destruct (Qle_lt_or_eq _ _ H) as [L | E].
  - apply Qlt_le_weak, P, L.
  - rewrite Z by (symmetry; exact E). apply Qle_refl.
Qed.

Lemma round53_mono (p q : Q) : p <= q -> round53 p <= round53 q.
Proof.
  intros H.
  destruct (round53_sign p) as [Pp [Np Zp]]. destruct (round53_sign q) as [Pq [Nq Zq]].
  destruct (Q_dec p 0) as [[N | P] | Z]; destruct (Q_dec q 0) as [[N' | P'] | Z'];
    try lra;
    try (specialize (Np N)); try (specialize (Pp P)); try (specialize (Zp Z));
    try (specialize (Nq N')); try (specialize (Pq P')); try (specialize (Zq Z'));
    try lra.
  - rewrite (round53_neg p N), (round53_neg q N').
    apply Qopp_le_compat, round_pos_mono; lra.
  - rewrite (round53_pos p P), (round53_pos q P'). apply round_pos_mono; assumption.
Qed.

Lemma round53_idem (q : Q) : round53 (round53 q) == round53 q.
Proof.
  destruct (round53_sign q) as [Pq [Nq Zq]].
  destruct (Q_dec q 0) as [[N | P] | Z].
  - specialize (Nq N). rewrite (round53_neg _ Nq). rewrite (round53_neg q N).
    apply Qopp_comp.
    rewrite (round_pos_comp (- - round_pos (- q)) (round_pos (- q))).
    + apply round_pos_idem. lra.
    + rewrite Qopp_involutive. apply round_pos_pos. lra.
    + apply Qopp_involutive.
  - specialize (Pq P). rewrite (round53_pos _ Pq), (round53_pos q P). apply round_pos_idem, P.
  - rewrite (round53_zero q Z). reflexivity.
Qed.

Lemma round53_relative (q : Q) :
  0 <= q -> q * (1 - pow2 (-53)) <= round53 q /\ round53 q <= q * (1 + pow2 (-53)).
Proof.
  intros H. destruct (Qle_lt_or_eq _ _ H) as [L | E].
  - rewrite (round53_pos q L). destruct (ilog2_spec q L) as [A B].
    exact (round_pos_relative q _ A B).
  - rewrite (round53_zero q) by (symmetry; exact E). rewrite <- E.
    generalize (pow2 (-53)). intros u. split; lra.
Qed.

Lemma round53_Z (z : Z) : (0 <= z <= 2 ^ 53)%Z -> round53 (inject_Z z) == inject_Z z.
Proof.
  intros [L U]. destruct (Z.eq_dec z 0) as [-> | N]; [reflexivity|].
  assert (P : 0 < inject_Z z) by (change 0 with (inject_Z 0); rewrite <- Zlt_Qlt; lia).
  rewrite (round53_pos _ P). destruct (ilog2_spec _ P) as [A B].
  destruct (Z.eq_dec z (2 ^ 53)) as [-> | N'].
  - apply (round_pos_fixed _ _ A B 1%Z 53%Z).
    + rewrite pow2_53. change (inject_Z 1) with 1. ring.
    + assert (H : (ilog2 (inject_Z (2 ^ 53)) < 53 + 1)%Z); [|lia].
      apply pow2_lt_inv. apply Qle_lt_trans with (inject_Z (2 ^ 53)); [exact A|].
      rewrite pow2_Z by lia. rewrite <- Zlt_Qlt. lia.
  - apply (round_pos_fixed _ _ A B z 0%Z).
    + rewrite pow2_0. ring.
    + assert (H : (ilog2 (inject_Z z) < 53)%Z); [|lia].
      apply pow2_lt_inv. apply Qle_lt_trans with (inject_Z z); [exact A|].
      rewrite pow2_Z by lia. rewrite <- Zlt_Qlt. lia.
Qed.

Lemma round53_nearest (x : Q) (m k : Z) :
  (2 ^ 52 <= m < 2 ^ 53)%Z ->
  inject_Z m * pow2 k <= x -> x < inject_Z m * pow2 k + pow2 (k - 1) ->
  round53 x == inject_Z m * pow2 k.
Proof.
  intros M L U.
  assert (P : 0 < x).
  { apply Qlt_le_trans with (inject_Z m * pow2 k); [|exact L].
    apply Qmult_lt_0_compat; [|apply pow2_pos].
    change 0 with (inject_Z 0). rewrite <- Zlt_Qlt. lia. }
  rewrite (round53_pos x P). apply round_pos_nearest; assumption.
Qed.

Lemma round53_below (x y : Q) : x <= y -> representable y -> round53 x <= y.
Proof.
  intros H R. apply Qle_trans with (round53 y); [apply round53_mono, H|].
  unfold representable in R. rewrite R. apply Qle_refl.
Qed.

Lemma round53_above (x y : Q) : y <= x -> representable y -> y <= round53 x.
Proof.
  intros H R. apply Qle_trans with (round53 y); [|apply round53_mono, H].
  unfold representable in R. rewrite R. apply Qle_refl.
Qed.

(** *** The crop in rounded arithmetic *)

#[export] Instance round53_proper : Proper (Qeq ==> Qeq) round53.
Proof. intros p q E. apply round53_comp, E. Qed.

Lemma u53_small : 0 < u53 /\ u53 <= 1 # 4.
Proof.
  split; [apply pow2_pos|].
  assert (H : pow2 (-2) == 1 # 4) by reflexivity.
  rewrite <- H. apply pow2_le. lia.
Qed.

Lemma round53_upper (q : Q) : 0 <= q -> round53 q <= q * (1 + u53).
Proof. intros H. apply round53_relative, H. Qed.

Lemma round53_lower (q : Q) : 0 <= q -> q * (1 - u53) <= round53 q.
Proof. intros H. apply round53_relative, H. Qed.

Lemma round53_2 : round53 2 == 2.
Proof. apply (round53_Z 2). lia. Qed.

(** Half of a rounded difference, rounded, does not exceed the difference. *)
Lemma half_fits (d : Q) :
  0 <= d -> 0 <= round53 (round53 d / round53 2) /\ round53 (round53 d / round53 2) <= d.
Proof.
  intros Hd. destruct u53_small as [U0 U1].
  pose proof (round53_nonneg d Hd) as N1.
  pose proof (round53_upper d Hd) as B1.
  rewrite round53_2.
  assert (N2 : 0 <= round53 d / 2) by (apply Qle_shift_div_l; lra).
  split; [apply round53_nonneg, N2|].
  pose proof (round53_upper _ N2) as B2.
  revert B2 N2 B1 N1. generalize (round53 (round53 d / 2)) (round53 d). intros r2 r1.
  unfold Qdiv. change (/ 2) with (1 # 2). revert U0 U1. generalize u53. intros u U0 U1 B2 N2 B1 N1.
  assert (S1 : r1 * (1 # 2) * (1 + u) <= d * (1 + u) * (1 # 2) * (1 + u)).
  { repeat apply Qmult_le_compat_r; lra. }
  assert (S2 : d * (1 + u) * (1 # 2) * (1 + u) <= d).
  { setoid_replace (d * (1 + u) * (1 # 2) * (1 + u)) with (d * ((1 + u) * (1 + u) * (1 # 2))) by ring.
    setoid_replace d with (d * 1) at 2 by ring.
    rewrite (Qmult_comm d), (Qmult_comm d 1).
    apply Qmult_le_compat_r; [|exact Hd]. nra. }
  lra.
Qed.

Lemma centred_offset_fits (X W : Q) :
  representable X -> W <= X ->
  let s := round53 (round53 (X - W) / round53 2) in
  0 <= s /\ s + W <= X /\ round53 (s + W) <= X /\
  (X - W) / 2 * (1 - u53) * (1 - u53) <= s /\ s <= (X - W) / 2 * (1 + u53) * (1 + u53).
Proof.
  intros RX HW s.
  assert (Hd : 0 <= X - W) by lra.
  destruct (half_fits (X - W) Hd) as [S0 S1]. fold s in S0, S1.
  split; [exact S0|]. split; [lra|]. split; [apply round53_below; [lra | exact RX]|].
  destruct u53_small as [U0 U1].
  pose proof (round53_nonneg _ Hd) as N1.
  pose proof (round53_lower _ Hd) as L1. pose proof (round53_upper _ Hd) as B1.
  assert (N2 : 0 <= round53 (X - W) / round53 2).
  { rewrite round53_2. apply Qle_shift_div_l; lra. }
  pose proof (round53_lower _ N2) as L2. pose proof (round53_upper _ N2) as B2.
  fold s in L2, B2. rewrite round53_2 in L2, B2.
  revert L1 B1 L2 B2 N1. generalize (round53 (X - W)). intros r L1 B1 L2 B2 N1.
  unfold Qdiv in *. change (/ 2) with (1 # 2) in *.
  revert U0 U1 L1 B1 L2 B2. generalize u53. intros u U0 U1 L1 B1 L2 B2.
  split.
  - apply Qle_trans with (r * (1 # 2) * (1 - u)); [|exact L2].
    apply Qmult_le_compat_r; [|lra].
    setoid_replace ((X - W) * (1 # 2) * (1 - u)) with ((X - W) * (1 - u) * (1 # 2)) by ring.
    apply Qmult_le_compat_r; lra.
  - apply Qle_trans with (r * (1 # 2) * (1 + u)); [exact B2|].
    apply Qmult_le_compat_r; [|lra].
    setoid_replace ((X - W) * (1 # 2) * (1 + u)) with ((X - W) * (1 + u) * (1 # 2)) by ring.
    apply Qmult_le_compat_r; lra.
Qed.

Lemma size_exact (z : Z) : (0 <= z < 2 ^ 32)%Z -> round53 (inject_Z z) == inject_Z z.
Proof. intros H. apply round53_Z. lia. Qed.

Lemma inject_pos (z : Z) : (0 < z)%Z -> 0 < inject_Z z.
Proof. intros H. change 0 with (inject_Z 0). rewrite <- Zlt_Qlt. exact H. Qed.

(** First branch: the source is wider than the target. *)
Lemma wider_width_fits (V H c : Q) :
  representable V -> representable c -> 0 < H ->
  c < round53 (V / H) -> round53 (H * c) <= V.
Proof.
  intros RV Rc HH Hlt.
  destruct (Qlt_le_dec V (H * c)) as [Hbad | Hok].
  - exfalso. assert (Hq : V / H <= c).
    { apply Qle_shift_div_r; [exact HH|]. rewrite Qmult_comm. lra. }
    pose proof (round53_below _ _ Hq Rc). lra.
  - apply round53_below; assumption.
Qed.

(** Second branch, when the target ratio is itself a binary64 number. *)
Lemma taller_height_fits (V H cw ch : Z) (c : Q) :
  (0 < V < 2 ^ 32)%Z -> (0 < H)%Z -> (0 < cw)%Z -> (0 < ch <= 2 ^ 20)%Z ->
  c == inject_Z cw / inject_Z ch ->
  round53 (inject_Z V / inject_Z H) <= c ->
  inject_Z V / c <= inject_Z H.
Proof.
  intros HV HH Hcw Hch Ec Hle.
  pose proof (inject_pos V (proj1 HV)) as PV. pose proof (inject_pos H HH) as PH.
  pose proof (inject_pos cw Hcw) as Pcw. pose proof (inject_pos ch (proj1 Hch)) as Pch.
  assert (Pc : 0 < c) by (rewrite Ec; apply Qlt_shift_div_l; lra).
  apply Qle_shift_div_r; [exact Pc|].
  destruct (Qlt_le_dec (inject_Z H * c) (inject_Z V)) as [Hbad | Hok]; [exfalso | exact Hok].
  (* V * ch > H * cw over the integers *)
  assert (I1 : (H * cw + 1 <= V * ch)%Z).
  { assert (I : (H * cw < V * ch)%Z); [|lia].
    rewrite Zlt_Qlt, !inject_Z_mult.
    rewrite Ec in Hbad.
    apply Qmult_lt_r with (/ inject_Z ch); [apply Qinv_lt_0_compat, Pch|].
    setoid_replace (inject_Z V * inject_Z ch * / inject_Z ch) with (inject_Z V) by (field; lra).
    setoid_replace (inject_Z H * inject_Z cw * / inject_Z ch)
      with (inject_Z H * (inject_Z cw / inject_Z ch)) by (field; lra).
    exact Hbad. }
  assert (I2 : (V * ch < 2 ^ 52)%Z) by nia.
  rewrite Zle_Qle, inject_Z_plus, !inject_Z_mult in I1. change (inject_Z 1) with 1 in I1.
  rewrite Zlt_Qlt, inject_Z_mult, <- pow2_Z in I2 by lia.
  assert (NQ : 0 <= inject_Z V / inject_Z H) by (apply Qle_shift_div_l; lra).
  pose proof (round53_lower _ NQ) as L.
  assert (L' : inject_Z V * (1 - u53) <= c * inject_Z H).
  { apply Qle_trans with (inject_Z V / inject_Z H * (1 - u53) * inject_Z H).
    - setoid_replace (inject_Z V / inject_Z H * (1 - u53) * inject_Z H)
        with (inject_Z V * (1 - u53)) by (field; lra). apply Qle_refl.
    - apply Qmult_le_compat_r; lra. }
  rewrite Ec in L'.
  assert (L'' : inject_Z V * inject_Z ch * (1 - u53) <= inject_Z H * inject_Z cw).
  { setoid_replace (inject_Z H * inject_Z cw)
      with (inject_Z cw / inject_Z ch * inject_Z H * inject_Z ch) by (field; lra).
    setoid_replace (inject_Z V * inject_Z ch * (1 - u53))
      with (inject_Z V * (1 - u53) * inject_Z ch) by ring.
    apply Qmult_le_compat_r; lra. }
  assert (U : inject_Z V * inject_Z ch * u53 < 1).
  { apply Qlt_le_trans with (pow2 52 * u53).
    - apply Qmult_lt_compat_r; [apply pow2_pos | exact I2].
    - unfold u53. rewrite <- pow2_add. apply Qlt_le_weak. reflexivity. }
  lra.
Qed.

Lemma eps54_pow2 : pow2 (-54) == eps54.
Proof. reflexivity. Qed.

Lemma u53_value : u53 == 1 # 9007199254740992.
Proof. reflexivity. Qed.

(** The binary64 number nearest to 720/405 = 16/9 lies just below it. *)
Lemma ratio_16_9 :
  round53 (round53 (inject_Z 720) / round53 (inject_Z 405)) == (16 # 9) * (1 - eps54).
Proof. vm_compute. reflexivity. Qed.

Lemma significand_of (z : Z) :
  (0 < z < 2 ^ 53)%Z ->
  let k := (Z.log2 z - 52)%Z in
  let m := (z * 2 ^ (- k))%Z in
  (2 ^ 52 <= m < 2 ^ 53)%Z /\ inject_Z z == inject_Z m * pow2 k.
Proof.
  intros [Z0 Z1] k m.
  destruct (Z.log2_spec z Z0) as [L1 L2].
  assert (Hl : (0 <= Z.log2 z)%Z) by apply Z.log2_nonneg.
  assert (Hl' : (Z.log2 z < 53)%Z) by (apply Z.log2_lt_pow2; lia).
  assert (Hk : (0 <= - k)%Z) by (unfold k; lia).
  assert (P : (0 < 2 ^ (- k))%Z) by (apply Z.pow_pos_nonneg; lia).
  split; [split|].
  - replace (2 ^ 52)%Z with (2 ^ Z.log2 z * 2 ^ (- k))%Z
      by (rewrite <- Z.pow_add_r by lia; f_equal; unfold k; lia).
    unfold m. nia.
  - replace (2 ^ 53)%Z with (2 ^ Z.succ (Z.log2 z) * 2 ^ (- k))%Z
      by (rewrite <- Z.pow_add_r by lia; f_equal; unfold k; lia).
    unfold m. nia.
  - unfold m. rewrite inject_Z_mult, <- pow2_Z by exact Hk.
    rewrite <- Qmult_assoc, <- pow2_add. replace (- k + k)%Z with 0%Z by lia.
    rewrite pow2_0. ring.
Qed.

(** A number just above a binary64 integer rounds down to it. *)
Lemma round53_just_above (z : Z) (x : Q) :
  (0 < z < 2 ^ 53)%Z -> inject_Z z <= x -> x * (1 - eps54) <= inject_Z z ->
  round53 x == inject_Z z.
Proof.
  intros Hz Hx Hup.
  destruct (significand_of z Hz) as [[M1 M2] E].
  set (k := (Z.log2 z - 52)%Z) in *. set (m := (z * 2 ^ (- k))%Z) in *.
  rewrite E. apply round53_nearest; [lia | rewrite <- E; exact Hx |].
  assert (M3 : (m <= 2 ^ 53 - 1)%Z) by lia.
  rewrite Zle_Qle in M3.
  pose proof (pow2_pos k) as P.
  assert (Hk : pow2 (k - 1) == (1 # 2) * pow2 k).
  { replace k with ((k - 1) + 1)%Z at 2 by lia. rewrite pow2_succ. field. }
  assert (B : inject_Z m * pow2 k <= inject_Z (2 ^ 53 - 1) * pow2 k)
    by (apply Qmult_le_compat_r; lra).
  rewrite <- E, Hk.
  change (inject_Z (2 ^ 53 - 1)) with (9007199254740991 # 1) in B.
  rewrite <- E in B. unfold eps54 in Hup.
  revert Hx Hup B P. generalize (inject_Z z) (pow2 k). intros t p Hx Hup B P. lra.
Qed.

(** Second branch for the 16:9 target, whose ratio is not a binary64
    number. *)
Lemma taller_height_fits_16_9 (V H : Z) :
  (0 < V < 2 ^ 32)%Z -> (0 < H < 2 ^ 32)%Z ->
  round53 (inject_Z V / inject_Z H) <= (16 # 9) * (1 - eps54) ->
  round53 (inject_Z V / ((16 # 9) * (1 - eps54))) <= inject_Z H.
Proof.
  intros HV HH Hle.
  pose proof (inject_pos V (proj1 HV)) as PV. pose proof (inject_pos H (proj1 HH)) as PH.
  assert (BV : inject_Z V < 4294967296 # 1).
  { change (4294967296 # 1) with (inject_Z (2 ^ 32)). rewrite <- Zlt_Qlt. lia. }
  assert (BH : inject_Z H < 4294967296 # 1).
  { change (4294967296 # 1) with (inject_Z (2 ^ 32)). rewrite <- Zlt_Qlt. lia. }
  assert (RH : representable (inject_Z H)) by (apply size_exact; lia).
  set (c := (16 # 9) * (1 - eps54)) in *.
  assert (Pc : 0 < c) by (unfold c, eps54; lra).
  destruct (Qlt_le_dec c (inject_Z V / inject_Z H)) as [Habove | Hbelow].
  - assert (A1 : c * inject_Z H < inject_Z V).
    { apply Qmult_lt_r with (/ inject_Z H); [apply Qinv_lt_0_compat, PH|].
      setoid_replace (c * inject_Z H * / inject_Z H) with c by (field; lra).
      exact Habove. }
    assert (NQ : 0 <= inject_Z V / inject_Z H) by (apply Qle_shift_div_l; lra).
    pose proof (round53_lower _ NQ) as L.
    assert (A2 : inject_Z V * (1 - u53) <= c * inject_Z H).
    { apply Qle_trans with (inject_Z V / inject_Z H * (1 - u53) * inject_Z H).
      - setoid_replace (inject_Z V / inject_Z H * (1 - u53) * inject_Z H)
          with (inject_Z V * (1 - u53)) by (field; lra). apply Qle_refl.
      - apply Qmult_le_compat_r; lra. }
    pose proof A1 as A1'.
    rewrite u53_value in A2. unfold c, eps54 in A1, A2.
    assert (D : (9 * V = 16 * H)%Z).
    { assert (D1 : (16 * H < 9 * V + 1)%Z).
      { rewrite Zlt_Qlt. rewrite inject_Z_plus, !inject_Z_mult.
        change (inject_Z 16) with (16 # 1). change (inject_Z 9) with (9 # 1).
        change (inject_Z 1) with 1. lra. }
      assert (D2 : (9 * V < 16 * H + 1)%Z).
      { rewrite Zlt_Qlt. rewrite inject_Z_plus, !inject_Z_mult.
        change (inject_Z 16) with (16 # 1). change (inject_Z 9) with (9 # 1).
        change (inject_Z 1) with 1. lra. }
      lia. }
    assert (DQ : (9 # 1) * inject_Z V == (16 # 1) * inject_Z H).
    { change (9 # 1) with (inject_Z 9). change (16 # 1) with (inject_Z 16).
      rewrite <- !inject_Z_mult, D. reflexivity. }
    assert (X : inject_Z V / c * (1 - eps54) == inject_Z H).
    { unfold c. setoid_replace (inject_Z V / ((16 # 9) * (1 - eps54)) * (1 - eps54))
        with ((9 # 1) * inject_Z V / (16 # 1)) by (unfold eps54; field).
      rewrite DQ. field. }
    rewrite (round53_just_above H (inject_Z V / c)).
    + apply Qle_refl.
    + lia.
    + apply Qle_shift_div_l; [exact Pc|]. rewrite Qmult_comm. apply Qlt_le_weak, A1'.
    + rewrite X. apply Qle_refl.
  - apply round53_below; [|exact RH].
    apply Qle_shift_div_r; [exact Pc|].
    apply Qmult_le_r with (/ inject_Z H); [apply Qinv_lt_0_compat, PH|].
    setoid_replace (inject_Z H * c * / inject_Z H) with c by (field; lra).
    exact Hbelow.
Qed.

Lemma tol_value : pow2 (-51) == 4 * u53.
Proof. reflexivity. Qed.

Lemma within_tolerance (q x : Q) :
  0 <= q -> q * (1 - u53) * (1 - u53) <= x -> x <= q * (1 + u53) * (1 + u53) ->
  Qabs (x - q) <= q * pow2 (-51).
Proof.
  intros Hq L U. rewrite tol_value. destruct u53_small as [U0 U1].
  revert L U U0 U1. generalize u53. intros u L U U0 U1.
  apply Qabs_Qle_condition.
  assert (P1 : 0 <= q * u) by (apply Qmult_le_0_compat; lra).
  assert (P2 : 0 <= q * u * u) by (apply Qmult_le_0_compat; lra).
  assert (P3 : q * u * u <= q * u * (1 # 4)).
  { rewrite (Qmult_comm (q * u) u), (Qmult_comm (q * u) (1 # 4)).
    apply Qmult_le_compat_r; lra. }
  setoid_replace (q * (1 - u) * (1 - u)) with (q - 2 * (q * u) + q * u * u) in L by ring.
  setoid_replace (q * (1 + u) * (1 + u)) with (q + 2 * (q * u) + q * u * u) in U by ring.
  setoid_replace (q * (4 * u)) with (4 * (q * u)) by ring.
  revert P1 P2 P3 L U. generalize (q * u * u) (q * u). intros a b P1 P2 P3 L U.
  split; lra.
Qed.

(** The ratio of the second branch: the width over a height obtained by
    dividing by the rounded ratio. *)
Lemma quotient_within_tolerance (q c V Hh : Q) :
  0 < q -> 0 < V ->
  q * (1 - u53) <= c -> c <= q * (1 + u53) ->
  V / c * (1 - u53) <= Hh -> Hh <= V / c * (1 + u53) ->
  0 < Hh /\ Qabs (V / Hh - q) <= q * pow2 (-51).
Proof.
  intros Hq HV C1 C2 H1 H2. rewrite tol_value. destruct u53_small as [U0 U1].
  revert C1 C2 H1 H2 U0 U1. generalize u53. intros u C1 C2 H1 H2 U0 U1.
  assert (Pc : 0 < c).
  { apply Qlt_le_trans with (q * (1 - u)); [|exact C1]. apply Qmult_lt_0_compat; lra. }
  assert (Pvc : 0 < V / c) by (apply Qlt_shift_div_l; lra).
  assert (PH : 0 < Hh).
  { apply Qlt_le_trans with (V / c * (1 - u)); [|exact H1]. apply Qmult_lt_0_compat; lra. }
  split; [exact PH|].
  assert (Pqu : 0 < q * u) by (apply Qmult_lt_0_compat; lra).
  assert (Pquu : 0 < q * u * u) by (apply Qmult_lt_0_compat; lra).
  assert (Pquu' : q * u * u <= q * u * (1 # 4)).
  { rewrite (Qmult_comm (q * u) u), (Qmult_comm (q * u) (1 # 4)).
    apply Qmult_le_compat_r; lra. }
  apply Qabs_Qle_condition. split.
  - (* q (1 - 4u) <= V / Hh *)
    assert (G : q * (1 - 4 * u) <= V / Hh); [|lra].
    apply Qle_shift_div_l; [exact PH|].
    apply Qle_trans with (q * (1 - 4 * u) * (V / c * (1 + u))).
    + rewrite !(Qmult_comm (q * (1 - 4 * u))). apply Qmult_le_compat_r; [exact H2|].
      apply Qmult_le_0_compat; lra.
    + (* q (1-4u)(1+u) <= c *)
      setoid_replace (q * (1 - 4 * u) * (V / c * (1 + u)))
        with (q * (1 - 4 * u) * (1 + u) * (V / c)) by ring.
      setoid_replace V with (c * (V / c)) at 2 by (field; lra).
      apply Qmult_le_compat_r; [|lra].
      apply Qle_trans with (q * (1 - u)); [|exact C1].
      setoid_replace (q * (1 - 4 * u) * (1 + u)) with (q - 3 * (q * u) - 4 * (q * u * u)) by ring.
      setoid_replace (q * (1 - u)) with (q - q * u) by ring.
      lra.
  - assert (G : V / Hh <= q * (1 + 4 * u)); [|lra].
    apply Qle_shift_div_r; [exact PH|].
    apply Qle_trans with (q * (1 + 4 * u) * (V / c * (1 - u))).
    + setoid_replace (q * (1 + 4 * u) * (V / c * (1 - u)))
        with (q * (1 + 4 * u) * (1 - u) * (V / c)) by ring.
      setoid_replace V with (c * (V / c)) at 1 by (field; lra).
      apply Qmult_le_compat_r; [|lra].
      apply Qle_trans with (q * (1 + u)); [exact C2|].
      setoid_replace (q * (1 + 4 * u) * (1 - u)) with (q + 3 * (q * u) - 4 * (q * u * u)) by ring.
      setoid_replace (q * (1 + u)) with (q + q * u) by ring.
      lra.
    + rewrite !(Qmult_comm (q * (1 + 4 * u))). apply Qmult_le_compat_r; [exact H1|].
      apply Qmult_le_0_compat; lra.
Qed.

Lemma round53_0 : round53 (inject_Z 0) = 0.
Proof. reflexivity. Qed.

Lemma Qabs_zero_offset (h : Q) : Qabs (0 - (h - h) / 2) <= (h - h) / 2 * pow2 (-51).
Proof.
  setoid_replace (0 - (h - h) / 2) with 0 by field.
  setoid_replace ((h - h) / 2 * pow2 (-51)) with 0 by (rewrite tol_value; field).
  apply Qle_refl.
Qed.

Section Fits.

Variables vw vh cw ch : Z.
Hypothesis Hvw : (0 < vw < 2 ^ 32)%Z.
Hypothesis Hvh : (0 < vh < 2 ^ 32)%Z.
Hypothesis Hcw : (0 < cw < 2 ^ 32)%Z.
Hypothesis Hch : (0 < ch < 2 ^ 32)%Z.
Hypothesis taller :
  round53 (inject_Z vw / inject_Z vh) <= round53 (inject_Z cw / inject_Z ch) ->
  round53 (inject_Z vw / round53 (inject_Z cw / inject_Z ch)) <= inject_Z vh.

Lemma crop_fits_when :
  let r := crop (T:=B64) vw vh cw ch in
  in_source vw vh r = true /\ centered vw vh cw ch r = true /\ fits vw vh cw ch r.
Proof.
  pose proof (inject_pos vw (proj1 Hvw)) as PV. pose proof (inject_pos vh (proj1 Hvh)) as PH.
  pose proof (inject_pos cw (proj1 Hcw)) as Pcw. pose proof (inject_pos ch (proj1 Hch)) as Pch.
  assert (EV : round53 (inject_Z vw) == inject_Z vw) by (apply size_exact; lia).
  assert (EH : round53 (inject_Z vh) == inject_Z vh) by (apply size_exact; lia).
  assert (Ecw : round53 (inject_Z cw) == inject_Z cw) by (apply size_exact; lia).
  assert (Ech : round53 (inject_Z ch) == inject_Z ch) by (apply size_exact; lia).
  assert (Pq : 0 < inject_Z cw / inject_Z ch) by (apply Qlt_shift_div_l; lra).
  pose proof (round53_lower _ (Qlt_le_weak _ _ Pq)) as C1.
  pose proof (round53_upper _ (Qlt_le_weak _ _ Pq)) as C2.
  assert (Rc : representable (round53 (inject_Z cw / inject_Z ch))) by apply round53_idem.
  assert (Pc : 0 < round53 (inject_Z cw / inject_Z ch)) by (apply round53_sign, Pq).
  cbv zeta. unfold in_source, centered, fits, crop, vRatio, cRatio.
  cbn [ofZ ndiv nsub nmul nadd ngtb nleb neqb Num_B64 value].
  rewrite round53_0. change (inject_Z 2) with 2.
  assert (Cond : Qle_bool (round53 (round53 (inject_Z vw) / round53 (inject_Z vh)))
                   (round53 (round53 (inject_Z cw) / round53 (inject_Z ch)))
                 = Qle_bool (round53 (inject_Z vw / inject_Z vh))
                     (round53 (inject_Z cw / inject_Z ch))).
  { rewrite EV, EH, Ecw, Ech. reflexivity. }
  rewrite Cond. clear Cond.
  destruct (Qle_bool (round53 (inject_Z vw / inject_Z vh))
              (round53 (inject_Z cw / inject_Z ch))) eqn:Hcmp;
    cbn [negb sx sy sWidth sHeight value].
  - (* the source is not wider than the target: full width *)
    apply Qle_bool_iff in Hcmp. specialize (taller Hcmp).
    rewrite !Qeq_bool_refl.
    rewrite !EV, !EH, !Ecw, !Ech.
    set (c := round53 (inject_Z cw / inject_Z ch)) in *.
    set (Hh := round53 (inject_Z vw / c)) in *.
    assert (NV : 0 <= inject_Z vw / c) by (apply Qle_shift_div_l; lra).
    pose proof (round53_lower _ NV) as H1. pose proof (round53_upper _ NV) as H2.
    fold Hh in H1, H2.
    destruct (quotient_within_tolerance _ c (inject_Z vw) Hh Pq PV C1 C2 H1 H2) as [PHh Tol].
    destruct (centred_offset_fits (inject_Z vh) Hh (size_exact vh ltac:(lia)) taller)
      as [S0 [S1 [S2 [S3 S4]]]].
    set (s := round53 (round53 (inject_Z vh - Hh) / round53 2)) in *.
    assert (B0 : Qle_bool 0 0 = true) by reflexivity.
    assert (B1 : Qle_bool 0 s = true) by (apply Qle_bool_iff, S0).
    assert (B2 : Qle_bool (round53 (0 + inject_Z vw)) (inject_Z vw) = true).
    { apply Qle_bool_iff. rewrite Qplus_0_l, EV. apply Qle_refl. }
    assert (B3 : Qle_bool (round53 (s + Hh)) (inject_Z vh) = true) by (apply Qle_bool_iff, S2).
    rewrite B0, B1, B2, B3. clearbody s Hh c.
    assert (Hd : 0 <= (inject_Z vh - Hh) / 2) by (apply Qle_shift_div_l; lra).
    repeat match goal with |- _ /\ _ => split end;
      try reflexivity; try assumption; try lra.
    + apply Qabs_zero_offset.
    + apply within_tolerance; [lra | exact S3 | exact S4].
  - (* the source is wider: full height *)
    assert (Hgt : round53 (inject_Z cw / inject_Z ch) < round53 (inject_Z vw / inject_Z vh)).
    { apply Qnot_le_lt. intro Hle. apply Qle_bool_iff in Hle. congruence. }
    rewrite !Qeq_bool_refl.
    rewrite !EV, !EH, !Ecw, !Ech.
    set (c := round53 (inject_Z cw / inject_Z ch)) in *.
    set (W := round53 (inject_Z vh * c)) in *.
    assert (HW : W <= inject_Z vw).
    { apply wider_width_fits; [apply size_exact; lia | exact Rc | exact PH | exact Hgt]. }
    assert (NW : 0 <= inject_Z vh * c) by (apply Qmult_le_0_compat; lra).
    pose proof (round53_lower _ NW) as W1. pose proof (round53_upper _ NW) as W2.
    fold W in W1, W2.
    assert (PW : 0 < W) by (apply round53_sign, Qmult_lt_0_compat; lra).
    destruct (centred_offset_fits (inject_Z vw) W (size_exact vw ltac:(lia)) HW)
      as [S0 [S1 [S2 [S3 S4]]]].
    set (s := round53 (round53 (inject_Z vw - W) / round53 2)) in *.
    assert (B0 : Qle_bool 0 0 = true) by reflexivity.
    assert (B1 : Qle_bool 0 s = true) by (apply Qle_bool_iff, S0).
    assert (B2 : Qle_bool (round53 (s + W)) (inject_Z vw) = true) by (apply Qle_bool_iff, S2).
    assert (B3 : Qle_bool (round53 (0 + inject_Z vh)) (inject_Z vh) = true).
    { apply Qle_bool_iff. rewrite Qplus_0_l, EH. apply Qle_refl. }
    rewrite B0, B1, B2, B3. clearbody s W c.
    assert (Hd : 0 <= (inject_Z vw - W) / 2) by (apply Qle_shift_div_l; lra).
    repeat match goal with |- _ /\ _ => split end;
      try reflexivity; try assumption; try lra.
    + (* ratio *)
      apply within_tolerance; [lra | |].
      * apply Qle_shift_div_l; [exact PH|].
        apply Qle_trans with (inject_Z vh * c * (1 - u53)); [|exact W1].
        destruct u53_small as [U0 U1].
        setoid_replace (inject_Z cw / inject_Z ch * (1 - u53) * (1 - u53) * inject_Z vh)
          with (inject_Z vh * (inject_Z cw / inject_Z ch * (1 - u53)) * (1 - u53)) by ring.
        apply Qmult_le_compat_r; [|lra].
        rewrite !(Qmult_comm (inject_Z vh)). apply Qmult_le_compat_r; lra.
      * apply Qle_shift_div_r; [exact PH|].
        apply Qle_trans with (inject_Z vh * c * (1 + u53)); [exact W2|].
        destruct u53_small as [U0 U1].
        setoid_replace (inject_Z cw / inject_Z ch * (1 + u53) * (1 + u53) * inject_Z vh)
          with (inject_Z vh * (inject_Z cw / inject_Z ch * (1 + u53)) * (1 + u53)) by ring.
        apply Qmult_le_compat_r; [|lra].
        rewrite !(Qmult_comm (inject_Z vh)). apply Qmult_le_compat_r; lra.
    + apply within_tolerance; [lra | exact S3 | exact S4].
    + apply Qabs_zero_offset.
Qed.

End Fits.

Lemma taller_exact (vw vh cw ch : Z) :
  (0 < vw < 2 ^ 32)%Z -> (0 < vh < 2 ^ 32)%Z -> (0 < cw)%Z -> (0 < ch <= 2 ^ 20)%Z ->
  round53 (inject_Z cw / inject_Z ch) == inject_Z cw / inject_Z ch ->
  round53 (inject_Z vw / inject_Z vh) <= round53 (inject_Z cw / inject_Z ch) ->
  round53 (inject_Z vw / round53 (inject_Z cw / inject_Z ch)) <= inject_Z vh.
Proof.
  intros Hvw Hvh Hcw Hch E Hle.
  apply round53_below; [|apply size_exact; lia].
  apply (taller_height_fits vw vh cw ch); try assumption; lia.
Qed.

(** The rounded computation: for every configured target and every source
    with sides below 2^32 the rectangle lies inside the source, also by the
    rounded sums and the comparisons of [in_source]. *)
Lemma crop_rounded_within_source (a : AspectRatio) (vw vh : Z) :
  (0 < vw < 2 ^ 32)%Z -> (0 < vh < 2 ^ 32)%Z ->
  let config := ASPECT_RATIO_CONFIGS a in
  let r := crop_for (T:=B64) a vw vh in
  in_source vw vh r = true /\
  centered vw vh (width config) (height config) r = true /\
  fits vw vh (width config) (height config) r.
Proof.
  intros Hvw Hvh. cbv zeta. unfold crop_for.
  destruct a; cbn [ASPECT_RATIO_CONFIGS width height].
  - apply crop_fits_when; try assumption; try lia.
    apply taller_exact; try assumption; try lia. vm_compute. reflexivity.
  - apply crop_fits_when; try assumption; try lia.
    assert (E : round53 (inject_Z 720 / inject_Z 405) == (16 # 9) * (1 - eps54))
      by (vm_compute; reflexivity).
    rewrite E. apply taller_height_fits_16_9; assumption.
  - apply crop_fits_when; try assumption; try lia.
    apply taller_exact; try assumption; try lia. vm_compute. reflexivity.
  - apply crop_fits_when; try assumption; try lia.
    apply taller_exact; try assumption; try lia. vm_compute. reflexivity.
Qed.

(** *** The primitive floats round as [round53] does *)

(** **** Digits *)

Lemma digits2_pos_spec (p : positive) :
  (2 ^ (Zpos (digits2_pos p) - 1) <= Zpos p < 2 ^ Zpos (digits2_pos p))%Z.
Proof.
  induction p as [p IH | p IH |]; cbn [digits2_pos].
  - rewrite Pos2Z.inj_succ. replace (Z.succ (Zpos (digits2_pos p)) - 1)%Z with (Z.succ (Zpos (digits2_pos p) - 1)) by lia.
    rewrite !Z.pow_succ_r by lia. lia.
  - rewrite Pos2Z.inj_succ. replace (Z.succ (Zpos (digits2_pos p)) - 1)%Z with (Z.succ (Zpos (digits2_pos p) - 1)) by lia.
    rewrite !Z.pow_succ_r by lia. lia.
  - cbn. lia.
Qed.

Lemma digits2_pos_unique (p : positive) (k : Z) :
  (2 ^ (k - 1) <= Zpos p < 2 ^ k)%Z -> Zpos (digits2_pos p) = k.
Proof.
  intros [L U]. pose proof (digits2_pos_spec p) as [L' U'].
  set (d := Zpos (digits2_pos p)) in *.
  assert (Hd : (0 < d)%Z) by (unfold d; lia).
  assert (Hk : (0 < k)%Z).
  { destruct (Z_lt_le_dec 0 k) as [H|H]; [exact H|].
    exfalso. destruct (Z.eq_dec k 0) as [->|N]; [cbn in U; lia|].
    rewrite Z.pow_neg_r in U by lia. lia. }
  assert (A : (d - 1 < k)%Z).
  { apply (Z.pow_lt_mono_r_iff 2); lia. }
  assert (B : (k - 1 < d)%Z).
  { apply (Z.pow_lt_mono_r_iff 2); lia. }
  lia.
Qed.

(** **** Shifting right with round and sticky bits *)

Lemma inject_xO (p : positive) : inject_Z (Zpos p~0) == 2 * inject_Z (Zpos p).
Proof. rewrite Pos2Z.inj_xO, inject_Z_mult. reflexivity. Qed.

Lemma inject_xI (p : positive) : inject_Z (Zpos p~1) == 2 * inject_Z (Zpos p) + 1.
Proof. rewrite Pos2Z.inj_xI, inject_Z_plus, inject_Z_mult. reflexivity. Qed.

Lemma shr_1_located (t : Q) (mrs : shr_record) :
  located t mrs -> located (t / 2) (shr_1 mrs).
Proof.
  destruct mrs as [m r s]. unfold located. cbn [shr_m shr_r shr_s]. intros [Hm Hf].
  unfold Qdiv. change (/ 2) with (1 # 2).
  destruct m as [|p|p]; [| |lia].
  - cbn [shr_1 shr_m shr_r shr_s]. split; [lia|].
    change (inject_Z 0) with 0 in *.
    destruct r, s; cbn [orb frac_loc] in *; try split; lra.
  - destruct p as [p|p|]; cbn [shr_1 shr_m shr_r shr_s]; (split; [lia|]).
    + pose proof (inject_xI p) as E. destruct r, s; cbn [orb frac_loc] in *; try split; lra.
    + pose proof (inject_xO p) as E. destruct r, s; cbn [orb frac_loc] in *; try split; lra.
    + change (inject_Z 1) with 1 in Hf. change (inject_Z 0) with 0.
      destruct r, s; cbn [orb frac_loc] in *; try split; lra.
Qed.

Lemma located_comp (t u : Q) (mrs : shr_record) : t == u -> located t mrs -> located u mrs.
Proof.
  intros E [Hm Hf]. split; [exact Hm|].
  destruct (shr_r mrs), (shr_s mrs); cbn [frac_loc] in *; try split; lra.
Qed.

Lemma pow2_xO (p : positive) : pow2 (Zpos p~0) == pow2 (Zpos p) * pow2 (Zpos p).
Proof. rewrite <- pow2_add. rewrite Pos2Z.inj_xO. replace (2 * Zpos p)%Z with (Zpos p + Zpos p)%Z by lia. reflexivity. Qed.

Lemma pow2_xI (p : positive) : pow2 (Zpos p~1) == 2 * (pow2 (Zpos p) * pow2 (Zpos p)).
Proof.
  rewrite <- pow2_add, <- pow2_1, <- pow2_add. rewrite Pos2Z.inj_xI.
  replace (2 * Zpos p + 1)%Z with (1 + (Zpos p + Zpos p))%Z by lia. reflexivity.
Qed.

Lemma iter_shr_located (p : positive) :
  forall (t : Q) (mrs : shr_record),
    located t mrs -> located (t / pow2 (Zpos p)) (iter_pos shr_1 p mrs).
Proof.
  induction p as [p IH | p IH |]; intros t mrs H; cbn [iter_pos].
  - apply (located_comp (t / 2 / pow2 (Zpos p) / pow2 (Zpos p))).
    + rewrite pow2_xI. field. apply pow2_neq.
    + apply IH, IH, shr_1_located, H.
  - apply (located_comp (t / pow2 (Zpos p) / pow2 (Zpos p))).
    + rewrite pow2_xO. field. apply pow2_neq.
    + apply IH, IH, H.
  - apply (located_comp (t / 2)); [|apply shr_1_located, H].
    change (pow2 1) with (2 ^ 1). reflexivity.
Qed.

Lemma located_floor (t : Q) (mrs : shr_record) :
  located t mrs -> Qfloor t = shr_m mrs.
Proof.
  intros [Hm Hf]. apply Qfloor_unique;
    destruct (shr_r mrs), (shr_s mrs); cbn [frac_loc] in Hf; lra.
Qed.

Lemma located_rne (t : Q) (mrs : shr_record) :
  located t mrs ->
  round_nearest_even (shr_m mrs) (loc_of_shr_record mrs) = rne t.
Proof.
  intros H. pose proof (located_floor t mrs H) as F. destruct H as [Hm Hf].
  unfold rne. rewrite F. destruct mrs as [m r s]. cbn [shr_m shr_r shr_s] in *.
  destruct (Qcompare_spec (t - inject_Z m) (1 # 2)) as [E | L | G];
    destruct r, s; cbn [frac_loc loc_of_shr_record round_nearest_even] in *;
    try reflexivity; try lra.
Qed.

Lemma located_exact (m : Z) : (0 <= m)%Z -> located (inject_Z m) (shr_record_of_loc m loc_Exact).
Proof. intros H. split; [exact H|]. cbn. ring. Qed.

Lemma fexp_normal (e : Z) : (-1074 <= e - 53)%Z -> fexp prec emax e = (e - 53)%Z.
Proof. intros H. unfold fexp, emin, prec, emax. lia. Qed.

(** The first step of every rounding: shift right until 53 digits are
    left. *)
Lemma shr_fexp_normal (m : positive) (e : Z) (l : location) (t : Q) :
  located t (shr_record_of_loc (Zpos m) l) ->
  (53 <= Zpos (digits2_pos m))%Z -> (-1074 <= Zpos (digits2_pos m) + e - 53)%Z ->
  exists mrs,
    shr_fexp prec emax (Zpos m) e l = (mrs, (Zpos (digits2_pos m) + e - 53)%Z) /\
    located (t / pow2 (Zpos (digits2_pos m) - 53)) mrs.
Proof.
  intros H Hd He. unfold shr_fexp. cbn [Zdigits2].
  rewrite fexp_normal by lia. set (d := Zpos (digits2_pos m)) in *.
  replace (d + e - 53 - e)%Z with (d - 53)%Z by lia.
  destruct (d - 53)%Z as [|p|p] eqn:En; [| |lia].
  - exists (shr_record_of_loc (Zpos m) l). split.
    + unfold shr. f_equal. lia.
    + apply (located_comp t); [|exact H]. rewrite pow2_0. field.
  - exists (iter_pos shr_1 p (shr_record_of_loc (Zpos m) l)). split.
    + unfold shr. f_equal. lia.
    + apply iter_shr_located, H.
Qed.

Lemma located_bounds (t : Q) (m : positive) (l : location) :
  located t (shr_record_of_loc (Zpos m) l) ->
  inject_Z (Zpos m) <= t /\ t < inject_Z (Zpos m) + 1.
Proof.
  intros H. pose proof (located_floor _ _ H) as F.
  assert (E : shr_m (shr_record_of_loc (Zpos m) l) = Zpos m) by (destruct l as [|[]]; reflexivity).
  rewrite E in F. rewrite <- F. apply floor_bounds.
Qed.

Lemma inject_pow2_bounds (m : positive) :
  pow2 (Zpos (digits2_pos m) - 1) <= inject_Z (Zpos m) /\
  inject_Z (Zpos m) + 1 <= pow2 (Zpos (digits2_pos m)).
Proof.
  destruct (digits2_pos_spec m) as [L U].
  assert (U' : (Zpos m + 1 <= 2 ^ Zpos (digits2_pos m))%Z) by lia.
  rewrite Zle_Qle in L, U'. rewrite inject_Z_plus in U'.
  rewrite <- !pow2_Z in * by lia. split; assumption.
Qed.

Lemma binary_round_aux_correct (sx : bool) (mx : positive) (ex : Z) (lx : location) (t : Q) :
  located t (shr_record_of_loc (Zpos mx) lx) ->
  (53 <= Zpos (digits2_pos mx))%Z ->
  (-1074 <= Zpos (digits2_pos mx) + ex - 53)%Z ->
  (Zpos (digits2_pos mx) + ex - 53 + 1 <= 971)%Z ->
  exists m e,
    binary_round_aux prec emax sx (Zpos mx) ex lx = S754_finite sx m e /\
    Zpos (digits2_pos m) = 53%Z /\
    (Zpos (digits2_pos mx) + ex - 53 <= e <= Zpos (digits2_pos mx) + ex - 53 + 1)%Z /\
    inject_Z (Zpos m) * pow2 e == round_pos (t * pow2 ex).
Proof.
  intros H Hd Hlo Hhi.
  destruct (shr_fexp_normal mx ex lx t H Hd Hlo) as (mrs & E1 & L1).
  set (d := Zpos (digits2_pos mx)) in *. set (e1 := (d + ex - 53)%Z) in *.
  set (t1 := t / pow2 (d - 53)) in *.
  (* the shifted significand lies in [2^52, 2^53) *)
  destruct (located_bounds t mx lx H) as [B1 B2].
  destruct (inject_pow2_bounds mx) as [P1 P2]. fold d in P1, P2.
  assert (T1 : pow2 52 <= t1).
  { unfold t1. setoid_replace (pow2 52) with (pow2 (d - 1) / pow2 (d - 53)).
    - apply scaled_le. lra.
    - rewrite pow2_div. replace (d - 1 - (d - 53))%Z with 52%Z by lia. reflexivity. }
  assert (T2 : t1 < pow2 53).
  { unfold t1. setoid_replace (pow2 53) with (pow2 d / pow2 (d - 53)).
    - apply scaled_lt. lra.
    - rewrite pow2_div. replace (d - (d - 53))%Z with 53%Z by lia. reflexivity. }
  (* the value being rounded, and its binade *)
  assert (X : t * pow2 ex == t1 * pow2 e1).
  { unfold t1, e1. replace (d + ex - 53)%Z with ((d - 53) + ex)%Z by lia.
    rewrite pow2_add. field. apply pow2_neq. }
  assert (X1 : pow2 (e1 + 52) <= t * pow2 ex).
  { rewrite X, pow2_add, (Qmult_comm (pow2 e1)). apply Qmult_le_compat_r; [exact T1|].
    apply Qlt_le_weak, pow2_pos. }
  assert (X2 : t * pow2 ex < pow2 (e1 + 52 + 1)).
  { rewrite X. replace (e1 + 52 + 1)%Z with (53 + e1)%Z by lia.
    rewrite pow2_add. apply Qmult_lt_compat_r; [apply pow2_pos | exact T2]. }
  pose proof (round_pos_at _ _ X1 X2) as R.
  replace (e1 + 52 - 52)%Z with e1 in R by lia.
  assert (Rt : rne (t * pow2 ex / pow2 e1) = rne t1).
  { apply rne_comp. rewrite X. field. apply pow2_neq. }
  rewrite Rt in R.
  pose proof (located_rne t1 mrs L1) as N.
  assert (M1 : (2 ^ 52 <= rne t1)%Z).
  { rewrite <- (rne_Z (2 ^ 52)). apply rne_mono. rewrite <- pow2_52. exact T1. }
  assert (M2 : (rne t1 <= 2 ^ 53)%Z).
  { rewrite <- (rne_Z (2 ^ 53)). apply rne_mono. rewrite <- pow2_53. lra. }
  unfold binary_round_aux. rewrite E1, N.
  destruct (rne t1) as [|p2|p2] eqn:Ep; [lia| |lia].
  destruct (Z.eq_dec (Zpos p2) (2 ^ 53)) as [Etop | Ntop].
  - (* the rounding carried into the next binade *)
    injection Etop as ->.
    assert (E2 : shr_fexp prec emax (Zpos 9007199254740992) e1 loc_Exact
                 = ({| shr_m := Zpos 4503599627370496; shr_r := false; shr_s := false |},
                    (e1 + 1)%Z)).
    { unfold shr_fexp. change (Zdigits2 (Zpos 9007199254740992)) with 54%Z.
      rewrite fexp_normal by (unfold e1; lia).
      replace (54 + e1 - 53 - e1)%Z with 1%Z by lia. reflexivity. }
    rewrite E2. cbn [shr_m].
    assert (Hle : (e1 + 1 <=? emax - prec)%Z = true)
      by (apply Z.leb_le; unfold emax, prec, e1; lia).
    rewrite Hle. exists 4503599627370496%positive, (e1 + 1)%Z.
    split; [reflexivity|]. split; [reflexivity|]. split; [lia|].
    rewrite R, pow2_add, pow2_1.
    change (inject_Z (Zpos 9007199254740992)) with (2 * inject_Z (Zpos 4503599627370496)).
    ring.
  - assert (D2 : Zpos (digits2_pos p2) = 53%Z) by (apply digits2_pos_unique; lia).
    assert (E2 : shr_fexp prec emax (Zpos p2) e1 loc_Exact
                 = ({| shr_m := Zpos p2; shr_r := false; shr_s := false |}, e1)).
    { unfold shr_fexp. cbn [Zdigits2]. rewrite D2.
      rewrite fexp_normal by (unfold e1; lia).
      replace (53 + e1 - 53 - e1)%Z with 0%Z by lia. reflexivity. }
    rewrite E2. cbn [shr_m].
    assert (Hle : (e1 <=? emax - prec)%Z = true)
      by (apply Z.leb_le; unfold emax, prec, e1; lia).
    rewrite Hle. exists p2, e1.
    split; [reflexivity|]. split; [exact D2|]. split; [lia|].
    rewrite R. reflexivity.
Qed.

Lemma regular_nonneg (B : Z) (x : spec_float) : regular B x -> 0 <= SF2Q x.
Proof.
  destruct x as [s|s| |s m e]; cbn; try tauto; try (intros; apply Qle_refl).
  intros (-> & _ & _). apply Qmult_le_0_compat; [|apply Qlt_le_weak, pow2_pos].
  change 0 with (inject_Z 0). rewrite <- Zle_Qle. lia.
Qed.

Lemma regular_weaken (B B' : Z) (x : spec_float) : (B <= B')%Z -> regular B x -> regular B' x.
Proof.
  intros HB. destruct x as [s|s| |s m e]; cbn; try tauto.
  intros (-> & D & E). repeat split; try assumption; lia.
Qed.

Lemma regular_pos (B : Z) (x : spec_float) :
  regular B x -> 0 < SF2Q x ->
  exists m e, x = S754_finite false m e /\ Zpos (digits2_pos m) = 53%Z /\ (- B <= e <= B)%Z.
Proof.
  destruct x as [s|s| |s m e]; cbn; try tauto; try (intros _ H; lra).
  intros (-> & D & E) _. exists m, e. repeat split; try assumption; lia.
Qed.

Lemma regular_zero (B : Z) (x : spec_float) :
  regular B x -> SF2Q x == 0 -> x = S754_zero false.
Proof.
  destruct x as [s|s| |s m e]; cbn; try tauto.
  - intros -> _. reflexivity.
  - intros (-> & _ & _) H. exfalso.
    assert (P : 0 < inject_Z (Zpos m) * pow2 e).
    { apply Qmult_lt_0_compat; [|apply pow2_pos].
      change 0 with (inject_Z 0). rewrite <- Zlt_Qlt. lia. }
    lra.
Qed.

Lemma finite_pos (m : positive) (e : Z) : 0 < inject_Z (Zpos m) * pow2 e.
Proof.
  apply Qmult_lt_0_compat; [|apply pow2_pos].
  change 0 with (inject_Z 0). rewrite <- Zlt_Qlt. lia.
Qed.

Lemma digits_53_bounds (m : positive) :
  Zpos (digits2_pos m) = 53%Z -> (2 ^ 52 <= Zpos m < 2 ^ 53)%Z.
Proof. intros D. pose proof (digits2_pos_spec m) as H. rewrite D in H. exact H. Qed.

(** What [binary_round_aux] returns on a positive number of the normal
    range. *)
Lemma rounded_regular (mx : positive) (ex : Z) (lx : location) (t : Q) (lo hi : Z) :
  located t (shr_record_of_loc (Zpos mx) lx) ->
  (53 <= Zpos (digits2_pos mx))%Z ->
  (lo <= Zpos (digits2_pos mx) + ex <= hi)%Z -> (-1021 <= lo)%Z -> (hi <= 1023)%Z ->
  let r := binary_round_aux prec emax false (Zpos mx) ex lx in
  (exists m e, r = S754_finite false m e /\ Zpos (digits2_pos m) = 53%Z /\
               (lo - 53 <= e <= hi - 52)%Z) /\
  SF2Q r == round53 (t * pow2 ex).
Proof.
  intros H Hd [Hlo Hhi] Hl Hh r.
  destruct (binary_round_aux_correct false mx ex lx t H Hd) as (m & e & E & D & He & V);
    try lia.
  fold r in E. rewrite E. split.
  - exists m, e. repeat split; try assumption; lia.
  - cbn [SF2Q]. rewrite V. symmetry.
    rewrite round53_pos; [reflexivity|].
    destruct (located_bounds t mx lx H) as [B1 _].
    apply Qmult_lt_0_compat; [|apply pow2_pos].
    apply Qlt_le_trans with (inject_Z (Zpos mx)); [|exact B1].
    change 0 with (inject_Z 0). rewrite <- Zlt_Qlt. lia.
Qed.

(** **** Multiplication *)

Lemma SFmul_correct (B1 B2 : Z) (x y : spec_float) :
  regular B1 x -> regular B2 y -> (B1 + B2 <= 900)%Z ->
  regular (B1 + B2 + 54) (SF64mul x y) /\
  SF2Q (SF64mul x y) == round53 (SF2Q x * SF2Q y).
Proof.
  intros Rx Ry HB.
  destruct x as [sx|sx| |sx mx ex]; cbn in Rx; try tauto;
    destruct y as [sy|sy| |sy my ey]; cbn in Ry; try tauto.
  - subst. split; [reflexivity|].
    cbn [SF64mul SFmul SF2Q xorb]. rewrite round53_zero; [reflexivity | ring].
  - destruct Ry as (-> & _). subst. split; [reflexivity|].
    cbn [SF64mul SFmul SF2Q xorb]. rewrite round53_zero; [reflexivity | ring].
  - destruct Rx as (-> & _). subst. split; [reflexivity|].
    cbn [SF64mul SFmul SF2Q xorb]. rewrite round53_zero; [reflexivity | ring].
  - destruct Rx as (-> & Dx & Ex). destruct Ry as (-> & Dy & Ey).
    pose proof (digits_53_bounds mx Dx) as Bx. pose proof (digits_53_bounds my Dy) as By.
    unfold SF64mul, SFmul. cbn [xorb].
    assert (Hprod : (2 ^ 104 <= Zpos (mx * my) < 2 ^ 106)%Z).
    { rewrite Pos2Z.inj_mul. change (2 ^ 104)%Z with (2 ^ 52 * 2 ^ 52)%Z.
      change (2 ^ 106)%Z with (2 ^ 53 * 2 ^ 53)%Z. nia. }
    pose proof (digits2_pos_spec (mx * my)) as Hd.
    set (d := Zpos (digits2_pos (mx * my))) in *.
    assert (Hd1 : (104 < d)%Z) by (apply (Z.pow_lt_mono_r_iff 2); lia).
    assert (Hd2 : (d - 1 < 106)%Z) by (apply (Z.pow_lt_mono_r_iff 2); lia).
    destruct (rounded_regular (mx * my) (ex + ey) loc_Exact (inject_Z (Zpos (mx * my)))
                (105 + (ex + ey)) (106 + (ex + ey)))
      as [(m & e & E & D & He) V]; try (fold d; lia).
    { apply located_exact. lia. }
    rewrite E in *. split.
    + cbn. repeat split; try assumption; lia.
    + rewrite V. apply round53_comp. cbn [SF2Q].
      rewrite Pos2Z.inj_mul, inject_Z_mult, pow2_add. ring.
Qed.

(** **** Division *)

Lemma inject_Zpos_pos (p : positive) : 0 < inject_Z (Zpos p).
Proof. change 0 with (inject_Z 0). rewrite <- Zlt_Qlt. lia. Qed.

(** The location [SFdiv] computes from the remainder. *)
Lemma new_location_located (n q r : Z) :
  (0 < n)%Z -> (0 <= q)%Z -> (0 <= r < n)%Z ->
  located (inject_Z (n * q + r) / inject_Z n) (shr_record_of_loc q (new_location n r)).
Proof.
  intros Hn Hq Hr.
  assert (Pn : 0 < inject_Z n) by (change 0 with (inject_Z 0); rewrite <- Zlt_Qlt; lia).
  assert (F : inject_Z (n * q + r) / inject_Z n - inject_Z q == inject_Z r / inject_Z n).
  { rewrite inject_Z_plus, inject_Z_mult. field. lra. }
  assert (shape : forall l : location,
            shr_m (shr_record_of_loc q l) = q) by (intros [|[]]; reflexivity).
  split; [rewrite shape; exact Hq|]. rewrite shape.
  assert (Half : forall c, (2 * r ?= n)%Z = c ->
            match c with
            | Lt => inject_Z r / inject_Z n < 1 # 2
            | Eq => inject_Z r / inject_Z n == 1 # 2
            | Gt => (1 # 2) < inject_Z r / inject_Z n
            end).
  { intros c Hc. destruct c.
    - apply Z.compare_eq in Hc.
      assert (E : 2 * inject_Z r == inject_Z n)
        by (change 2 with (inject_Z 2); rewrite <- inject_Z_mult, Hc; reflexivity).
      rewrite <- E. field. rewrite <- E in Pn. lra.
    - rewrite Z.compare_lt_iff in Hc. rewrite Zlt_Qlt, inject_Z_mult in Hc.
      change (inject_Z 2) with 2 in Hc. apply Qlt_shift_div_r; lra.
    - rewrite Z.compare_gt_iff in Hc. rewrite Zlt_Qlt, inject_Z_mult in Hc.
      change (inject_Z 2) with 2 in Hc. apply Qlt_shift_div_l; lra. }
  assert (Below : inject_Z r / inject_Z n < 1).
  { apply Qlt_shift_div_r; [exact Pn|]. rewrite Qmult_1_l, <- Zlt_Qlt. lia. }
  assert (Pr : r <> 0%Z -> 0 < inject_Z r / inject_Z n).
  { intros Nr. apply Qlt_shift_div_l; [exact Pn|]. rewrite Qmult_0_l.
    change 0 with (inject_Z 0). rewrite <- Zlt_Qlt. lia. }
  assert (Zr : r = 0%Z -> inject_Z r / inject_Z n == 0).
  { intros ->. change (inject_Z 0) with 0. field. lra. }
  revert F Half Below Pr Zr. generalize (inject_Z r / inject_Z n).
  generalize (inject_Z (n * q + r) / inject_Z n - inject_Z q).
  intros g f F Half Below Pr Zr.
  unfold new_location.
  destruct (Z.even n) eqn:Ev; [unfold new_location_even | unfold new_location_odd];
    (destruct (Z.eqb_spec r 0) as [E0 | Nr];
     [specialize (Zr E0); cbn [frac_loc shr_record_of_loc shr_r shr_s]; lra
     | specialize (Pr Nr)]).
  - specialize (Half _ eq_refl).
    destruct (2 * r ?= n)%Z; cbn [frac_loc shr_record_of_loc shr_r shr_s];
      try split; lra.
  - assert (Odd : (2 * r <> n)%Z).
    { intros E. rewrite <- E, Z.even_mul in Ev. discriminate. }
    destruct (2 * r + 1 ?= n)%Z eqn:C.
    + apply Z.compare_eq in C.
      assert (L : (2 * r ?= n)%Z = Lt) by (apply Z.compare_lt_iff; lia).
      specialize (Half _ L). cbv beta iota in Half.
      cbn [frac_loc shr_record_of_loc shr_r shr_s].
      split; lra.
    + rewrite Z.compare_lt_iff in C.
      assert (L : (2 * r ?= n)%Z = Lt) by (apply Z.compare_lt_iff; lia).
      specialize (Half _ L). cbv beta iota in Half.
      cbn [frac_loc shr_record_of_loc shr_r shr_s].
      split; lra.
    + rewrite Z.compare_gt_iff in C.
      assert (L : (2 * r ?= n)%Z = Gt) by (apply Z.compare_gt_iff; lia).
      specialize (Half _ L). cbv beta iota in Half.
      cbn [frac_loc shr_record_of_loc shr_r shr_s].
      split; lra.
Qed.

Lemma SFdiv_correct (B1 B2 : Z) (x y : spec_float) :
  regular B1 x -> regular B2 y -> 0 < SF2Q y -> (B1 + B2 <= 900)%Z ->
  regular (B1 + B2 + 54) (SF64div x y) /\
  SF2Q (SF64div x y) == round53 (SF2Q x / SF2Q y).
Proof.
  intros Rx Ry Py HB.
  destruct (regular_pos _ _ Ry Py) as (my & ey & -> & Dy & Ey).
  destruct x as [sx|sx| |sx mx ex]; cbn in Rx; try tauto.
  - subst. split; [reflexivity|].
    cbn [SF64div SFdiv SF2Q xorb]. rewrite round53_zero; [reflexivity|].
    unfold Qdiv. ring.
  - destruct Rx as (-> & Dx & Ex).
    pose proof (digits_53_bounds mx Dx) as Bx. pose proof (digits_53_bounds my Dy) as By.
    unfold SF64div, SFdiv, SFdiv_core_binary. cbn [xorb Zdigits2].
    rewrite Dx, Dy.
    replace (53 + ex - (53 + ey))%Z with (ex - ey)%Z by lia.
    rewrite fexp_normal by lia.
    replace (Z.min (ex - ey - 53) (ex - ey)) with (ex - ey - 53)%Z by lia.
    replace (ex - ey - (ex - ey - 53))%Z with 53%Z by lia.
    rewrite Z.shiftl_mul_pow2 by lia.
    pose proof (Z_div_mod (Zpos mx * 2 ^ 53) (Zpos my) ltac:(lia)) as Hdm.
    destruct (Z.div_eucl (Zpos mx * 2 ^ 53) (Zpos my)) as [q r].
    destruct Hdm as [Hq Hr].
    assert (Q1 : (2 ^ 52 <= q)%Z) by nia.
    assert (Q2 : (q < 2 ^ 54)%Z) by nia.
    destruct q as [|pq|pq]; [lia| |lia].
    pose proof (digits2_pos_spec pq) as Hd.
    set (d := Zpos (digits2_pos pq)) in *.
    assert (Hd1 : (52 < d)%Z) by (apply (Z.pow_lt_mono_r_iff 2); lia).
    assert (Hd2 : (d - 1 < 54)%Z) by (apply (Z.pow_lt_mono_r_iff 2); lia).
    pose proof (new_location_located (Zpos my) (Zpos pq) r ltac:(lia) ltac:(lia) Hr) as L.
    rewrite <- Hq in L.
    destruct (rounded_regular pq (ex - ey - 53) (new_location (Zpos my) r) _
                (53 + (ex - ey - 53)) (54 + (ex - ey - 53)) L)
      as [(m & e & E & D & He) V]; try (fold d; lia).
    rewrite E in *. split.
    + cbn. repeat split; try assumption; lia.
    + rewrite V. apply round53_comp. cbn [SF2Q].
      rewrite inject_Z_mult, <- pow2_Z by lia.
      pose proof (inject_Zpos_pos my) as Pm.
      replace (ex - ey - 53)%Z with (ex + (- ey) + (- 53))%Z by lia.
      rewrite !pow2_add, !pow2_opp. change (pow2 (-53)) with (/ pow2 53).
      pose proof (pow2_neq ex) as N1. pose proof (pow2_neq ey) as N2.
      pose proof (pow2_neq 53) as N3.
      revert N1 N2 N3 Pm.
      generalize (pow2 ex) (pow2 ey) (pow2 53) (inject_Z (Zpos mx)) (inject_Z (Zpos my)).
      intros a b c u v N1 N2 N3 Pm. field. repeat split; try assumption. lra.
Qed.

(** **** Normalisation, addition and subtraction *)

Lemma iter_xO (m d : positive) : Zpos (Pos.iter xO m d) = (Zpos m * 2 ^ Zpos d)%Z.
Proof.
  induction d as [|d IH] using Pos.peano_ind.
  - cbn. lia.
  - rewrite Pos.iter_succ, Pos2Z.inj_xO, IH, Pos2Z.inj_succ, Z.pow_succ_r by lia. lia.
Qed.

Lemma shl_align_value (mx : positive) (ex ex' : Z) :
  (ex' <= ex)%Z ->
  snd (shl_align mx ex ex') = ex' /\
  Zpos (fst (shl_align mx ex ex')) = (Zpos mx * 2 ^ (ex - ex'))%Z.
Proof.
  intros H. unfold shl_align.
  destruct (ex' - ex)%Z as [|d|d] eqn:E; cbn [fst snd]; [| lia |].
  - replace (ex - ex')%Z with 0%Z by lia. split; lia.
  - rewrite iter_xO. replace (ex - ex')%Z with (Zpos d) by lia. split; reflexivity.
Qed.

Lemma shl_align_keep (mx : positive) (ex ex' : Z) :
  (ex <= ex')%Z -> shl_align mx ex ex' = (mx, ex).
Proof.
  intros H. unfold shl_align. destruct (ex' - ex)%Z as [|d|d] eqn:E; try reflexivity. lia.
Qed.

Lemma digits_shift (m : positive) (k : Z) (p : positive) :
  (0 <= k)%Z -> Zpos p = (Zpos m * 2 ^ k)%Z ->
  Zpos (digits2_pos p) = (Zpos (digits2_pos m) + k)%Z.
Proof.
  intros Hk E. apply digits2_pos_unique. rewrite E.
  destruct (digits2_pos_spec m) as [L U].
  assert (P : (0 < 2 ^ k)%Z) by (apply Z.pow_pos_nonneg; lia).
  replace (Zpos (digits2_pos m) + k - 1)%Z with ((Zpos (digits2_pos m) - 1) + k)%Z by lia.
  rewrite !Z.pow_add_r by lia. nia.
Qed.

Lemma normalize_correct (ps : positive) (ez lo hi : Z) :
  (lo <= Zpos (digits2_pos ps) + ez <= hi)%Z -> (-1021 <= lo)%Z -> (hi <= 1023)%Z ->
  let r := binary_normalize prec emax (Zpos ps) ez false in
  (exists m e, r = S754_finite false m e /\ Zpos (digits2_pos m) = 53%Z /\
               (lo - 53 <= e <= hi - 52)%Z) /\
  SF2Q r == round53 (inject_Z (Zpos ps) * pow2 ez).
Proof.
  intros Hr Hlo Hhi. cbv zeta. unfold binary_normalize, binary_round.
  set (d := Zpos (digits2_pos ps)) in *.
  rewrite fexp_normal by lia.
  destruct (Z_lt_le_dec (d + ez - 53) ez) as [Short | Long].
  - destruct (shl_align_value ps ez (d + ez - 53) ltac:(lia)) as [E1 E2].
    destruct (shl_align ps ez (d + ez - 53)) as [mz ez'] eqn:Es. cbn [fst snd] in *. subst ez'.
    replace (ez - (d + ez - 53))%Z with (53 - d)%Z in E2 by lia.
    pose proof (digits_shift ps (53 - d) mz ltac:(lia) E2) as Dz. fold d in Dz.
    destruct (rounded_regular mz (d + ez - 53) loc_Exact (inject_Z (Zpos mz)) lo hi)
      as [N V]; try lia.
    { apply located_exact. lia. }
    split; [exact N|]. rewrite V. apply round53_comp.
    rewrite E2, inject_Z_mult, <- pow2_Z by lia.
    rewrite <- Qmult_assoc, <- pow2_add. replace (53 - d + (d + ez - 53))%Z with ez by lia.
    reflexivity.
  - rewrite shl_align_keep by lia.
    destruct (rounded_regular ps ez loc_Exact (inject_Z (Zpos ps)) lo hi)
      as [N V]; try (fold d; lia).
    { apply located_exact. lia. }
    split; [exact N | exact V].
Qed.

(** The two significands brought to the smaller exponent. *)
Lemma aligned (mx my : positive) (ex ey : Z) :
  let ez := Z.min ex ey in
  inject_Z (Zpos (fst (shl_align mx ex ez))) * pow2 ez == inject_Z (Zpos mx) * pow2 ex /\
  inject_Z (Zpos (fst (shl_align my ey ez))) * pow2 ez == inject_Z (Zpos my) * pow2 ey.
Proof.
  cbv zeta. split.
  - destruct (shl_align_value mx ex (Z.min ex ey) ltac:(lia)) as [_ E].
    rewrite E, inject_Z_mult, <- pow2_Z by lia.
    rewrite <- Qmult_assoc, <- pow2_add.
    replace (ex - Z.min ex ey + Z.min ex ey)%Z with ex by lia. reflexivity.
  - destruct (shl_align_value my ey (Z.min ex ey) ltac:(lia)) as [_ E].
    rewrite E, inject_Z_mult, <- pow2_Z by lia.
    rewrite <- Qmult_assoc, <- pow2_add.
    replace (ey - Z.min ex ey + Z.min ex ey)%Z with ey by lia. reflexivity.
Qed.

(** An integer significand at exponent [ez] whose value is below
    [2^top] has at most [top - ez] digits. *)
Lemma digits_below (p : positive) (ez top : Z) :
  inject_Z (Zpos p) * pow2 ez < pow2 top -> (Zpos (digits2_pos p) + ez <= top)%Z.
Proof.
  intros H. destruct (inject_pow2_bounds p) as [L _].
  assert (A : pow2 (Zpos (digits2_pos p) - 1 + ez) < pow2 top).
  { rewrite pow2_add. apply Qle_lt_trans with (inject_Z (Zpos p) * pow2 ez); [|exact H].
    apply Qmult_le_compat_r; [exact L | apply Qlt_le_weak, pow2_pos]. }
  apply pow2_lt_inv in A. lia.
Qed.

Lemma finite_below (m : positive) (e : Z) :
  Zpos (digits2_pos m) = 53%Z -> inject_Z (Zpos m) * pow2 e < pow2 (53 + e).
Proof.
  intros D. destruct (inject_pow2_bounds m) as [_ U]. rewrite D in U.
  rewrite pow2_add. apply Qmult_lt_compat_r; [apply pow2_pos|]. lra.
Qed.

Lemma finite_representable (m : positive) (e : Z) :
  Zpos (digits2_pos m) = 53%Z ->
  round53 (inject_Z (Zpos m) * pow2 e) == inject_Z (Zpos m) * pow2 e.
Proof.
  intros D. rewrite round53_pos by apply finite_pos.
  destruct (inject_pow2_bounds m) as [L U]. rewrite D in L, U.
  apply (round_pos_fixed _ (e + 52)%Z) with (z := Zpos m) (k := e).
  - replace (e + 52)%Z with (53 - 1 + e)%Z by lia. rewrite pow2_add.
    apply Qmult_le_compat_r; [exact L | apply Qlt_le_weak, pow2_pos].
  - replace (e + 52 + 1)%Z with (53 + e)%Z by lia. apply finite_below, D.
  - reflexivity.
  - lia.
Qed.

Lemma regular_representable (B : Z) (x : spec_float) :
  regular B x -> round53 (SF2Q x) == SF2Q x.
Proof.
  destruct x as [s|s| |s m e]; cbn [regular SF2Q]; try tauto.
  - intros _. reflexivity.
  - intros (-> & D & _). apply finite_representable, D.
Qed.

Lemma SFadd_correct (B : Z) (x y : spec_float) :
  regular B x -> regular B y -> (0 <= B <= 900)%Z ->
  regular (B + 53) (SF64add x y) /\
  SF2Q (SF64add x y) == round53 (SF2Q x + SF2Q y).
Proof.
  intros Rx Ry HB.
  pose proof (regular_representable B x Rx) as Fx.
  pose proof (regular_representable B y Ry) as Fy.
  destruct x as [sx|sx| |sx mx ex]; cbn [regular] in Rx; try tauto;
    destruct y as [sy|sy| |sy my ey]; cbn [regular] in Ry; try tauto.
  - subst. split; [reflexivity|]. cbn [SF64add SFadd SF2Q].
    rewrite round53_zero; [reflexivity | ring].
  - subst. cbn [SF64add SFadd]. split.
    + apply (regular_weaken B); [lia | exact Ry].
    + rewrite <- Fy at 1. apply round53_comp. cbn [SF2Q]. ring.
  - subst. cbn [SF64add SFadd]. split.
    + apply (regular_weaken B); [lia | exact Rx].
    + rewrite <- Fx at 1. apply round53_comp. cbn [SF2Q]. ring.
  - destruct Rx as (-> & Dx & Ex). destruct Ry as (-> & Dy & Ey).
    unfold SF64add, SFadd. cbn [cond_Zopp].
    destruct (aligned mx my ex ey) as [Ax Ay]. cbv zeta in Ax, Ay.
    set (ez := Z.min ex ey) in *.
    set (a := fst (shl_align mx ex ez)) in *. set (b := fst (shl_align my ey ez)) in *.
    change (Zpos a + Zpos b)%Z with (Zpos (a + b)).
    assert (V : inject_Z (Zpos (a + b)) * pow2 ez
                == inject_Z (Zpos mx) * pow2 ex + inject_Z (Zpos my) * pow2 ey).
    { rewrite Pos2Z.inj_add, inject_Z_plus, <- Ax, <- Ay. ring. }
    assert (Top : (Zpos (digits2_pos (a + b)) + ez <= 54 + B)%Z).
    { apply digits_below. rewrite V.
      pose proof (finite_below mx ex Dx) as Ux. pose proof (finite_below my ey Dy) as Uy.
      assert (M1 : pow2 (53 + ex) <= pow2 (53 + B)) by (apply pow2_le; lia).
      assert (M2 : pow2 (53 + ey) <= pow2 (53 + B)) by (apply pow2_le; lia).
      replace (54 + B)%Z with ((53 + B) + 1)%Z by lia. rewrite pow2_succ. lra. }
    assert (Bot : (1 <= Zpos (digits2_pos (a + b)))%Z) by lia.
    destruct (normalize_correct (a + b) ez (1 + ez) (54 + B))
      as [(m & e & E & D & He) W]; try lia.
    rewrite E in *. split.
    + cbn [regular]. repeat split; try assumption; unfold ez in *; lia.
    + rewrite W. apply round53_comp. cbn [SF2Q]. exact V.
Qed.

Lemma SFsub_correct (B : Z) (x y : spec_float) :
  regular B x -> regular B y -> SF2Q y <= SF2Q x -> (0 <= B <= 900)%Z ->
  regular (B + 53) (SF64sub x y) /\
  SF2Q (SF64sub x y) == round53 (SF2Q x - SF2Q y).
Proof.
  intros Rx Ry Hle HB.
  pose proof (regular_representable B x Rx) as Fx.
  destruct x as [sx|sx| |sx mx ex]; cbn [regular] in Rx; try tauto;
    destruct y as [sy|sy| |sy my ey]; cbn [regular] in Ry; try tauto.
  - subst. split; [reflexivity|]. cbn [SF64sub SFsub SF2Q].
    rewrite round53_zero; [reflexivity | ring].
  - exfalso. destruct Ry as (-> & _). cbn [SF2Q] in Hle.
    pose proof (finite_pos my ey). lra.
  - subst. cbn [SF64sub SFsub]. split.
    + apply (regular_weaken B); [lia | exact Rx].
    + rewrite <- Fx at 1. apply round53_comp. cbn [SF2Q]. ring.
  - destruct Rx as (-> & Dx & Ex). destruct Ry as (-> & Dy & Ey).
    cbn [SF2Q] in Hle.
    unfold SF64sub, SFsub. cbn [cond_Zopp].
    destruct (aligned mx my ex ey) as [Ax Ay]. cbv zeta in Ax, Ay.
    set (ez := Z.min ex ey) in *.
    set (a := fst (shl_align mx ex ez)) in *. set (b := fst (shl_align my ey ez)) in *.
    assert (V : inject_Z (Zpos a - Zpos b) * pow2 ez
                == inject_Z (Zpos mx) * pow2 ex - inject_Z (Zpos my) * pow2 ey).
    { unfold Z.sub. rewrite inject_Z_plus, inject_Z_opp, <- Ax, <- Ay. ring. }
    destruct (Zpos a - Zpos b)%Z as [|p|p] eqn:Es.
    + split; [reflexivity|]. cbn [binary_normalize SF2Q].
      rewrite round53_zero; [reflexivity|]. cbn [SF2Q]. rewrite <- V.
      change (inject_Z 0) with 0. ring.
    + assert (Top : (Zpos (digits2_pos p) + ez <= 53 + B)%Z).
      { apply digits_below. rewrite V.
        pose proof (finite_below mx ex Dx) as Ux. pose proof (finite_pos my ey) as Py.
        assert (M1 : pow2 (53 + ex) <= pow2 (53 + B)) by (apply pow2_le; lia).
        lra. }
      destruct (normalize_correct p ez (1 + ez) (53 + B))
        as [(m & e & E & D & He) W]; try lia.
      rewrite E in *. split.
      * cbn [regular]. repeat split; try assumption; unfold ez in *; lia.
      * rewrite W. apply round53_comp. cbn [SF2Q]. exact V.
    + exfalso.
      assert (N : inject_Z (Zneg p) * pow2 ez < 0).
      { setoid_replace (inject_Z (Zneg p)) with (- inject_Z (Zpos p)) by reflexivity.
        pose proof (finite_pos p ez). lra. }
      lra.
Qed.

(** **** Conversion of an integer *)

Lemma of_uint63_correct (z : Z) :
  (0 <= z < 2 ^ 53)%Z ->
  let x := binary_normalize prec emax z 0 false in
  regular 52 x /\ SF2Q x == inject_Z z.
Proof.
  intros Hz x. subst x. destruct z as [|p|p]; [| |lia].
  - split; reflexivity.
  - assert (Hd : (Zpos (digits2_pos p) <= 53)%Z).
    { pose proof (digits2_pos_spec p) as [L _].
      assert (A : (Zpos (digits2_pos p) - 1 < 53)%Z) by (apply (Z.pow_lt_mono_r_iff 2); lia).
      lia. }
    destruct (normalize_correct p 0 1 53) as [(m & e & E & D & He) W]; try lia.
    rewrite E in *. split.
    + cbn [regular]. repeat split; try assumption; lia.
    + rewrite W, pow2_0, Qmult_1_r. apply round53_Z. lia.
Qed.

(** **** Comparison *)

Lemma finite_lt_exp (m1 m2 : positive) (e1 e2 : Z) :
  Zpos (digits2_pos m1) = 53%Z -> Zpos (digits2_pos m2) = 53%Z -> (e1 < e2)%Z ->
  inject_Z (Zpos m1) * pow2 e1 < inject_Z (Zpos m2) * pow2 e2.
Proof.
  intros D1 D2 He.
  pose proof (finite_below m1 e1 D1) as U.
  destruct (inject_pow2_bounds m2) as [L _]. rewrite D2 in L.
  assert (M : pow2 (53 + e1) <= pow2 (53 - 1 + e2)) by (apply pow2_le; lia).
  assert (L' : pow2 (53 - 1 + e2) <= inject_Z (Zpos m2) * pow2 e2).
  { rewrite pow2_add. apply Qmult_le_compat_r; [exact L | apply Qlt_le_weak, pow2_pos]. }
  lra.
Qed.

Lemma SFcompare_correct (B1 B2 : Z) (x y : spec_float) :
  regular B1 x -> regular B2 y -> SFcompare x y = Some (SF2Q x ?= SF2Q y).
Proof.
  intros Rx Ry.
  destruct x as [sx|sx| |sx mx ex]; cbn [regular] in Rx; try tauto;
    destruct y as [sy|sy| |sy my ey]; cbn [regular] in Ry; try tauto.
  - destruct Ry as (-> & _). cbn [SFcompare SF2Q]. f_equal. symmetry.
    apply Qlt_alt, finite_pos.
  - destruct Rx as (-> & _). cbn [SFcompare SF2Q]. f_equal. symmetry.
    apply Qgt_alt, finite_pos.
  - destruct Rx as (-> & Dx & _). destruct Ry as (-> & Dy & _).
    cbn [SFcompare SF2Q]. f_equal. symmetry.
    destruct (Z.compare_spec ex ey) as [E | L | G].
    + subst ey. change (Pos.compare_cont Eq mx my) with (Pos.compare mx my).
      destruct (Pos.compare_spec mx my) as [E | L | G].
      * subst. apply Qeq_alt. reflexivity.
      * apply Qlt_alt. apply Qmult_lt_compat_r; [apply pow2_pos|].
        rewrite <- Zlt_Qlt. lia.
      * apply Qgt_alt. apply Qmult_lt_compat_r; [apply pow2_pos|].
        rewrite <- Zlt_Qlt. lia.
    + apply Qlt_alt, finite_lt_exp; assumption.
    + apply Qgt_alt, finite_lt_exp; assumption.
Qed.

Lemma SFleb_correct (B1 B2 : Z) (x y : spec_float) :
  regular B1 x -> regular B2 y -> SFleb x y = Qle_bool (SF2Q x) (SF2Q y).
Proof.
  intros Rx Ry. unfold SFleb. rewrite (SFcompare_correct B1 B2 x y Rx Ry).
  destruct (Qle_bool (SF2Q x) (SF2Q y)) eqn:E.
  - apply Qle_bool_iff in E.
    destruct (SF2Q x ?= SF2Q y) eqn:C; [reflexivity | reflexivity |].
    apply Qgt_alt in C. lra.
  - destruct (SF2Q x ?= SF2Q y) eqn:C; try reflexivity; exfalso.
    + apply Qeq_alt in C. assert (H : SF2Q x <= SF2Q y) by lra.
      apply Qle_bool_iff in H. congruence.
    + apply Qlt_alt in C. assert (H : SF2Q x <= SF2Q y) by lra.
      apply Qle_bool_iff in H. congruence.
Qed.

Lemma SFltb_correct (B1 B2 : Z) (x y : spec_float) :
  regular B1 x -> regular B2 y -> SFltb x y = negb (Qle_bool (SF2Q y) (SF2Q x)).
Proof.
  intros Rx Ry. unfold SFltb. rewrite (SFcompare_correct B1 B2 x y Rx Ry).
  destruct (Qle_bool (SF2Q y) (SF2Q x)) eqn:E; cbn [negb].
  - apply Qle_bool_iff in E. destruct (SF2Q x ?= SF2Q y) eqn:C; try reflexivity.
    apply Qlt_alt in C. lra.
  - destruct (SF2Q x ?= SF2Q y) eqn:C; try reflexivity; exfalso.
    + apply Qeq_alt in C. assert (H : SF2Q y <= SF2Q x) by lra.
      apply Qle_bool_iff in H. congruence.
    + apply Qgt_alt in C. assert (H : SF2Q y <= SF2Q x) by lra.
      apply Qle_bool_iff in H. congruence.
Qed.

Lemma SFeqb_correct (B1 B2 : Z) (x y : spec_float) :
  regular B1 x -> regular B2 y -> SFeqb x y = Qeq_bool (SF2Q x) (SF2Q y).
Proof.
  intros Rx Ry. unfold SFeqb. rewrite (SFcompare_correct B1 B2 x y Rx Ry).
  destruct (Qeq_bool (SF2Q x) (SF2Q y)) eqn:E.
  - apply Qeq_bool_iff in E. apply Qeq_alt in E. rewrite E. reflexivity.
  - destruct (SF2Q x ?= SF2Q y) eqn:C; try reflexivity; exfalso.
    apply Qeq_alt in C. apply Qeq_bool_iff in C. congruence.
Qed.

(** *** The primitive floats compute the rounded rationals *)

Lemma sim_weaken (B B' : Z) (f : float) (b : B64) :
  (B <= B')%Z -> sim B f b -> sim B' f b.
Proof. intros H [R V]. split; [apply (regular_weaken B); assumption | exact V]. Qed.

Lemma sim_nonneg (B : Z) (f : float) (b : B64) : sim B f b -> 0 <= value b.
Proof. intros [R V]. rewrite <- V. apply (regular_nonneg B), R. Qed.

Lemma sim_ofZ (z : Z) : (0 <= z < 2 ^ 32)%Z -> sim 52 (ofZ z) (ofZ z).
Proof.
  intros Hz. unfold sim. cbn [ofZ Num_float Num_B64 value].
  rewrite FloatAxioms.of_uint63_spec, of_Z_spec.
  rewrite Z.mod_small by (change wB with (2 ^ 63)%Z; lia).
  destruct (of_uint63_correct z ltac:(lia)) as [R V]. split; [exact R|].
  rewrite V. symmetry. apply round53_Z. lia.
Qed.

Lemma sim_div (B1 B2 : Z) (x y : float) (a b : B64) :
  sim B1 x a -> sim B2 y b -> 0 < value b -> (B1 + B2 <= 900)%Z ->
  sim (B1 + B2 + 54) (ndiv x y) (ndiv a b).
Proof.
  intros [Rx Vx] [Ry Vy] Pb HB. unfold sim. cbn [ndiv Num_float Num_B64 value].
  rewrite FloatAxioms.div_spec.
  destruct (SFdiv_correct B1 B2 _ _ Rx Ry ltac:(rewrite Vy; exact Pb) HB) as [R V].
  split; [exact R|]. rewrite V, Vx, Vy. reflexivity.
Qed.

Lemma sim_mul (B1 B2 : Z) (x y : float) (a b : B64) :
  sim B1 x a -> sim B2 y b -> (B1 + B2 <= 900)%Z ->
  sim (B1 + B2 + 54) (nmul x y) (nmul a b).
Proof.
  intros [Rx Vx] [Ry Vy] HB. unfold sim. cbn [nmul Num_float Num_B64 value].
  rewrite FloatAxioms.mul_spec.
  destruct (SFmul_correct B1 B2 _ _ Rx Ry HB) as [R V].
  split; [exact R|]. rewrite V, Vx, Vy. reflexivity.
Qed.

Lemma sim_add (B : Z) (x y : float) (a b : B64) :
  sim B x a -> sim B y b -> (0 <= B <= 900)%Z ->
  sim (B + 53) (nadd x y) (nadd a b).
Proof.
  intros [Rx Vx] [Ry Vy] HB. unfold sim. cbn [nadd Num_float Num_B64 value].
  rewrite FloatAxioms.add_spec.
  destruct (SFadd_correct B _ _ Rx Ry HB) as [R V].
  split; [exact R|]. rewrite V, Vx, Vy. reflexivity.
Qed.

Lemma sim_sub (B : Z) (x y : float) (a b : B64) :
  sim B x a -> sim B y b -> value b <= value a -> (0 <= B <= 900)%Z ->
  sim (B + 53) (nsub x y) (nsub a b).
Proof.
  intros [Rx Vx] [Ry Vy] Hle HB. unfold sim. cbn [nsub Num_float Num_B64 value].
  rewrite FloatAxioms.sub_spec.
  destruct (SFsub_correct B _ _ Rx Ry ltac:(rewrite Vx, Vy; exact Hle) HB) as [R V].
  split; [exact R|]. rewrite V, Vx, Vy. reflexivity.
Qed.

Lemma sim_leb (B1 B2 : Z) (x y : float) (a b : B64) :
  sim B1 x a -> sim B2 y b -> nleb x y = nleb a b.
Proof.
  intros [Rx Vx] [Ry Vy]. cbn [nleb Num_float Num_B64].
  rewrite FloatAxioms.leb_spec, (SFleb_correct B1 B2 _ _ Rx Ry), Vx, Vy. reflexivity.
Qed.

Lemma sim_gtb (B1 B2 : Z) (x y : float) (a b : B64) :
  sim B1 x a -> sim B2 y b -> ngtb x y = ngtb a b.
Proof.
  intros [Rx Vx] [Ry Vy]. cbn [ngtb Num_float Num_B64].
  rewrite FloatAxioms.ltb_spec, (SFltb_correct B2 B1 _ _ Ry Rx), Vx, Vy. reflexivity.
Qed.

Lemma sim_eqb (B1 B2 : Z) (x y : float) (a b : B64) :
  sim B1 x a -> sim B2 y b -> neqb x y = neqb a b.
Proof.
  intros [Rx Vx] [Ry Vy]. cbn [neqb Num_float Num_B64].
  rewrite FloatAxioms.eqb_spec, (SFeqb_correct B1 B2 _ _ Rx Ry), Vx, Vy. reflexivity.
Qed.

Lemma value_ofZ (z : Z) : (0 <= z < 2 ^ 32)%Z -> value (ofZ z) == inject_Z z.
Proof. intros H. cbn [ofZ Num_B64 value]. apply round53_Z. lia. Qed.

Section Simulation.

Variables vw vh cw ch : Z.
Hypothesis Hvw : (0 < vw < 2 ^ 32)%Z.
Hypothesis Hvh : (0 < vh < 2 ^ 32)%Z.
Hypothesis Hcw : (0 < cw < 2 ^ 32)%Z.
Hypothesis Hch : (0 < ch < 2 ^ 32)%Z.
Hypothesis Hfits : fits vw vh cw ch (crop (T:=B64) vw vh cw ch).

Lemma ratio_sim :
  sim 158 (cRatio (T:=float) cw ch) (cRatio cw ch) /\
  sim 158 (vRatio (T:=float) vw vh) (vRatio vw vh) /\
  0 < value (cRatio (T:=B64) cw ch).
Proof.
  assert (Pch : 0 < value (ofZ (T:=B64) ch))
    by (rewrite value_ofZ by lia; apply inject_pos; lia).
  assert (Pvh : 0 < value (ofZ (T:=B64) vh))
    by (rewrite value_ofZ by lia; apply inject_pos; lia).
  split; [|split].
  - apply (sim_weaken (52 + 52 + 54)); [lia|].
    apply (sim_div 52 52); try apply sim_ofZ; try lia. exact Pch.
  - apply (sim_weaken (52 + 52 + 54)); [lia|].
    apply (sim_div 52 52); try apply sim_ofZ; try lia. exact Pvh.
  - unfold cRatio. cbn [ndiv Num_B64 value]. apply round53_sign.
    apply Qlt_shift_div_l; [exact Pch|]. rewrite Qmult_0_l.
    rewrite value_ofZ by lia. apply inject_pos. lia.
Qed.

Lemma branch_sim :
  ngtb (T:=float) (vRatio vw vh) (cRatio cw ch) = ngtb (T:=B64) (vRatio vw vh) (cRatio cw ch).
Proof.
  destruct ratio_sim as (Sc & Sv & _). exact (sim_gtb _ _ _ _ _ _ Sv Sc).
Qed.

Lemma crop_sim : rect_sim 423 (crop (T:=float) vw vh cw ch) (crop (T:=B64) vw vh cw ch).
Proof.
  destruct ratio_sim as (Sc & Sv & Pc).
  pose proof branch_sim as Hb.
  pose proof Hfits as F. unfold fits in F.
  unfold crop in *. rewrite Hb.
  destruct (ngtb (T:=B64) (vRatio vw vh) (cRatio cw ch));
    cbn [sx sy sWidth sHeight] in *;
    destruct F as (F0 & F1 & F2 & F3 & _).
  - (* full height *)
    assert (SW : sim 264 (nmul (ofZ vh) (cRatio (T:=float) cw ch))
                   (nmul (ofZ vh) (cRatio cw ch))).
    { apply (sim_weaken (52 + 158 + 54)); [lia|].
      apply (sim_mul 52 158); [apply sim_ofZ; lia | exact Sc | lia]. }
    assert (SD : sim 317 (nsub (ofZ vw) (nmul (ofZ vh) (cRatio (T:=float) cw ch)))
                   (nsub (ofZ vw) (nmul (ofZ vh) (cRatio cw ch)))).
    { apply (sim_weaken (264 + 53)); [lia|].
      apply (sim_sub 264); [apply (sim_weaken 52); [lia | apply sim_ofZ; lia] | exact SW | | lia].
      rewrite value_ofZ by lia. lra. }
    unfold rect_sim. cbn [sx sy sWidth sHeight]. split; [|split; [|split]].
    + apply (sim_weaken (317 + 52 + 54)); [lia|].
      apply (sim_div 317 52); [exact SD | apply sim_ofZ; lia | | lia].
      rewrite value_ofZ by lia. reflexivity.
    + apply (sim_weaken 52); [lia | apply sim_ofZ; lia].
    + apply (sim_weaken 264); [lia | exact SW].
    + apply (sim_weaken 52); [lia | apply sim_ofZ; lia].
  - (* full width *)
    assert (SH : sim 264 (ndiv (ofZ vw) (cRatio (T:=float) cw ch))
                   (ndiv (ofZ vw) (cRatio cw ch))).
    { apply (sim_weaken (52 + 158 + 54)); [lia|].
      apply (sim_div 52 158); [apply sim_ofZ; lia | exact Sc | exact Pc | lia]. }
    assert (SD : sim 317 (nsub (ofZ vh) (ndiv (ofZ vw) (cRatio (T:=float) cw ch)))
                   (nsub (ofZ vh) (ndiv (ofZ vw) (cRatio cw ch)))).
    { apply (sim_weaken (264 + 53)); [lia|].
      apply (sim_sub 264); [apply (sim_weaken 52); [lia | apply sim_ofZ; lia] | exact SH | | lia].
      rewrite value_ofZ by lia. lra. }
    unfold rect_sim. cbn [sx sy sWidth sHeight]. split; [|split; [|split]].
    + apply (sim_weaken 52); [lia | apply sim_ofZ; lia].
    + apply (sim_weaken (317 + 52 + 54)); [lia|].
      apply (sim_div 317 52); [exact SD | apply sim_ofZ; lia | | lia].
      rewrite value_ofZ by lia. reflexivity.
    + apply (sim_weaken 52); [lia | apply sim_ofZ; lia].
    + apply (sim_weaken 264); [lia | exact SH].
Qed.

End Simulation.

Lemma sim_finite (B : Z) (f : float) (b : B64) : sim B f b -> is_finite f = true.
Proof.
  intros [R _]. unfold is_finite. destruct (Prim2SF f); cbn [regular] in R; tauto.
Qed.

Lemma sim_number (B : Z) (f : float) (b : B64) : sim B f b -> number_of f == value b.
Proof. intros [_ V]. exact V. Qed.

Lemma sim_same (B : Z) (f : float) (b : B64) : sim B f b -> same_number f b = true.
Proof.
  intros S. unfold same_number, rational_of. rewrite (sim_finite _ _ _ S).
  apply Qeq_bool_iff, (sim_number B), S.
Qed.

Lemma in_source_sim (vw vh B : Z) (rf : Rect float) (rb : Rect B64) :
  (0 < vw < 2 ^ 32)%Z -> (0 < vh < 2 ^ 32)%Z -> (52 <= B <= 700)%Z ->
  rect_sim B rf rb -> in_source vw vh rf = in_source vw vh rb.
Proof.
  intros Hvw Hvh HB (Sx & Sy & Sw & Sh). unfold in_source.
  assert (S0 : sim 52 (ofZ 0) (ofZ 0)) by (apply sim_ofZ; lia).
  assert (SV : sim 52 (ofZ vw) (ofZ vw)) by (apply sim_ofZ; lia).
  assert (SH : sim 52 (ofZ vh) (ofZ vh)) by (apply sim_ofZ; lia).
  rewrite (sim_leb _ _ _ _ _ _ S0 Sx), (sim_leb _ _ _ _ _ _ S0 Sy).
  rewrite (sim_leb _ _ _ _ _ _ (sim_add B _ _ _ _ Sx Sw ltac:(lia)) SV).
  rewrite (sim_leb _ _ _ _ _ _ (sim_add B _ _ _ _ Sy Sh ltac:(lia)) SH).
  reflexivity.
Qed.

Lemma centered_sim (vw vh cw ch B : Z) (rf : Rect float) (rb : Rect B64) :
  (0 < vw < 2 ^ 32)%Z -> (0 < vh < 2 ^ 32)%Z -> (52 <= B <= 700)%Z ->
  rect_sim B rf rb ->
  value (sWidth rb) <= inject_Z vw -> value (sHeight rb) <= inject_Z vh ->
  ngtb (T:=float) (vRatio vw vh) (cRatio cw ch) = ngtb (T:=B64) (vRatio vw vh) (cRatio cw ch) ->
  centered vw vh cw ch rf = centered vw vh cw ch rb.
Proof.
  intros Hvw Hvh HB (Sx & Sy & Sw & Sh) Hw Hh Hb. unfold centered. rewrite Hb.
  assert (S2 : sim 52 (ofZ 2) (ofZ 2)) by (apply sim_ofZ; lia).
  assert (P2 : 0 < value (ofZ (T:=B64) 2)) by (rewrite value_ofZ by lia; reflexivity).
  assert (SV : sim B (ofZ vw) (ofZ vw)) by (apply (sim_weaken 52); [lia | apply sim_ofZ; lia]).
  assert (SH : sim B (ofZ vh) (ofZ vh)) by (apply (sim_weaken 52); [lia | apply sim_ofZ; lia]).
  destruct (ngtb (T:=B64) (vRatio vw vh) (cRatio cw ch)).
  - apply (sim_eqb B (B + 53 + 52 + 54)); [exact Sx|].
    apply (sim_div (B + 53) 52); [| exact S2 | exact P2 | lia].
    apply (sim_sub B); [exact SV | exact Sw | | lia].
    rewrite value_ofZ by lia. exact Hw.
  - apply (sim_eqb B (B + 53 + 52 + 54)); [exact Sy|].
    apply (sim_div (B + 53) 52); [| exact S2 | exact P2 | lia].
    apply (sim_sub B); [exact SH | exact Sh | | lia].
    rewrite value_ofZ by lia. exact Hh.
Qed.

Lemma fits_numbers (vw vh cw ch B : Z) (rf : Rect float) (rb : Rect B64) :
  rect_sim B rf rb -> fits vw vh cw ch rb -> fits vw vh cw ch (numbers rf).
Proof.
  intros (Sx & Sy & Sw & Sh).
  apply sim_number in Sx, Sy, Sw, Sh.
  unfold fits, numbers. cbn [sx sy sWidth sHeight value].
  rewrite Sx, Sy, Sw, Sh. tauto.
Qed.

Lemma all_finite_sim (B : Z) (rf : Rect float) (rb : Rect B64) :
  rect_sim B rf rb -> all_finite rf = true.
Proof.
  intros (Sx & Sy & Sw & Sh). unfold all_finite.
  rewrite (sim_finite _ _ _ Sx), (sim_finite _ _ _ Sy), (sim_finite _ _ _ Sw),
    (sim_finite _ _ _ Sh). reflexivity.
Qed.

Lemma same_rect_sim (B : Z) (rf : Rect float) (rb : Rect B64) :
  rect_sim B rf rb -> same_rect rf rb = true.
Proof.
  intros (Sx & Sy & Sw & Sh). unfold same_rect.
  rewrite (sim_same _ _ _ Sx), (sim_same _ _ _ Sy), (sim_same _ _ _ Sw),
    (sim_same _ _ _ Sh). reflexivity.
Qed.

(** C3: for every configured target (the four entries of
    ASPECT_RATIO_CONFIGS) and every source resolution with sides below 2^32
    (videoWidth and videoHeight are unsigned longs), the crop rectangle
    that [draw] computes with binary64 floats lies inside the source:
    0 <= sx, 0 <= sy, sx + sWidth <= vw and sy + sHeight <= vh, both as the
    floats' own additions and comparisons decide it ([in_source]) and for
    the exact sums of the numbers held ([fits]).  It is centred by the
    formula of its branch ([centered]), every field is a finite number with
    positive sides, and sWidth / sHeight = cw / ch, sx = (vw - sWidth) / 2
    and sy = (vh - sHeight) / 2 hold within the relative tolerance 2^-51. *)
Theorem crop_within_source (a : AspectRatio) (vw vh : Z) :
  (0 < vw < 2 ^ 32)%Z -> (0 < vh < 2 ^ 32)%Z ->
  let config := ASPECT_RATIO_CONFIGS a in
  let r := crop_for (T:=float) a vw vh in
  in_source vw vh r = true /\
  centered vw vh (width config) (height config) r = true /\
  all_finite r = true /\
  fits vw vh (width config) (height config) (numbers r).
Proof.
  intros Hvw Hvh. cbv zeta.
  destruct (crop_rounded_within_source a vw vh Hvw Hvh) as (Hin & Hc & Hf).
  unfold crop_for in *.
  set (cw := width (ASPECT_RATIO_CONFIGS a)) in *.
  set (ch := height (ASPECT_RATIO_CONFIGS a)) in *.
  assert (Hcw : (0 < cw < 2 ^ 32)%Z)
    by (unfold cw; destruct a; cbn [ASPECT_RATIO_CONFIGS width height]; lia).
  assert (Hch : (0 < ch < 2 ^ 32)%Z)
    by (unfold ch; destruct a; cbn [ASPECT_RATIO_CONFIGS width height]; lia).
  pose proof (crop_sim vw vh cw ch Hvw Hvh Hcw Hch Hf) as S.
  pose proof (branch_sim vw vh cw ch Hvw Hvh Hcw Hch) as Hb.
  pose proof Hf as (F0 & F1 & F2 & F3 & _).
  split; [|split; [|split]].
  - rewrite (in_source_sim vw vh 423 _ _ Hvw Hvh ltac:(lia) S). exact Hin.
  - rewrite (centered_sim vw vh cw ch 423 _ _ Hvw Hvh ltac:(lia) S); [exact Hc | | | exact Hb].
    + lra.
    + lra.
  - exact (all_finite_sim 423 _ _ S).
  - exact (fits_numbers vw vh cw ch 423 _ _ S Hf).
Qed.

Lemma crop_within_source_witness :
  (0 < 1280 < 2 ^ 32)%Z /\ (0 < 600 < 2 ^ 32)%Z /\
  in_source 1280 600 (crop_for (T:=float) LANDSCAPE_16_9 1280 600) = true /\
  centered 1280 600 720 405 (crop_for (T:=float) LANDSCAPE_16_9 1280 600) = true /\
  all_finite (crop_for (T:=float) LANDSCAPE_16_9 1280 600) = true /\
  fits 1280 600 720 405 (numbers (crop_for (T:=float) LANDSCAPE_16_9 1280 600)).
Proof.
  split; [lia|]. split; [lia|].
  apply (crop_within_source LANDSCAPE_16_9 1280 600); lia.
Defined.

(** The floats hold the very numbers of the rounded computation. *)
Lemma crop_computes_rounded (a : AspectRatio) (vw vh : Z) :
  (0 < vw < 2 ^ 32)%Z -> (0 < vh < 2 ^ 32)%Z ->
  same_rect (crop_for (T:=float) a vw vh) (crop_for (T:=B64) a vw vh) = true.
Proof.
  intros Hvw Hvh.
  destruct (crop_rounded_within_source a vw vh Hvw Hvh) as (_ & _ & Hf).
  unfold crop_for in *.
  apply (same_rect_sim 423), crop_sim; try assumption;
    destruct a; cbn [ASPECT_RATIO_CONFIGS width height]; lia.
Qed.

(** *** A source of the target's ratio is not cropped *)

Lemma regular_inj (B1 B2 : Z) (x y : spec_float) :
  regular B1 x -> regular B2 y -> SF2Q x == SF2Q y -> x = y.
Proof.
  intros Rx Ry E.
  pose proof (SFcompare_correct B1 B2 x y Rx Ry) as C.
  apply Qeq_alt in E. rewrite E in C.
  destruct x as [sx|sx| |sx mx ex]; cbn [regular] in Rx; try tauto;
    destruct y as [sy|sy| |sy my ey]; cbn [regular] in Ry; try tauto.
  - subst. reflexivity.
  - destruct Ry as (-> & _). cbn in C. discriminate.
  - destruct Rx as (-> & _). cbn in C. discriminate.
  - destruct Rx as (-> & _). destruct Ry as (-> & _). cbn [SFcompare] in C.
    destruct (Z.compare_spec ex ey) as [Ee | L | G]; try discriminate.
    change (Pos.compare_cont Eq mx my) with (Pos.compare mx my) in C.
    destruct (Pos.compare_spec mx my) as [Em | L | G]; try discriminate.
    subst. reflexivity.
Qed.

Lemma sim_inj (B1 B2 : Z) (f g : float) (a b : B64) :
  sim B1 f a -> sim B2 g b -> value a == value b -> f = g.
Proof.
  intros [Rf Vf] [Rg Vg] E. apply Prim2SF_inj.
  apply (regular_inj B1 B2); try assumption. rewrite Vf, Vg. exact E.
Qed.

Lemma height_16_9 (V H : Z) :
  (0 < V < 2 ^ 32)%Z -> (0 < H < 2 ^ 32)%Z -> (9 * V = 16 * H)%Z ->
  round53 (inject_Z V / ((16 # 9) * (1 - eps54))) == inject_Z H.
Proof.
  intros HV HH D.
  pose proof (inject_pos V (proj1 HV)) as PV. pose proof (inject_pos H (proj1 HH)) as PH.
  assert (DQ : (9 # 1) * inject_Z V == (16 # 1) * inject_Z H).
  { change (9 # 1) with (inject_Z 9). change (16 # 1) with (inject_Z 16).
    rewrite <- !inject_Z_mult, D. reflexivity. }
  assert (X : inject_Z V / ((16 # 9) * (1 - eps54)) * (1 - eps54) == inject_Z H).
  { setoid_replace (inject_Z V / ((16 # 9) * (1 - eps54)) * (1 - eps54))
      with ((9 # 1) * inject_Z V / (16 # 1)) by (unfold eps54; field).
    rewrite DQ. field. }
  apply round53_just_above; [lia | | rewrite X; apply Qle_refl].
  rewrite <- X at 1.
  setoid_replace (inject_Z V / ((16 # 9) * (1 - eps54))) with
    (inject_Z V / ((16 # 9) * (1 - eps54)) * 1) at 2 by ring.
  assert (P : 0 < inject_Z V / ((16 # 9) * (1 - eps54))).
  { apply Qlt_shift_div_l; [unfold eps54; lra | lra]. }
  rewrite !(Qmult_comm (inject_Z V / ((16 # 9) * (1 - eps54)))).
  apply Qmult_le_compat_r; [unfold eps54; lra | lra].
Qed.

Section SameRatio.

Variables vw vh cw ch : Z.
Hypothesis Hvw : (0 < vw < 2 ^ 32)%Z.
Hypothesis Hvh : (0 < vh < 2 ^ 32)%Z.
Hypothesis Hcw : (0 < cw < 2 ^ 32)%Z.
Hypothesis Hch : (0 < ch < 2 ^ 32)%Z.
Hypothesis same : (vw * ch = vh * cw)%Z.
Hypothesis height :
  round53 (inject_Z vw / round53 (inject_Z cw / inject_Z ch)) == inject_Z vh.

Lemma crop_same_ratio_rounded :
  let r := crop (T:=B64) vw vh cw ch in
  value (sx r) == 0 /\ value (sy r) == 0 /\
  value (sWidth r) == inject_Z vw /\ value (sHeight r) == inject_Z vh.
Proof.
  pose proof (inject_pos vw (proj1 Hvw)) as PV. pose proof (inject_pos vh (proj1 Hvh)) as PH.
  pose proof (inject_pos cw (proj1 Hcw)) as Pcw. pose proof (inject_pos ch (proj1 Hch)) as Pch.
  assert (EV : round53 (inject_Z vw) == inject_Z vw) by (apply size_exact; lia).
  assert (EH : round53 (inject_Z vh) == inject_Z vh) by (apply size_exact; lia).
  assert (Ecw : round53 (inject_Z cw) == inject_Z cw) by (apply size_exact; lia).
  assert (Ech : round53 (inject_Z ch) == inject_Z ch) by (apply size_exact; lia).
  assert (Eq : inject_Z vw / inject_Z vh == inject_Z cw / inject_Z ch).
  { assert (S : inject_Z vw * inject_Z ch == inject_Z vh * inject_Z cw)
      by (rewrite <- !inject_Z_mult, same; reflexivity).
    apply (Qmult_inj_r _ _ (inject_Z vh * inject_Z ch)).
    - intro Z. assert (P : 0 < inject_Z vh * inject_Z ch) by (apply Qmult_lt_0_compat; lra). lra.
    - setoid_replace (inject_Z vw / inject_Z vh * (inject_Z vh * inject_Z ch))
        with (inject_Z vw * inject_Z ch) by (field; lra).
      setoid_replace (inject_Z cw / inject_Z ch * (inject_Z vh * inject_Z ch))
        with (inject_Z vh * inject_Z cw) by (field; lra).
      exact S. }
  cbv zeta. unfold crop, vRatio, cRatio.
  cbn [ofZ ndiv nsub nmul nadd ngtb nleb neqb Num_B64 value].
  rewrite round53_0. change (inject_Z 2) with 2.
  assert (Cond : Qle_bool (round53 (round53 (inject_Z vw) / round53 (inject_Z vh)))
                   (round53 (round53 (inject_Z cw) / round53 (inject_Z ch))) = true).
  { apply Qle_bool_iff. rewrite EV, EH, Ecw, Ech, Eq. apply Qle_refl. }
  rewrite Cond. cbn [negb sx sy sWidth sHeight value].
  rewrite !EV, !EH, !Ecw, !Ech, height.
  split; [reflexivity|]. split; [|split; reflexivity].
  assert (Z0 : round53 (inject_Z vh - inject_Z vh) == 0).
  { rewrite (round53_zero (inject_Z vh - inject_Z vh)); [reflexivity | ring]. }
  rewrite Z0. rewrite (round53_zero (0 / round53 2)); [reflexivity|].
  unfold Qdiv. ring.
Qed.

End SameRatio.

Lemma crop_same_ratio_binary64 (a : AspectRatio) (vw vh : Z) :
  (0 < vw < 2 ^ 32)%Z -> (0 < vh < 2 ^ 32)%Z ->
  (vw * height (ASPECT_RATIO_CONFIGS a) = vh * width (ASPECT_RATIO_CONFIGS a))%Z ->
  let r := crop_for (T:=B64) a vw vh in
  value (sx r) == 0 /\ value (sy r) == 0 /\
  value (sWidth r) == inject_Z vw /\ value (sHeight r) == inject_Z vh.
Proof.
  intros Hvw Hvh Hs. unfold crop_for.
  pose proof (inject_pos vw (proj1 Hvw)) as PV. pose proof (inject_pos vh (proj1 Hvh)) as PH.
  assert (Exact : forall cw ch : Z, (0 < cw)%Z -> (0 < ch)%Z -> (vw * ch = vh * cw)%Z ->
            round53 (inject_Z cw / inject_Z ch) == inject_Z cw / inject_Z ch ->
            round53 (inject_Z vw / round53 (inject_Z cw / inject_Z ch)) == inject_Z vh).
  { intros cw ch Hcw Hch S E. rewrite E.
    pose proof (inject_pos cw Hcw) as Pcw. pose proof (inject_pos ch Hch) as Pch.
    assert (SQ : inject_Z vw * inject_Z ch == inject_Z vh * inject_Z cw)
      by (rewrite <- !inject_Z_mult, S; reflexivity).
    setoid_replace (inject_Z vw / (inject_Z cw / inject_Z ch))
      with (inject_Z vw * inject_Z ch / inject_Z cw) by (field; split; lra).
    rewrite SQ.
    setoid_replace (inject_Z vh * inject_Z cw / inject_Z cw) with (inject_Z vh) by (field; lra).
    apply size_exact. lia. }
  destruct a; cbn [ASPECT_RATIO_CONFIGS width height] in *;
    apply crop_same_ratio_rounded; try assumption; try lia.
  - apply Exact; try lia. vm_compute. reflexivity.
  - assert (E : round53 (inject_Z 720 / inject_Z 405) == (16 # 9) * (1 - eps54))
      by (vm_compute; reflexivity).
    rewrite E. apply height_16_9; try assumption. lia.
  - apply Exact; try lia. vm_compute. reflexivity.
  - apply Exact; try lia. vm_compute. reflexivity.
Qed.

(** X6: for each configured target, a source of exactly the target's ratio
    (vw * ch = vh * cw) with sides below 2^32 is not cropped: the binary64
    computation of [draw] returns sx = 0, sy = 0, sWidth = vw and
    sHeight = vh, at any resolution. *)
Theorem crop_same_ratio_is_whole_frame (a : AspectRatio) (vw vh : Z) :
  (0 < vw < 2 ^ 32)%Z -> (0 < vh < 2 ^ 32)%Z ->
  (vw * height (ASPECT_RATIO_CONFIGS a) = vh * width (ASPECT_RATIO_CONFIGS a))%Z ->
  crop_for (T:=float) a vw vh = mkRect (ofZ 0) (ofZ 0) (ofZ vw) (ofZ vh).
Proof.
  intros Hvw Hvh Hs.
  destruct (crop_rounded_within_source a vw vh Hvw Hvh) as (_ & _ & Hf).
  destruct (crop_same_ratio_binary64 a vw vh Hvw Hvh Hs) as (Ex & Ey & Ew & Eh).
  unfold crop_for in *.
  set (cw := width (ASPECT_RATIO_CONFIGS a)) in *.
  set (ch := height (ASPECT_RATIO_CONFIGS a)) in *.
  assert (Hcw : (0 < cw < 2 ^ 32)%Z)
    by (unfold cw; destruct a; cbn [ASPECT_RATIO_CONFIGS width height]; lia).
  assert (Hch : (0 < ch < 2 ^ 32)%Z)
    by (unfold ch; destruct a; cbn [ASPECT_RATIO_CONFIGS width height]; lia).
  destruct (crop_sim vw vh cw ch Hvw Hvh Hcw Hch Hf) as (Sx & Sy & Sw & Sh).
  cbv zeta in Ex, Ey, Ew, Eh.
  destruct (crop (T:=float) vw vh cw ch) as [fx fy fw fh]. cbn [sx sy sWidth sHeight] in *.
  f_equal.
  - apply (sim_inj _ _ _ _ _ _ Sx (sim_ofZ 0 ltac:(lia))). rewrite Ex. reflexivity.
  - apply (sim_inj _ _ _ _ _ _ Sy (sim_ofZ 0 ltac:(lia))). rewrite Ey. reflexivity.
  - apply (sim_inj _ _ _ _ _ _ Sw (sim_ofZ vw ltac:(lia))). rewrite Ew, value_ofZ by lia.
    reflexivity.
  - apply (sim_inj _ _ _ _ _ _ Sh (sim_ofZ vh ltac:(lia))). rewrite Eh, value_ofZ by lia.
    reflexivity.
Qed.

Lemma crop_same_ratio_is_whole_frame_witness :
  (0 < 1280 < 2 ^ 32)%Z /\ (0 < 720 < 2 ^ 32)%Z /\
  (1280 * height (ASPECT_RATIO_CONFIGS LANDSCAPE_16_9)
   = 720 * width (ASPECT_RATIO_CONFIGS LANDSCAPE_16_9))%Z /\
  crop_for (T:=float) LANDSCAPE_16_9 1280 720
  = mkRect (ofZ 0) (ofZ 0) (ofZ 1280) (ofZ 720).
Proof.
  split; [lia|]. split; [lia|]. split; [reflexivity|].
  apply (crop_same_ratio_is_whole_frame LANDSCAPE_16_9 1280 720); [lia | lia | reflexivity].
Defined.

Local Close Scope Q_scope.

(** C9: with the 16:9 configuration (720x405) and a 1920x1080 source the
    two ratios coincide, the comparison [vRatio > cRatio] is false, and the
    crop is the whole source frame: sx = 0, sy = 0, sWidth = 1920,
    sHeight = 1080.  This is what the binary64 computation returns, and the
    exact one as well. *)
Theorem crop_16_9_full_hd :
  ASPECT_RATIO_CONFIGS LANDSCAPE_16_9 = mkConfig 720 405 /\
  ngtb (T:=float) (vRatio 1920 1080) (cRatio 720 405) = false /\
  crop_for (T:=float) LANDSCAPE_16_9 1920 1080
    = mkRect 0%float 0%float 1920%float 1080%float /\
  ngtb (T:=Q) (vRatio 1920 1080) (cRatio 720 405) = false /\
  (let r := crop_for (T:=Q) LANDSCAPE_16_9 1920 1080 in
   sx r == 0 /\ sy r == 0 /\ sWidth r == 1920 # 1 /\ sHeight r == 1080 # 1)%Q.
Proof.
  split; [reflexivity|].
  split; [vm_compute; reflexivity|].
  split; [vm_compute; reflexivity|].
  split; [vm_compute; reflexivity|].
  cbv zeta. repeat split; vm_compute; reflexivity.
Qed.

(** *** The schedule *)

(** A pass that is skipped changes nothing: in particular it requests no
    further animation frame. *)
Lemma draw_skipped (a : AspectRatio) (s : Stage) :
  skips s = true -> draw a s = s.
Proof.
  unfold skips, draw. intros Hs.
  destruct (videoRef s); [|reflexivity].
  destruct (canvasRef s) as [c|]; [|reflexivity].
  destruct (has_context2d c); [discriminate|reflexivity].
Qed.

(** A pass that draws requests the next frame. *)
Lemma draw_done_schedules (a : AspectRatio) (s : Stage) :
  skips s = false ->
  pending (draw a s) = pending s ++ [next_handle s] /\
  animationFrameRef (draw a s) = Some (next_handle s).
Proof.
  unfold skips, draw. intros Hs.
  destruct (videoRef s); [|discriminate].
  destruct (canvasRef s) as [c|]; [|discriminate].
  destruct (has_context2d c); [|discriminate].
  cbn. split; reflexivity.
Qed.

(** C1 as stated fails: on a tick whose pass is skipped because no 2D
    context can be obtained, [draw] returns at its guard, before its
    [requestAnimationFrame]; nothing is pending afterwards and no later
    tick runs, where the same stage with a context runs every tick asked
    of it. *)
Lemma draw_without_context_requests_nothing :
  skips no_context_stage = true /\
  (forall a, draw a no_context_stage = no_context_stage) /\
  (forall a, option_map pending (tick a no_context_stage) = Some []) /\
  (forall a, fst (ticks a 10 no_context_stage) = 1%nat) /\
  (forall a, fst (ticks a 10 ready_stage) = 10%nat).
Proof.
  split; [reflexivity|].
  repeat split; intros a; destruct a; vm_compute; reflexivity.
Qed.

(** C1, as amended: a pass that is skipped (video element or canvas
    missing, or no 2D context) returns at its guard: it draws nothing,
    changes nothing and requests no frame, so the loop rests; a pass that
    draws requests exactly one further frame and stays able to draw; and
    the loop is requested anew when the effect runs with a stream, not
    when it runs without one. *)
Theorem draw_skip_rests_until_effect (a : AspectRatio) (s : Stage) :
  (if skips s
   then draw a s = s
   else pending (draw a s) = pending s ++ [next_handle s] /\
        animationFrameRef (draw a s) = Some (next_handle s) /\
        skips (draw a s) = false) /\
  pending (start_loop true s) = pending s ++ [next_handle s] /\
  animationFrameRef (start_loop true s) = Some (next_handle s) /\
  start_loop false s = s.
Proof.
  split; [|repeat split].
  destruct (skips s) eqn:Hs.
  - apply draw_skipped, Hs.
  - destruct (draw_done_schedules a s Hs) as [Hp Hr].
    split; [exact Hp|]. split; [exact Hr|].
    unfold skips, draw in *.
    destruct (videoRef s) as [v|]; [|discriminate].
    destruct (canvasRef s) as [c|]; [|discriminate].
    destruct (has_context2d c) eqn:Hc; [|discriminate].
    cbn. unfold resize. destruct (_ || _); cbn; now rewrite Hc.
Qed.

End CompositorProps.

(** ** Audio uplink codec *)

Module UplinkCodecProps.
Import UplinkCodec.

Ltac euclid := zify; Z.to_euclidean_division_equations; lia.

(** *** Base64 *)

Lemma sextets_ok : forallb sextet_ok sextets = true.
Proof. vm_compute. reflexivity. Qed.

Lemma in_sextets (n : N) : (n < 64)%N -> In n sextets.
Proof.
  intros Hn. unfold sextets. rewrite <- (N2Nat.id n).
  apply in_map, in_seq. lia.
Qed.

Lemma b64_index_char (n : N) :
  (n < 64)%N ->
  b64_index (b64_char n) = Some n /\ Ascii.eqb (b64_char n) pad = false.
Proof.
  intros Hn. pose proof sextets_ok as Hall.
  rewrite forallb_forall in Hall. specialize (Hall n (in_sextets n Hn)).
  unfold sextet_ok in Hall. apply andb_true_iff in Hall. destruct Hall as [Hi Hp].
  destruct (b64_index (b64_char n)) as [m|]; [|discriminate].
  apply N.eqb_eq in Hi. subst m. split; [reflexivity|].
  now apply negb_true_iff in Hp.
Qed.

Lemma N_of_ascii_bound (a : ascii) : (N_of_ascii a < 256)%N.
Proof. destruct a as [[] [] [] [] [] [] [] []]; vm_compute; reflexivity. Qed.

Lemma string_ind3 (P : string -> Prop) :
  P EmptyString ->
  (forall a, P (String a EmptyString)) ->
  (forall a b, P (String a (String b EmptyString))) ->
  (forall a b c rest, P rest -> P (String a (String b (String c rest)))) ->
  forall s, P s.
Proof.
  intros H0 H1 H2 H3 s.
  assert (H : P s /\ (forall a, P (String a s)) /\
              (forall a b, P (String a (String b s)))).
  { induction s as [|c s (IHs & IH1 & IH2)]; [now auto|].
    split; [apply IH1|]. split; [intros a; apply IH2|].
    intros a b. apply H3, IHs. }
  apply H.
Qed.

Lemma atob_btoa (binary : string) : atob (btoa binary) = Some binary.
Proof.
  induction binary as [|a|a b|a b c rest IH] using string_ind3.
  - reflexivity.
  - cbn [btoa].
    pose proof (N_of_ascii_bound a) as Ha.
    set (x := N_of_ascii a) in *.
    destruct (b64_index_char (x / 4)) as [E0 _]; [euclid|].
    destruct (b64_index_char (x mod 4 * 16)) as [E1 _]; [euclid|].
    cbn [atob]. rewrite E0, E1. cbn.
    replace (x / 4 * 4 + x mod 4 * 16 / 16)%N with x by euclid.
    unfold x. now rewrite ascii_N_embedding.
  - cbn [btoa].
    pose proof (N_of_ascii_bound a) as Ha. pose proof (N_of_ascii_bound b) as Hb.
    set (x := N_of_ascii a) in *. set (y := N_of_ascii b) in *.
    destruct (b64_index_char (x / 4)) as [E0 _]; [euclid|].
    destruct (b64_index_char (x mod 4 * 16 + y / 16)) as [E1 _]; [euclid|].
    destruct (b64_index_char (y mod 16 * 4)) as [E2 P2]; [euclid|].
    cbn [atob]. rewrite E0, E1, P2, E2. cbn.
    replace (x / 4 * 4 + (x mod 4 * 16 + y / 16) / 16)%N with x by euclid.
    replace ((x mod 4 * 16 + y / 16) mod 16 * 16 + y mod 16 * 4 / 4)%N with y by euclid.
    unfold x, y. now rewrite !ascii_N_embedding.
  - cbn [btoa].
    pose proof (N_of_ascii_bound a) as Ha. pose proof (N_of_ascii_bound b) as Hb.
    pose proof (N_of_ascii_bound c) as Hc.
    set (x := N_of_ascii a) in *. set (y := N_of_ascii b) in *.
    set (z := N_of_ascii c) in *.
    destruct (b64_index_char (x / 4)) as [E0 _]; [euclid|].
    destruct (b64_index_char (x mod 4 * 16 + y / 16)) as [E1 _]; [euclid|].
    destruct (b64_index_char (y mod 16 * 4 + z / 64)) as [E2 P2]; [euclid|].
    destruct (b64_index_char (z mod 64)) as [E3 P3]; [euclid|].
    cbn [atob]. rewrite E0, E1, P2, E2, P3, E3, IH.
    replace (x / 4 * 4 + (x mod 4 * 16 + y / 16) / 16)%N with x by euclid.
    replace ((x mod 4 * 16 + y / 16) mod 16 * 16 + (y mod 16 * 4 + z / 64) / 4)%N
      with y by euclid.
    replace ((y mod 16 * 4 + z / 64) mod 4 * 64 + z mod 64)%N with z by euclid.
    unfold x, y, z. now rewrite !ascii_N_embedding.
Qed.

(** *** Bytes of the [Int16Array] *)

Local Open Scope Z_scope.

Lemma ToInt16_is_int16 (x : float32) : is_int16 (ToInt16 x).
Proof.
  unfold is_int16, ToInt16. destruct x as [q| |]; [|lia|lia].
  cbv zeta. destruct (Z.leb_spec 32768 (Qtrunc q mod 65536)); euclid.
Qed.

Lemma low_byte (v : Z) : Z.land v 255 = v mod 256.
Proof. change 255 with (Z.ones 8). rewrite Z.land_ones by lia. reflexivity. Qed.

Lemma high_byte (v : Z) : Z.land (Z.shiftr v 8) 255 = (v / 256) mod 256.
Proof. rewrite low_byte, Z.shiftr_div_pow2 by lia. reflexivity. Qed.

Lemma N_of_fromCharCode (b : Z) :
  0 <= b < 256 -> Z.of_N (N_of_ascii (fromCharCode b)) = b.
Proof.
  intros Hb. unfold fromCharCode. rewrite N_ascii_embedding by lia. lia.
Qed.

Lemma int16_of_its_bytes (v : Z) :
  is_int16 v ->
  int16_of_bytes (fromCharCode (Z.land v 255))
                 (fromCharCode (Z.land (Z.shiftr v 8) 255)) = v.
Proof.
  unfold is_int16, int16_of_bytes. intros Hv.
  rewrite low_byte, high_byte, !N_of_fromCharCode by euclid.
  cbv zeta. destruct (Z.leb_spec 32768 (v mod 256 + 256 * ((v / 256) mod 256))); euclid.
Qed.

Lemma int16_le_buffer (int16 : list Z) :
  Forall is_int16 int16 ->
  int16_le (binary_of (buffer_bytes int16)) = Some int16.
Proof.
  induction 1 as [|v int16 Hv _ IH]; [reflexivity|].
  cbn [buffer_bytes flat_map bytes_of_int16 app binary_of int16_le].
  fold (buffer_bytes int16). rewrite IH, int16_of_its_bytes by exact Hv.
  reflexivity.
Qed.

(** What the receiver reads back is exactly what was stored in the
    [Int16Array]. *)
Lemma decode_createBlob (samples : list float32) :
  decode_payload (createBlob samples) = Some (quantize samples).
Proof.
  unfold decode_payload, createBlob. cbn [data]. rewrite atob_btoa.
  apply int16_le_buffer. unfold quantize.
  apply Forall_map, Forall_forall. intros x _. apply ToInt16_is_int16.
Qed.

(** *** Quantisation *)

Lemma Qtrunc_scaled (q : Q) :
  Qtrunc (q * (32768 # 1)) = Z.quot (Qnum q * 32768) (Zpos (Qden q)).
Proof.
  unfold Qtrunc. cbn. now rewrite Pos.mul_1_r.
Qed.

Lemma quantize_in_range (q : Q) :
  (-1 <= q)%Q -> (q < 1)%Q ->
  ToInt16 (scale (F32 q)) = Qtrunc (q * (32768 # 1)).
Proof.
  unfold Qle, Qlt. cbn [Qnum Qden]. intros Hlo Hhi.
  cbn [scale ToInt16]. cbv zeta. rewrite Qtrunc_scaled.
  set (n := Qnum q) in *. set (d := Zpos (Qden q)) in *.
  assert (Hd : 0 < d) by (unfold d; lia).
  assert (Ht : -32768 <= Z.quot (n * 32768) d <= 32767) by (Z.to_euclidean_division_equations; nia).
  destruct (Z.leb_spec 32768 (Z.quot (n * 32768) d mod 65536)); euclid.
Qed.

(** Truncation toward zero is the floor of a number that is not negative
    and the ceiling of one that is not positive. *)
Lemma Qtrunc_floor (q : Q) : (0 <= q)%Q -> Qtrunc q = Qfloor q.
Proof.
  destruct q as [n d]. unfold Qle, Qtrunc, Qfloor. cbn. intros Hq.
  apply Z.quot_div_nonneg; lia.
Qed.

Lemma Qtrunc_ceiling (q : Q) : (q <= 0)%Q -> Qtrunc q = Qceiling q.
Proof.
  destruct q as [n d]. unfold Qle, Qtrunc, Qceiling, Qfloor. cbn. intros Hq.
  rewrite <- (Z.opp_involutive n) at 1. rewrite Z.quot_opp_l by lia.
  f_equal. apply Z.quot_div_nonneg; lia.
Qed.

(** *** The round-trip property *)

(** C2 as stated fails: the store into the [Int16Array] truncates, it does
    not round.  The sample 3 * 2^-17 lies in [-1,1], scales to 0.75, which
    rounds to 1, and is stored and read back as 0; the sample -1/3 scales to
    -10922.67 and is read back as -10922, not -10923. *)
Lemma encode_does_not_round :
  (Forall in_unit_range [3 # 131072] /\
   round ((3 # 131072) * (32768 # 1)) = 1 /\
   decode_payload (createBlob [F32 (3 # 131072)]) = Some [0] /\
   ~ quantizes_by_rounding [3 # 131072]) /\
  (Forall in_unit_range [-1 # 3] /\
   round ((-1 # 3) * (32768 # 1)) = -10923 /\
   decode_payload (createBlob [F32 (-1 # 3)]) = Some [-10922] /\
   ~ quantizes_by_rounding [-1 # 3]).
Proof.
  split.
  - split; [repeat constructor; unfold Qle; cbn; lia|].
    split; [reflexivity|]. split; [reflexivity|].
    unfold quantizes_by_rounding. vm_compute. discriminate.
  - split; [repeat constructor; unfold Qle; cbn; lia|].
    split; [reflexivity|]. split; [reflexivity|].
    unfold quantizes_by_rounding. vm_compute. discriminate.
Qed.

(** C2, as amended: for samples in [-1,1) the packet's payload, decoded
    from base64 and read as little-endian 16-bit signed integers, is the
    scaled sample truncated toward zero, trunc(s * 32768), at every
    position; the packet declares 16 kHz PCM. *)
Theorem encode_truncates (samples : list Q) :
  Forall (fun s => (-1 <= s)%Q /\ (s < 1)%Q) samples ->
  decode_payload (createBlob (map F32 samples))
  = Some (map (fun s => Qtrunc (s * (32768 # 1))) samples) /\
  mimeType (createBlob (map F32 samples)) = "audio/pcm;rate=16000"%string.
Proof.
  intros Hrange. split; [|reflexivity].
  rewrite decode_createBlob. f_equal. unfold quantize. rewrite map_map.
  apply map_ext_in. intros s Hs.
  rewrite Forall_forall in Hrange. destruct (Hrange s Hs) as [Hlo Hhi].
  apply quantize_in_range; assumption.
Qed.

Lemma encode_truncates_witness :
  Forall (fun s => (-1 <= s)%Q /\ (s < 1)%Q) [1 # 2; -1 # 1; 3 # 131072; -1 # 3] /\
  decode_payload (createBlob (map F32 [1 # 2; -1 # 1; 3 # 131072; -1 # 3]))
  = Some [16384; -32768; 0; -10922].
Proof.
  assert (Hrange : Forall (fun s => (-1 <= s)%Q /\ (s < 1)%Q)
                          [1 # 2; -1 # 1; 3 # 131072; -1 # 3])
    by (repeat constructor; unfold Qle, Qlt; cbn; lia).
  split; [exact Hrange|].
  exact (proj1 (encode_truncates _ Hrange)).
Defined.

(** C10: every finite sample is stored as its scaled value truncated
    toward zero and reduced modulo 2^16 into the signed 16-bit range; the
    sample 1.0 scales to 32768 and is therefore stored, sent and read back
    as -32768, neither 32768 nor 32767. *)
Theorem full_scale_sample_wraps :
  (forall q : Q,
     is_int16 (ToInt16 (scale (F32 q))) /\
     (ToInt16 (scale (F32 q)) - Qtrunc (q * (32768 # 1))) mod 65536 = 0) /\
  in_unit_range 1 /\
  Qtrunc (1 * (32768 # 1)) = 32768 /\
  quantize [F32 1] = [-32768] /\
  buffer_bytes (quantize [F32 1]) = [0; 128] /\
  data (createBlob [F32 1]) = "AIA="%string /\
  decode_payload (createBlob [F32 1]) = Some [-32768].
Proof.
  split.
  - intros q. split; [apply ToInt16_is_int16|].
    cbn [scale ToInt16]. cbv zeta.
    destruct (Z.leb_spec 32768 (Qtrunc (q * (32768 # 1)) mod 65536)); euclid.
  - split; [unfold in_unit_range, Qle; cbn; lia|].
    repeat split; reflexivity.
Qed.

End UplinkCodecProps.

(** ** Assistant session *)

Module AssistantProps.
Import Assistant.

Ltac run := unfold exec, completes; cbn.

(** *** The text reducer *)

Lemma string_app_nil (a : string) : (a ++ "")%string = a.
Proof. induction a as [|x a IH]; cbn; [reflexivity | now rewrite IH]. Qed.

Lemma string_app_assoc (a b c : string) :
  ((a ++ b) ++ c = a ++ (b ++ c))%string.
Proof. induction a as [|x a IH]; cbn; [reflexivity | now rewrite IH]. Qed.

Lemma onmessage_text_event (fragment : string) (h : Hook) :
  exec (onmessage (text_event fragment)) h
  = mkHook (currentQuestion h ++ fragment) (isConnected h) (sessionRef h)
           (audioContextRef h) (scriptProcessorRef h) (sourceRef h) (calls h)
           (console h).
Proof.
  destruct h as [q ? ? ? ? ? ? ?]. destruct fragment as [|c fragment]; run.
  - now rewrite string_app_nil.
  - reflexivity.
Qed.

Lemma receive_text_events (fragments : list string) (h : Hook) :
  currentQuestion (receive (map text_event fragments) h)
  = (currentQuestion h ++ String.concat "" fragments)%string.
Proof.
  revert h. induction fragments as [|f fragments IH]; intros h.
  - cbn. now rewrite string_app_nil.
  - change (receive (map text_event (f :: fragments)) h)
      with (receive (map text_event fragments) (exec (onmessage (text_event f)) h)).
    rewrite IH, onmessage_text_event. cbn [currentQuestion].
    rewrite string_app_assoc. f_equal.
    destruct fragments as [|g fragments]; cbn; [|reflexivity].
    apply string_app_nil.
Qed.

(** C6: text events are reduced in arrival order, each fragment appended
    to the prompt, repeated fragments included; the fragments "Wh", "at",
    " do", " you", " love?" received from an empty prompt give
    "What do you love?". *)
Theorem text_events_append_in_order (fragments : list string) (h : Hook) :
  currentQuestion (receive (map text_event fragments) h)
  = (currentQuestion h ++ String.concat "" fragments)%string /\
  (forall f g : string,
     currentQuestion (receive [text_event f; text_event g] h)
     = ((currentQuestion h ++ f) ++ g)%string) /\
  (forall f : string,
     currentQuestion (receive [text_event f; text_event f] h)
     = ((currentQuestion h ++ f) ++ f)%string) /\
  currentQuestion
    (receive (map text_event ["Wh"; "at"; " do"; " you"; " love?"]%string)
             (exec (setCurrentQuestion (fun _ => EmptyString)) h))
  = "What do you love?"%string.
Proof.
  split; [apply receive_text_events|].
  split; [|split].
  - intros f g. unfold receive. cbn [fold_left].
    now rewrite !onmessage_text_event.
  - intros f. unfold receive. cbn [fold_left].
    now rewrite !onmessage_text_event.
  - rewrite receive_text_events. reflexivity.
Qed.

(** *** Turn completion *)

Lemma onmessage_turnComplete_irrelevant (flag : option bool)
    (m : LiveServerMessage) (h : Hook) :
  currentQuestion (exec (onmessage (with_turnComplete flag m)) h)
  = currentQuestion (exec (onmessage m) h).
Proof.
  destruct m as [[[ot tc]|]]; unfold with_turnComplete; cbn [serverContent];
    [|reflexivity].
  destruct h as [q ? ? ? ? ? ? ?].
  destruct ot as [[[[|c t]|]]|].
  all: destruct flag as [[|]|], tc as [[|]|]; reflexivity.
Qed.

(** C8: a turn-complete event leaves the prompt as it is, and the
    turn-complete flag of a message never influences the prompt; the prompt
    is emptied by a teardown and by the recorder's stop handler. *)
Theorem turn_complete_keeps_prompt (h : Hook) :
  currentQuestion (exec (onmessage turn_complete_event) h) = currentQuestion h /\
  (forall (flag : option bool) (m : LiveServerMessage),
     currentQuestion (exec (onmessage (with_turnComplete flag m)) h)
     = currentQuestion (exec (onmessage m) h)) /\
  (forall fragments : list string,
     currentQuestion
       (receive (map text_event fragments ++ [turn_complete_event]) h)
     = currentQuestion (receive (map text_event fragments) h)) /\
  currentQuestion (exec cleanup h) = EmptyString /\
  (forall c : Capture.Component,
     currentQuestion (Capture.hook (Capture.onstop c)) = EmptyString).
Proof.
  split; [destruct h; reflexivity|].
  split; [intros flag m; apply onmessage_turnComplete_irrelevant|].
  split; [|split].
  - intros fragments. unfold receive. rewrite fold_left_app. cbn [fold_left].
    destruct (fold_left _ _ h); reflexivity.
  - destruct h as [q b [s|] [[c []]|] [[p []]|] [[n []]|] l k]; reflexivity.
  - intros c. destruct c as [? ? ? ? ? [q ? ? ? ? ? ? ?]]. reflexivity.
Qed.

(** *** Teardown *)

(** What a teardown always does, and what it does when no handle raises. *)
Lemma cleanup_outcome (h : Hook) :
  isConnected (exec cleanup h) = false /\
  currentQuestion (exec cleanup h) = EmptyString /\
  sessionRef (exec cleanup h) = None /\
  completes cleanup h = releases_quietly h /\
  handles_cleared (exec cleanup h) = releases_quietly h /\
  exists rest : list Call,
    (calls h ++ teardown_calls h = calls (exec cleanup h) ++ rest)%list /\
    if releases_quietly h then rest = [] else rest <> [].
Proof.
  destruct h as [q b [s|] [[c [|]]|] [[p [|]]|] [[n [|]]|] l k];
    (repeat (split; [reflexivity|]));
    unfold exec, teardown_calls; cbn;
    eexists; (split; [rewrite <- ?app_assoc; cbn; reflexivity|]);
    (discriminate || reflexivity).
Qed.


(** C4 as stated fails: the actions of [cleanup] are not guarded one by
    one.  When the processing node raises, the teardown stops there: the
    source node is never disconnected and the audio context never closed,
    although neither would raise, and both handles stay held. *)
Lemma cleanup_stops_at_first_raise :
  completes cleanup raising_processor = false /\
  calls (exec cleanup raising_processor) = [ThenClose 1] /\
  (In (Disconnect 3) (teardown_calls raising_processor) /\
   ~ In (Disconnect 3) (calls (exec cleanup raising_processor))) /\
  (In (Close 4) (teardown_calls raising_processor) /\
   ~ In (Close 4) (calls (exec cleanup raising_processor))) /\
  sourceRef (exec cleanup raising_processor) = Some (mkNode 3 false) /\
  audioContextRef (exec cleanup raising_processor) = Some (mkContext 4 false).
Proof.
  split; [reflexivity|]. split; [reflexivity|].
  split; [split; [cbn; tauto | cbn; intros [H|[]]; discriminate]|].
  split; [split; [cbn; tauto | cbn; intros [H|[]]; discriminate]|].
  split; reflexivity.
Qed.

(** C4, as amended: the teardown is a plain sequence without guards.  It
    always sets the state to disconnected, empties the prompt and hands the
    remote connection over for closing; then it releases the processing
    node, the source node and the context, in that order, clearing each
    handle after its release.  The first release that raises ends the
    teardown there: the releases before it have run and their handles are
    cleared, its own handle and the later ones stay held and the later
    releases do not run.  With no raising release all four actions run and
    every handle is cleared. *)
Theorem cleanup_runs_in_sequence (h : Hook) :
  exec cleanup h
  = match first_raising h with
    | None =>
        mkHook EmptyString false None None None None
               (calls h ++ session_calls h ++ processor_calls h ++ source_calls h
                ++ match audioContextRef h with
                   | Some c => [Close (context_id c)]
                   | None => []
                   end)
               (console h)
    | Some release_processor =>
        mkHook EmptyString false None (audioContextRef h) (scriptProcessorRef h)
               (sourceRef h) (calls h ++ session_calls h) (console h)
    | Some release_source =>
        mkHook EmptyString false None (audioContextRef h) None (sourceRef h)
               (calls h ++ session_calls h ++ processor_calls h) (console h)
    | Some release_context =>
        mkHook EmptyString false None (audioContextRef h) None None
               (calls h ++ session_calls h ++ processor_calls h ++ source_calls h)
               (console h)
    end /\
  completes cleanup h = match first_raising h with None => true | Some _ => false end.
Proof.
  destruct h as [q b [s|] [[c [|]]|] [[p [|]]|] [[n [|]]|] l k];
    unfold exec, completes, first_raising, session_calls, processor_calls, source_calls;
    cbn; rewrite <- ?app_assoc, ?app_nil_r; cbn; split; reflexivity.
Qed.




End AssistantProps.

(** ** Capture session *)

Module CaptureProps.
Import Capture.

(** Draining the queue hands over one blob per queued [stop] event. *)
Lemma fold_handle_completed (events : list Event) (c : Component) :
  List.length (completed (fold_left (fun c e => handle e c) events c))
  = (List.length (completed c) + List.length (filter is_stop events))%nat.
Proof.
  revert c. induction events as [|e events IH]; intros c; cbn [fold_left filter].
  - cbn. lia.
  - rewrite IH. destruct e as [d|]; cbn [is_stop handle].
    + unfold ondataavailable. destruct (0 <? size d)%nat; cbn; lia.
    + unfold onstop. cbn. rewrite length_app. cbn. lia.
Qed.

Lemma drain_completed (c : Component) :
  List.length (completed (drain c))
  = (List.length (completed c) + List.length (filter is_stop (queue c)))%nat.
Proof. unfold drain. rewrite fold_handle_completed. reflexivity. Qed.

(** Data events hand nothing over. *)
Lemma ondataavailable_completed (d : Blob) (c : Component) :
  completed (ondataavailable d c) = completed c.
Proof. unfold ondataavailable. destruct (0 <? size d)%nat; reflexivity. Qed.

Lemma fold_handle_no_stop (events : list Event) (c : Component) :
  filter is_stop events = [] ->
  completed (fold_left (fun c e => handle e c) events c) = completed c.
Proof.
  revert c. induction events as [|e events IH]; intros c; cbn [fold_left filter].
  - reflexivity.
  - destruct e as [d|]; cbn [is_stop handle]; [|discriminate].
    intros Hnone. rewrite IH by exact Hnone.
    apply ondataavailable_completed.
Qed.

(** Stopping when no session is active changes nothing. *)
Lemma stop_idle_noop (c : Component) :
  active c = false -> recording_effect false c = c.
Proof.
  unfold active, recording_effect. destruct (mediaRecorderRef c) as [r|]; [|reflexivity].
  intros ->. reflexivity.
Qed.

(** Stopping leaves no session active. *)
Lemma stop_deactivates (c : Component) :
  active (recording_effect false c) = false.
Proof.
  unfold active, recording_effect. destruct (mediaRecorderRef c) as [r|] eqn:Hr.
  - destruct (is_inactive (state r)) eqn:Hs; cbn; [rewrite Hr, Hs|]; reflexivity.
  - rewrite Hr. reflexivity.
Qed.

(** Stopping an active session queues exactly one [stop] event. *)
Lemma stop_active_queues_one (c : Component) :
  active c = true ->
  exists data : Blob,
    queue (recording_effect false c) = queue c ++ [dataavailable data; stop_event] /\
    completed (recording_effect false c) = completed c.
Proof.
  unfold active, recording_effect. destruct (mediaRecorderRef c) as [r|]; [|discriminate].
  intros ->. cbn. eexists. split; reflexivity.
Qed.

(** The handlers leave the recorder as it is. *)
Lemma fold_handle_recorder (events : list Event) (c : Component) :
  mediaRecorderRef (fold_left (fun c e => handle e c) events c) = mediaRecorderRef c.
Proof.
  revert c. induction events as [|e events IH]; intros c; cbn [fold_left].
  - reflexivity.
  - rewrite IH. destruct e as [d|]; cbn [handle]; [|reflexivity].
    unfold ondataavailable. destruct (0 <? size d)%nat; reflexivity.
Qed.

Lemma drain_active (c : Component) : active (drain c) = active c.
Proof. unfold active, drain. rewrite fold_handle_recorder. reflexivity. Qed.

(** C7: stopping an active session twice in a row hands exactly one
    finished blob to [onRecordingComplete]: the first stop makes the recorder
    inactive and queues one [stop] event, the second stop changes nothing,
    whether it comes before or after the queued events have run; and a stop
    with no session active changes nothing. *)
Theorem stop_twice_emits_once (c : Component) :
  active c = true ->
  filter is_stop (queue c) = [] ->
  let once := recording_effect false c in
  let twice := recording_effect false once in
  twice = once /\
  recording_effect false (drain once) = drain once /\
  (exists blob : Blob,
     completed (drain twice) = completed c ++ [blob] /\ type blob = "video/mp4"%string) /\
  List.length (completed (drain twice)) = S (List.length (completed c)) /\
  (forall idle : Component, active idle = false -> recording_effect false idle = idle).
Proof.
  intros Hactive Hclean once twice.
  assert (Hsame : twice = once) by (apply stop_idle_noop, stop_deactivates).
  split; [exact Hsame|]. rewrite Hsame.
  split; [apply stop_idle_noop; rewrite drain_active; apply stop_deactivates|].
  destruct (stop_active_queues_one c Hactive) as (data & Hqueue & Hdone).
  fold once in Hqueue, Hdone.
  assert (Hlen : List.length (completed (drain once)) = S (List.length (completed c))).
  { rewrite drain_completed, Hqueue, Hdone, filter_app, Hclean. cbn. lia. }
  split; [|split; [exact Hlen | exact stop_idle_noop]].
  unfold drain. rewrite Hqueue, fold_left_app. cbn [fold_left handle].
  unfold onstop at 1. cbn [completed].
  rewrite ondataavailable_completed, (fold_handle_no_stop _ _ Hclean).
  cbn [completed]. rewrite Hdone.
  eexists. split; reflexivity.
Qed.

Lemma stop_twice_emits_once_witness :
  active recording_session = true /\
  filter is_stop (queue recording_session) = [] /\
  recording_effect false (recording_effect false recording_session)
  = recording_effect false recording_session /\
  completed (drain (recording_effect false (recording_effect false recording_session)))
  = [mkBlob [1; 2; 3; 4; 5; 7; 8]%Z "video/mp4"].
Proof.
  split; [reflexivity|]. split; [reflexivity|].
  split; [|reflexivity].
  apply (stop_twice_emits_once recording_session); reflexivity.
Defined.

End CaptureProps.

(** ** Frame compositor: the loop and the surface *)

Module CompositorLoop.
Import Compositor CompositorProps.

(** *** The loop while the source is live *)

Lemma draw_ready (a : AspectRatio) (s : Stage) :
  skips s = false ->
  skips (draw a s) = false /\
  pending (draw a s) = pending s ++ [next_handle s] /\
  next_handle (draw a s) = S (next_handle s) /\
  animationFrameRef (draw a s) = Some (next_handle s).
Proof.
  unfold skips, draw. intros Hs.
  destruct (videoRef s) as [v|]; [|discriminate].
  destruct (canvasRef s) as [c|]; [|discriminate].
  destruct (has_context2d c) eqn:Hc; [|discriminate].
  cbn. unfold resize. destruct (_ || _); cbn; rewrite ?Hc; repeat split; reflexivity.
Qed.

Lemma ticks_ready (a : AspectRatio) (n : nat) (s : Stage) :
  skips s = false -> pending s <> [] ->
  fst (ticks a n s) = n /\
  next_handle (snd (ticks a n s)) = (next_handle s + n)%nat /\
  skips (snd (ticks a n s)) = false.
Proof.
  revert s. induction n as [|n IH]; intros s Hs Hp; cbn [ticks].
  - cbn. repeat split; [lia | exact Hs].
  - unfold tick. destruct (pending s) as [|h rest] eqn:Hq; [congruence|].
    set (s1 := mkStage (videoRef s) (canvasRef s) (animationFrameRef s) rest (next_handle s)).
    assert (Hs1 : skips s1 = false) by exact Hs.
    destruct (draw_ready a s1 Hs1) as (Hk & Hpend & Hnext & _).
    assert (Hne : pending (draw a s1) <> []).
    { rewrite Hpend. intros E. apply app_eq_nil in E. destruct E; discriminate. }
    destruct (IH (draw a s1) Hk Hne) as (Hfst & Hnh & Hsk).
    destruct (ticks a n (draw a s1)) as [k s2]. cbn in *.
    rewrite Hnext in Hnh. cbn in Hnh.
    repeat split; [congruence | lia | exact Hsk].
Qed.

(** X1: while the video element and a 2D context are there, the loop never
    stops: any number of display refreshes each run one pass, and each
    pass requests exactly one further frame. *)
Theorem loop_runs_while_source_live (a : AspectRatio) (n : nat) (s : Stage) :
  skips s = false -> pending s <> [] ->
  fst (ticks a n s) = n /\
  next_handle (snd (ticks a n s)) = (next_handle s + n)%nat.
Proof.
  intros Hs Hp. destruct (ticks_ready a n s Hs Hp) as (H1 & H2 & _).
  split; assumption.
Qed.

Lemma loop_runs_while_source_live_witness :
  skips ready_stage = false /\ pending ready_stage <> [] /\
  fst (ticks SQUARE_1_1 25 ready_stage) = 25%nat.
Proof.
  assert (Hs : skips ready_stage = false) by reflexivity.
  assert (Hp : pending ready_stage <> []) by discriminate.
  split; [exact Hs|]. split; [exact Hp|].
  exact (proj1 (loop_runs_while_source_live SQUARE_1_1 25 ready_stage Hs Hp)).
Defined.

(** *** One request pending at most *)

Lemma one_pending_cases (s : Stage) :
  one_pending s = true ->
  (0 < next_handle s)%nat /\
  (pending s = [] \/
   exists h, pending s = [h] /\ animationFrameRef s = Some h /\
             (0 < h)%nat /\ (h < next_handle s)%nat).
Proof.
  unfold one_pending. intros H. apply andb_true_iff in H. destruct H as [Hn H].
  apply Nat.ltb_lt in Hn. split; [exact Hn|].
  destruct (pending s) as [|h [|h' rest]]; [now left | | discriminate].
  right. exists h. destruct (animationFrameRef s) as [k|]; [|discriminate].
  apply andb_true_iff in H. destruct H as [H H3].
  apply andb_true_iff in H. destruct H as [H1 H2].
  apply Nat.eqb_eq in H1. apply Nat.ltb_lt in H2, H3. subst k. auto.
Qed.

Lemma one_pending_none (s : Stage) :
  (0 < next_handle s)%nat -> pending s = [] -> one_pending s = true.
Proof.
  intros Hn Hp. unfold one_pending. rewrite Hp.
  apply andb_true_iff. split; [now apply Nat.ltb_lt | reflexivity].
Qed.

Lemma one_pending_one (s : Stage) (h : nat) :
  (0 < h)%nat -> (h < next_handle s)%nat ->
  pending s = [h] -> animationFrameRef s = Some h -> one_pending s = true.
Proof.
  intros Hh Hlt Hp Hr. unfold one_pending. rewrite Hp, Hr, Nat.eqb_refl.
  repeat (apply andb_true_iff; split); try reflexivity; apply Nat.ltb_lt; lia.
Qed.

Lemma stop_loop_clears (s : Stage) :
  one_pending s = true ->
  pending (stop_loop s) = [] /\ one_pending (stop_loop s) = true.
Proof.
  intros H. destruct (one_pending_cases s H) as (Hn & [Hp | (h & Hp & Hr & Hh & Hlt)]).
  - unfold stop_loop. destruct (animationFrameRef s) as [k|].
    + destruct (Nat.eqb k 0).
      * split; [exact Hp | exact H].
      * assert (E : pending (cancelAnimationFrame k s) = [])
          by (unfold cancelAnimationFrame; cbn; now rewrite Hp).
        split; [exact E | apply one_pending_none; [exact Hn | exact E]].
    + split; [exact Hp | exact H].
  - unfold stop_loop. rewrite Hr.
    destruct (Nat.eqb h 0) eqn:E0; [apply Nat.eqb_eq in E0; lia|].
    assert (E : pending (cancelAnimationFrame h s) = []).
    { unfold cancelAnimationFrame. cbn. rewrite Hp. cbn. now rewrite Nat.eqb_refl. }
    split; [exact E | apply one_pending_none; [exact Hn | exact E]].
Qed.

Lemma start_loop_one_pending (b : bool) (s : Stage) :
  one_pending s = true -> pending s = [] -> one_pending (start_loop b s) = true.
Proof.
  intros H Hp. destruct (one_pending_cases s H) as (Hn & _).
  destruct b; [|exact H].
  apply (one_pending_one _ (next_handle s)); try exact Hn.
  - unfold start_loop, requestAnimationFrame. cbn. lia.
  - unfold start_loop, requestAnimationFrame. cbn. now rewrite Hp.
  - reflexivity.
Qed.

Lemma tick_one_pending (a : AspectRatio) (s s' : Stage) :
  one_pending s = true -> tick a s = Some s' -> one_pending s' = true.
Proof.
  intros H Ht. destruct (one_pending_cases s H) as (Hn & [Hp | (h & Hp & Hr & Hh & Hlt)]);
    unfold tick in Ht; rewrite Hp in Ht; [discriminate|].
  injection Ht as <-.
  set (s1 := mkStage (videoRef s) (canvasRef s) (animationFrameRef s) [] (next_handle s)).
  destruct (skips s1) eqn:Hs.
  - rewrite draw_skipped by exact Hs. apply one_pending_none; [exact Hn | reflexivity].
  - destruct (draw_ready a s1 Hs) as (_ & Hpend & Hnext & Href).
    apply (one_pending_one _ (next_handle s)); try exact Hn.
    + rewrite Hnext. cbn. lia.
    + rewrite Hpend. reflexivity.
    + exact Href.
Qed.

(** X2: the component never has more than one animation frame requested, and
    the one requested is the one [animationFrameRef] names: this holds at
    mount and is kept by every display refresh and by every re-run of the
    effect; so the cleanup of the effect leaves nothing pending, and no
    pass runs after it. *)
Theorem schedule_keeps_one_pending (s : Stage) :
  one_pending s = true ->
  (forall a s', tick a s = Some s' -> one_pending s' = true) /\
  (forall has_stream, one_pending (restart_loop has_stream s) = true) /\
  pending (stop_loop s) = [] /\
  (forall a, tick a (stop_loop s) = None).
Proof.
  intros H. destruct (stop_loop_clears s H) as [Hp Hs].
  split; [intros a s'; apply tick_one_pending; exact H|].
  split; [intros b; apply start_loop_one_pending; assumption|].
  split; [exact Hp|].
  intros a. unfold tick. now rewrite Hp.
Qed.

Lemma schedule_keeps_one_pending_witness :
  one_pending ready_stage = true /\
  pending (stop_loop ready_stage) = [] /\
  one_pending (restart_loop true ready_stage) = true.
Proof.
  assert (H : one_pending ready_stage = true) by reflexivity.
  destruct (schedule_keeps_one_pending ready_stage H) as (_ & H2 & H3 & _).
  split; [exact H|]. split; [exact H3 | exact (H2 true)].
Defined.

(** *** The output surface *)

Lemma resize_fits (config : VideoConfig) (c : Canvas) :
  canvas_width (resize config c) = width config /\
  canvas_height (resize config c) = height config /\
  has_context2d (resize config c) = has_context2d c.
Proof.
  unfold resize.
  destruct (canvas_width c =? width config)%Z eqn:Hw;
    destruct (canvas_height c =? height config)%Z eqn:Hh; cbn;
    repeat split; try reflexivity.
  all: try (apply Z.eqb_eq; assumption).
Qed.

Lemma resize_fitting (config : VideoConfig) (c : Canvas) :
  canvas_width c = width config -> canvas_height c = height config ->
  resize config c = c.
Proof.
  intros Hw Hh. unfold resize. rewrite Hw, Hh, !Z.eqb_refl. reflexivity.
Qed.

Lemma draw_on (a : AspectRatio) (v : Video) (c : Canvas) (ref : option nat)
    (queue : list nat) (next : nat) :
  has_context2d c = true ->
  let config := ASPECT_RATIO_CONFIGS a in
  let frame := mkDrawImage (crop (videoWidth v) (videoHeight v) (width config) (height config))
                           (width config) (height config) in
  draw a (mkStage (Some v) (Some c) ref queue next)
  = mkStage (Some v) (Some (drawImage frame (resize config c)))
            (Some next) (queue ++ [next]) (S next).
Proof. intros Hx. unfold draw. cbn. rewrite Hx. reflexivity. Qed.

(** X3: whatever its size before, after a pass the surface has the resolution
    configured for the ratio and the frame just drawn covers all of it; a
    surface that had another resolution was cleared first, and a further
    pass at the same ratio draws over the surface without clearing it. *)
Theorem draw_fits_surface (a : AspectRatio) (s : Stage) :
  skips s = false ->
  exists (before after : Canvas) (frame : DrawImage),
    canvasRef s = Some before /\
    canvasRef (draw a s) = Some after /\
    canvas_width after = width (ASPECT_RATIO_CONFIGS a) /\
    canvas_height after = height (ASPECT_RATIO_CONFIGS a) /\
    dWidth frame = canvas_width after /\ dHeight frame = canvas_height after /\
    painted after
    = frame :: (if ((canvas_width before =? canvas_width after)
                    && (canvas_height before =? canvas_height after))%Z
                then painted before else []) /\
    exists again : DrawImage,
      canvasRef (draw a (draw a s)) = Some (drawImage again after).
Proof.
  unfold skips. intros Hs. destruct s as [[v|] [c|] ref queue next]; try discriminate.
  cbn in Hs. destruct (has_context2d c) eqn:Hx; [|discriminate].
  pose proof (draw_on a v c ref queue next Hx) as Hdraw. cbv zeta in Hdraw.
  set (config := ASPECT_RATIO_CONFIGS a) in *.
  set (frame := mkDrawImage _ _ _) in *.
  destruct (resize_fits config c) as (Hw & Hh & Hk).
  set (after := drawImage frame (resize config c)) in *.
  assert (Hx' : has_context2d after = true) by (cbn; now rewrite Hk).
  exists c, after, frame.
  split; [reflexivity|]. split; [rewrite Hdraw; reflexivity|].
  split; [exact Hw|]. split; [exact Hh|].
  split; [cbn; now rewrite Hw|]. split; [cbn; now rewrite Hh|].
  split.
  - cbn [after drawImage painted canvas_width canvas_height]. rewrite Hw, Hh. f_equal.
    unfold resize.
    destruct (canvas_width c =? width config)%Z; destruct (canvas_height c =? height config)%Z;
      reflexivity.
  - exists frame. rewrite Hdraw, (draw_on a v after _ _ _ Hx'). cbn [canvasRef].
    fold config. rewrite (resize_fitting config after) by assumption.
    reflexivity.
Qed.

Lemma draw_fits_surface_witness :
  skips ready_stage = false /\
  exists after : Canvas,
    canvasRef (draw LANDSCAPE_16_9 ready_stage) = Some after /\
    canvas_width after = 720%Z /\ canvas_height after = 405%Z.
Proof.
  assert (Hs : skips ready_stage = false) by reflexivity.
  split; [exact Hs|].
  destruct (draw_fits_surface LANDSCAPE_16_9 ready_stage Hs)
    as (before & after & frame & _ & Hafter & Hw & Hh & _).
  exists after. split; [exact Hafter|]. split; [exact Hw | exact Hh].
Defined.

(** X4: before the video has a frame size (0x0) both ratios' comparison is
    with NaN and fails, and the second branch yields the empty rectangle,
    without NaN: the pass draws nothing visible and the loop goes on. *)
Theorem draw_before_first_frame (a : AspectRatio) (canvas : Canvas)
    (ref : option nat) (queue : list nat) (next : nat) :
  let s := mkStage (Some (mkVideo 0 0)) (Some canvas) ref queue next in
  crop_for (T:=float) a 0 0 = mkRect 0%float 0%float 0%float 0%float /\
  (if has_context2d canvas
   then pending (draw a s) = queue ++ [next] /\
        exists after, canvasRef (draw a s) = Some after /\
                      option_map src (hd_error (painted after))
                      = Some (mkRect 0%float 0%float 0%float 0%float)
   else draw a s = s).
Proof.
  cbv zeta. split; [destruct a; vm_compute; reflexivity|].
  destruct canvas as [w h [|] p]; cbn [has_context2d]; [|reflexivity].
  split; [reflexivity|]. eexists. split; [reflexivity|].
  cbn. f_equal. destruct a; vm_compute; reflexivity.
Qed.

End CompositorLoop.

(** ** Audio uplink codec: any input, size, and the quantiser *)

Module UplinkCodecMore.
Import UplinkCodec UplinkCodecProps.

Local Open Scope Z_scope.

(** *** Any input *)

(** X7: whatever the samples (out of range, NaN or infinite ones included),
    the receiver reads back one 16-bit value per sample, exactly the values
    stored in the [Int16Array]; NaN and the infinities are stored as 0. *)
Theorem payload_round_trip (samples : list float32) :
  decode_payload (createBlob samples) = Some (quantize samples) /\
  List.length (quantize samples) = List.length samples /\
  Forall is_int16 (quantize samples) /\
  quantize [F32_NaN; F32_Infinity false; F32_Infinity true] = [0; 0; 0].
Proof.
  split; [apply decode_createBlob|].
  split; [apply length_map|].
  split; [|reflexivity].
  unfold quantize. apply Forall_map, Forall_forall. intros x _. apply ToInt16_is_int16.
Qed.

(** *** Size of the payload *)

Lemma btoa_length (binary : string) :
  String.length (btoa binary) = (4 * ((String.length binary + 2) / 3))%nat.
Proof.
  induction binary as [|a|a b|a b c rest IH] using string_ind3; try reflexivity.
  cbn [btoa String.length]. rewrite IH.
  replace (S (S (S (String.length rest))) + 2)%nat
    with ((String.length rest + 2) + 1 * 3)%nat by lia.
  rewrite Nat.div_add by lia. lia.
Qed.

Lemma binary_of_length (bytes : list Z) :
  String.length (binary_of bytes) = List.length bytes.
Proof. induction bytes as [|b bytes IH]; cbn; [reflexivity | now rewrite IH]. Qed.

Lemma buffer_bytes_length (int16 : list Z) :
  List.length (buffer_bytes int16) = (2 * List.length int16)%nat.
Proof.
  induction int16 as [|v int16 IH]; [reflexivity|].
  cbn [buffer_bytes flat_map bytes_of_int16 app List.length].
  fold (buffer_bytes int16). rewrite IH. lia.
Qed.

(** X8: a block of n samples is sent as 4 * ceil(2n / 3) characters, padding
    included, whatever the samples are. *)
Theorem payload_length (samples : list float32) :
  String.length (data (createBlob samples))
  = (4 * ((2 * List.length samples + 2) / 3))%nat.
Proof.
  unfold createBlob. cbn [data].
  rewrite btoa_length, binary_of_length, buffer_bytes_length.
  unfold quantize. now rewrite length_map.
Qed.

(** *** The quantiser on the unit range *)

Lemma Qtrunc_opp (q : Q) : Qtrunc (- q) = - Qtrunc q.
Proof. unfold Qtrunc. destruct q as [n d]. cbn. apply Z.quot_opp_l. lia. Qed.

Lemma Qtrunc_comp (p q : Q) : (p == q)%Q -> Qtrunc p = Qtrunc q.
Proof.
  intros E.
  destruct (Qlt_le_dec p 0) as [Hneg | Hpos].
  - rewrite !Qtrunc_ceiling by (try rewrite <- E; apply Qlt_le_weak, Hneg).
    unfold Qceiling. now rewrite E.
  - rewrite !Qtrunc_floor by (try rewrite <- E; exact Hpos). now rewrite E.
Qed.

Lemma Qtrunc_le (p q : Q) : (p <= q)%Q -> Qtrunc p <= Qtrunc q.
Proof.
  intros Hpq.
  destruct (Qlt_le_dec p 0) as [Hp | Hp]; destruct (Qlt_le_dec q 0) as [Hq | Hq].
  - rewrite !Qtrunc_ceiling by (apply Qlt_le_weak; assumption).
    apply Qceiling_resp_le, Hpq.
  - rewrite Qtrunc_ceiling by (apply Qlt_le_weak; assumption).
    rewrite Qtrunc_floor by assumption.
    transitivity 0.
    + change 0 with (Qceiling 0). apply Qceiling_resp_le, Qlt_le_weak, Hp.
    + change 0 with (Qfloor 0). apply Qfloor_resp_le, Hq.
  - exfalso. apply (Qlt_irrefl 0). apply Qle_lt_trans with q; [|exact Hq].
    apply Qle_trans with p; assumption.
  - rewrite !Qtrunc_floor by assumption. apply Qfloor_resp_le, Hpq.
Qed.

(** X9: the quantiser treats the two signs alike: a sample and its opposite
    are stored as opposite integers, everywhere inside (-1,1). *)
Theorem quantize_odd (q : Q) :
  (-1 < q)%Q -> (q < 1)%Q ->
  quantize [F32 (- q)] = map Z.opp (quantize [F32 q]).
Proof.
  intros Hlo Hhi. cbn [quantize map]. f_equal.
  rewrite !quantize_in_range by lra.
  rewrite <- Qtrunc_opp. apply Qtrunc_comp. ring.
Qed.

Lemma quantize_odd_witness :
  (-1 < 1 # 3)%Q /\ (1 # 3 < 1)%Q /\
  quantize [F32 (- (1 # 3))] = [-10922] /\ quantize [F32 (1 # 3)] = [10922].
Proof.
  assert (Hlo : (-1 < 1 # 3)%Q) by reflexivity.
  assert (Hhi : (1 # 3 < 1)%Q) by reflexivity.
  split; [exact Hlo|]. split; [exact Hhi|].
  split; [|reflexivity].
  rewrite (quantize_odd (1 # 3) Hlo Hhi). reflexivity.
Defined.

(** X10: the quantiser keeps the order of samples on [-1,1). *)
Theorem quantize_monotone (p q : Q) :
  (-1 <= p)%Q -> (p <= q)%Q -> (q < 1)%Q ->
  ToInt16 (scale (F32 p)) <= ToInt16 (scale (F32 q)).
Proof.
  intros Hlo Hpq Hhi.
  rewrite !quantize_in_range by lra.
  apply Qtrunc_le. apply Qmult_le_compat_r; [exact Hpq | discriminate].
Qed.

Lemma quantize_monotone_witness :
  (-1 <= -1 # 3)%Q /\ (-1 # 3 <= 3 # 131072)%Q /\ (3 # 131072 < 1)%Q /\
  ToInt16 (scale (F32 (-1 # 3))) <= ToInt16 (scale (F32 (3 # 131072))).
Proof.
  assert (H1 : (-1 <= -1 # 3)%Q) by discriminate.
  assert (H2 : (-1 # 3 <= 3 # 131072)%Q) by discriminate.
  assert (H3 : (3 # 131072 < 1)%Q) by reflexivity.
  repeat (split; [assumption|]).
  exact (quantize_monotone _ _ H1 H2 H3).
Defined.

(** X11: on [-1,1) the stored integer is the scaled sample moved toward zero by
    less than one step: it never exceeds the sample in magnitude. *)
Theorem quantize_error_below_one_step (q : Q) :
  (-1 <= q)%Q -> (q < 1)%Q ->
  let x := (q * (32768 # 1))%Q in
  let v := ToInt16 (scale (F32 q)) in
  ((0 <= q)%Q -> 0 <= v /\ (inject_Z v <= x)%Q /\ (x < inject_Z (v + 1))%Q) /\
  ((q <= 0)%Q -> v <= 0 /\ (inject_Z (v - 1) < x)%Q /\ (x <= inject_Z v)%Q).
Proof.
  intros Hlo Hhi x v. subst v. rewrite quantize_in_range by assumption. fold x.
  split; intros Hq.
  - assert (Hx : (0 <= x)%Q) by (unfold x; apply Qmult_le_0_compat; [exact Hq | discriminate]).
    rewrite Qtrunc_floor by exact Hx.
    split; [change 0 with (Qfloor 0); apply Qfloor_resp_le, Hx|].
    split; [apply Qfloor_le | apply Qlt_floor].
  - assert (Hx : (x <= 0)%Q).
    { unfold x. setoid_replace 0%Q with (0 * (32768 # 1))%Q by reflexivity.
      apply Qmult_le_compat_r; [exact Hq | discriminate]. }
    rewrite Qtrunc_ceiling by exact Hx.
    split; [change 0 with (Qceiling 0); apply Qceiling_resp_le, Hx|].
    split; [apply Qceiling_lt | apply Qle_ceiling].
Qed.

Lemma quantize_error_below_one_step_witness :
  (-1 <= 1 # 3)%Q /\ (1 # 3 < 1)%Q /\ (0 <= 1 # 3)%Q /\
  (inject_Z (ToInt16 (scale (F32 (1 # 3)))) <= (1 # 3) * (32768 # 1))%Q.
Proof.
  assert (H1 : (-1 <= 1 # 3)%Q) by discriminate.
  assert (H2 : (1 # 3 < 1)%Q) by reflexivity.
  assert (H3 : (0 <= 1 # 3)%Q) by discriminate.
  repeat (split; [assumption|]).
  exact (proj1 (proj2 (proj1 (quantize_error_below_one_step _ H1 H2) H3))).
Defined.

(** X12: nothing clamps: a sample in [1,2) scales beyond the 16-bit range and
    is stored 65536 lower, as a negative value. *)
Theorem quantize_overload_wraps (q : Q) :
  (1 <= q)%Q -> (q < 2)%Q ->
  ToInt16 (scale (F32 q)) = Qtrunc (q * (32768 # 1)) - 65536 /\
  ToInt16 (scale (F32 q)) < 0.
Proof.
  unfold Qle, Qlt. cbn [Qnum Qden]. intros Hlo Hhi.
  cbn [scale ToInt16]. cbv zeta. rewrite Qtrunc_scaled.
  set (n := Qnum q) in *. set (d := Zpos (Qden q)) in *.
  assert (Hd : 0 < d) by (unfold d; lia).
  assert (Ht : 32768 <= Z.quot (n * 32768) d <= 65535)
    by (Z.to_euclidean_division_equations; nia).
  destruct (Z.leb_spec 32768 (Z.quot (n * 32768) d mod 65536)); euclid.
Qed.

Lemma quantize_overload_wraps_witness :
  (1 <= 3 # 2)%Q /\ (3 # 2 < 2)%Q /\ ToInt16 (scale (F32 (3 # 2))) = -16384.
Proof.
  assert (H1 : (1 <= 3 # 2)%Q) by discriminate.
  assert (H2 : (3 # 2 < 2)%Q) by reflexivity.
  split; [exact H1|]. split; [exact H2|].
  rewrite (proj1 (quantize_overload_wraps _ H1 H2)). reflexivity.
Defined.

(** *** The stream of packets *)

Lemma transmit_snoc (blocks : list (list float32)) (block : list float32) :
  transmit (blocks ++ [block]) = transmit blocks ++ [createBlob block].
Proof. unfold transmit. rewrite fold_left_app. reflexivity. Qed.

Lemma transmit_map (blocks : list (list float32)) :
  transmit blocks = map createBlob blocks.
Proof.
  induction blocks as [|block blocks IH] using rev_ind; [reflexivity|].
  rewrite transmit_snoc, IH, map_app. reflexivity.
Qed.

(** X13: the packets go out one per block, in the order of the blocks, and the
    receiver that reads them one after the other gets the quantised
    samples of the whole input: where the blocks are cut makes no
    difference. *)
Theorem transmit_preserves_stream (blocks : list (list float32)) :
  List.length (transmit blocks) = List.length blocks /\
  (forall block, transmit (blocks ++ [block]) = transmit blocks ++ [createBlob block]) /\
  decode_stream (transmit blocks) = Some (quantize (List.concat blocks)).
Proof.
  split; [rewrite transmit_map; apply length_map|].
  split; [intros block; apply transmit_snoc|].
  rewrite transmit_map. induction blocks as [|block blocks IH]; [reflexivity|].
  cbn [map decode_stream List.concat]. rewrite decode_createBlob, IH.
  unfold quantize. now rewrite map_app.
Qed.

End UplinkCodecMore.

(** ** Capture session: what a recording delivers *)

Module CaptureMore.
Import Capture CaptureProps.

(** The handlers keep the chunks in arrival order; an empty chunk adds no
    bytes. *)
Lemma fold_handle_chunks (events : list Event) (c : Component) :
  filter is_stop events = [] ->
  flat_map bytes (chunksRef (fold_left (fun c e => handle e c) events c))
  = flat_map bytes (chunksRef c) ++ flat_map event_bytes events.
Proof.
  revert c. induction events as [|e events IH]; intros c; cbn [fold_left filter flat_map].
  - intros _. now rewrite app_nil_r.
  - destruct e as [d|]; cbn [is_stop handle event_bytes]; [|discriminate].
    intros Hnone. rewrite IH by exact Hnone.
    unfold ondataavailable, size. destruct (bytes d) as [|b rest] eqn:Hd; cbn.
    + reflexivity.
    + rewrite flat_map_app. cbn. rewrite Hd, app_nil_r, <- app_assoc. reflexivity.
Qed.

Lemma stop_blob (c : Component) (recorder : MediaRecorder) :
  mediaRecorderRef c = Some recorder ->
  is_inactive (state recorder) = false ->
  filter is_stop (queue c) = [] ->
  completed (drain (recording_effect false c))
  = completed c
    ++ [mkBlob (flat_map bytes (chunksRef c) ++ flat_map event_bytes (queue c)
                ++ gathered recorder) "video/mp4"].
Proof.
  intros Hr Hs Hclean.
  unfold recording_effect. rewrite Hr, Hs. cbn [negb stop].
  unfold drain. cbn [queue has_canvas mediaRecorderRef chunksRef completed hook].
  rewrite fold_left_app. cbn [fold_left handle].
  unfold onstop at 1. cbn [completed].
  rewrite ondataavailable_completed, (fold_handle_no_stop _ _ Hclean). cbn [completed].
  f_equal. f_equal. unfold new_Blob. f_equal.
  set (before := fold_left _ (queue c) _).
  assert (Hb : flat_map bytes (chunksRef before)
               = flat_map bytes (chunksRef c) ++ flat_map event_bytes (queue c))
    by (unfold before; rewrite fold_handle_chunks by exact Hclean; reflexivity).
  unfold ondataavailable, size. cbn [bytes].
  destruct (gathered recorder) as [|g rest] eqn:Hg; cbn.
  - rewrite Hb, !app_nil_r. reflexivity.
  - rewrite flat_map_app, Hb. cbn. rewrite app_nil_r, <- app_assoc. reflexivity.
Qed.

(** X14: the blob delivered when an active session stops is everything the
    session produced, in order: the chunks already received, then the data
    of the events still queued, then what the recorder had gathered since;
    it is labelled video/mp4 whatever the recorder's own type. *)
Theorem stop_delivers_all_chunks_in_order (c : Component) (recorder : MediaRecorder) :
  mediaRecorderRef c = Some recorder ->
  is_inactive (state recorder) = false ->
  filter is_stop (queue c) = [] ->
  completed (drain (recording_effect false c))
  = completed c
    ++ [mkBlob (flat_map bytes (chunksRef c) ++ flat_map event_bytes (queue c)
                ++ gathered recorder) "video/mp4"].
Proof. exact (stop_blob c recorder). Qed.

Lemma stop_delivers_all_chunks_in_order_witness :
  mediaRecorderRef recording_session
  = Some (mkRecorder recording "video/webm;codecs=vp9" [7; 8]%Z) /\
  filter is_stop (queue recording_session) = [] /\
  completed (drain (recording_effect false recording_session))
  = [mkBlob [1; 2; 3; 4; 5; 7; 8]%Z "video/mp4"].
Proof.
  split; [reflexivity|]. split; [reflexivity|].
  exact (stop_delivers_all_chunks_in_order recording_session _ eq_refl eq_refl eq_refl).
Defined.

(** X16: without a canvas the start of a recording does nothing at all, and the
    stop that follows has nothing to deliver. *)
Theorem start_needs_canvas (data : list Z) (c : Component) :
  has_canvas c = false -> active c = false ->
  recording_effect true c = c /\
  recording_effect false (gather data (recording_effect true c)) = c.
Proof.
  intros Hc Ha. assert (Hstart : recording_effect true c = c)
    by (unfold recording_effect; now rewrite Hc).
  split; [exact Hstart|]. rewrite Hstart.
  unfold active in Ha. unfold gather, recording_effect.
  destruct (mediaRecorderRef c) as [r|] eqn:Hr; [|now rewrite Hr].
  destruct (state r) eqn:Hs; cbn in Ha; try discriminate.
  rewrite Hr, Hs. reflexivity.
Qed.

Lemma start_needs_canvas_witness :
  has_canvas (mkComponent false None [] [] [] Lifecycle.unused) = false /\
  active (mkComponent false None [] [] [] Lifecycle.unused) = false /\
  recording_effect true (mkComponent false None [] [] [] Lifecycle.unused)
  = mkComponent false None [] [] [] Lifecycle.unused.
Proof.
  cbv zeta. split; [reflexivity|]. split; [reflexivity|].
  exact (proj1 (start_needs_canvas [1; 2]%Z
                  (mkComponent false None [] [] [] Lifecycle.unused) eq_refl eq_refl)).
Defined.

End CaptureMore.

(** ** Assistant session: messages and activation *)

Module LifecycleProps.
Import Assistant AssistantProps Lifecycle.

(** *** Incoming messages *)

(** What a message does to the hook: it appends its fragment to the
    prompt and may log a line; nothing else changes and nothing is
    raised. *)
Lemma onmessage_effect (m : LiveServerMessage) (h : Hook) :
  completes (onmessage m) h = true /\
  exists lines : list string,
    exec (onmessage m) h
    = mkHook (currentQuestion h ++ fragment_of m) (isConnected h) (sessionRef h)
             (audioContextRef h) (scriptProcessorRef h) (sourceRef h) (calls h)
             (console h ++ lines).
Proof.
  destruct h as [q b s c p n l k].
  destruct m as [[[ot tc]|]]; unfold fragment_of; cbn [serverContent outputTranscription].
  - destruct ot as [[[[|ch t]|]]|]; destruct tc as [[|]|];
      (split; [reflexivity|]); cbn [text currentQuestion];
      rewrite ?string_app_nil;
      first [ exists ["Turn complete"%string]; reflexivity
            | exists []; unfold exec; cbn; rewrite app_nil_r; reflexivity ].
  - split; [reflexivity|]. exists []. unfold exec. cbn.
    rewrite string_app_nil, app_nil_r. reflexivity.
Qed.

Lemma concat_cons (f : string) (fs : list string) :
  String.concat "" (f :: fs) = (f ++ String.concat "" fs)%string.
Proof. destruct fs; cbn; [now rewrite string_app_nil | reflexivity]. Qed.

Lemma receive_effect (messages : list LiveServerMessage) (h : Hook) :
  currentQuestion (receive messages h)
  = (currentQuestion h ++ String.concat "" (map fragment_of messages))%string /\
  isConnected (receive messages h) = isConnected h /\
  sessionRef (receive messages h) = sessionRef h /\
  audioContextRef (receive messages h) = audioContextRef h /\
  scriptProcessorRef (receive messages h) = scriptProcessorRef h /\
  sourceRef (receive messages h) = sourceRef h /\
  calls (receive messages h) = calls h.
Proof.
  revert h. induction messages as [|m messages IH]; intros h.
  - cbn. rewrite string_app_nil. repeat split.
  - change (receive (m :: messages) h) with (receive messages (exec (onmessage m) h)).
    destruct (onmessage_effect m h) as (_ & lines & E).
    destruct (IH (exec (onmessage m) h)) as (H1 & H2 & H3 & H4 & H5 & H6 & H7).
    rewrite H1, H2, H3, H4, H5, H6, H7, E. cbn [currentQuestion isConnected sessionRef
      audioContextRef scriptProcessorRef sourceRef calls map].
    rewrite concat_cons, string_app_assoc. repeat split.
Qed.

(** X17: No message, whatever it holds, raises or touches the connected flag,
    the handles or the host: messages only write the prompt and the
    console. *)
Theorem messages_touch_only_prompt (messages : list LiveServerMessage) (h : Hook) :
  (forall m, completes (onmessage m) h = true) /\
  isConnected (receive messages h) = isConnected h /\
  handles_cleared (receive messages h) = handles_cleared h /\
  releases_quietly (receive messages h) = releases_quietly h /\
  teardown_calls (receive messages h) = teardown_calls h /\
  calls (receive messages h) = calls h.
Proof.
  destruct (receive_effect messages h) as (_ & H2 & H3 & H4 & H5 & H6 & H7).
  split; [intros m; apply onmessage_effect|].
  unfold handles_cleared, releases_quietly, teardown_calls.
  rewrite H2, H3, H4, H5, H6, H7. repeat split.
Qed.

(** X18: For any sequence of messages the prompt afterwards is the prompt
    before followed by the fragments the messages carry, in order;
    messages without a transcription, without text or with empty text add
    nothing, so the prompt never shrinks while messages arrive. *)
Theorem prompt_is_concatenation (messages : list LiveServerMessage) (h : Hook) :
  currentQuestion (receive messages h)
  = (currentQuestion h ++ String.concat "" (map fragment_of messages))%string /\
  fragment_of (mkMessage None) = EmptyString /\
  fragment_of (mkMessage (Some (mkContent None (Some true)))) = EmptyString /\
  fragment_of (mkMessage (Some (mkContent (Some (mkTranscription None)) None)))
  = EmptyString.
Proof.
  split; [apply receive_effect|]. repeat split.
Qed.

(** *** Activation *)

(** X19: nothing is acquired and nothing changes when the session is asked to
    activate while recording is off, while there is no audio stream, or
    without a non-empty API key. *)
Theorem activation_needs_stream_and_key (isActive audioStream : bool)
    (apiKey : option string) (host : Host) (h : Hook) :
  connectToGemini false audioStream apiKey host h = (Normal tt, h) /\
  connectToGemini isActive false apiKey host h = (Normal tt, h) /\
  connectToGemini isActive audioStream None host h = (Normal tt, h) /\
  connectToGemini isActive audioStream (Some EmptyString) host h = (Normal tt, h).
Proof.
  repeat split; destruct isActive, audioStream; try reflexivity;
    destruct apiKey as [[|]|]; reflexivity.
Qed.

(** X20: an activation never raises, also when one of its constructors
    does, and leaves the connected flag, the prompt and the host calls as
    they were; a constructor that raised is logged and nothing is held
    then; and the teardown that follows releases exactly what the
    activation had acquired. *)
Theorem activation_is_released (host : Host) (key : string) (h : Hook) :
  handles_cleared h = true -> host_quiet host = true -> truthy key = true ->
  let activate := effect true true (Some key) host in
  completes activate h = true /\
  isConnected (exec activate h) = isConnected h /\
  currentQuestion (exec activate h) = currentQuestion h /\
  calls (exec activate h) = calls h /\
  console (exec activate h)
  = (console h ++ if failed host then ["Failed to initialize Gemini:"%string] else [])%list /\
  handles_cleared (exec activate h) = failed host /\
  completes cleanup (exec activate h) = true /\
  handles_cleared (exec cleanup (exec activate h)) = true /\
  calls (exec cleanup (exec activate h)) = (calls h ++ acquired host)%list.
Proof.
  destruct h as [q b [s|] [c|] [p|] [n|] l k]; cbn [handles_cleared sessionRef
    audioContextRef scriptProcessorRef sourceRef]; try discriminate.
  destruct key as [|ch key]; [discriminate|].
  intros _ Hq _.
  destruct host as [ | | [c quiet] s ]; cbn in Hq;
    try (destruct quiet; [discriminate|]);
    cbv zeta; unfold exec, completes; cbn; rewrite <- ?app_assoc, ?app_nil_r;
    repeat split; reflexivity.
Qed.

Lemma activation_is_released_witness :
  handles_cleared unused = true /\
  host_quiet (connects (mkContext 4 false) (mkSession 1)) = true /\
  truthy "key" = true /\
  calls (exec cleanup (exec (effect true true (Some "key"%string)
                                    (connects (mkContext 4 false) (mkSession 1)))
                            unused))
  = [ThenClose 1; Close 4].
Proof.
  split; [reflexivity|]. split; [reflexivity|]. split; [reflexivity|].
  destruct (activation_is_released (connects (mkContext 4 false) (mkSession 1)) "key"
              unused eq_refl eq_refl eq_refl) as (_ & _ & _ & _ & _ & _ & _ & _ & H).
  exact H.
Defined.

(** *** Callbacks of the remote side *)

Lemma deliver_keeps_handles (mounted : bool) (r : Remote) (h : Hook) :
  is_opened r = false ->
  sessionRef (exec (deliver mounted r) h) = sessionRef h /\
  audioContextRef (exec (deliver mounted r) h) = audioContextRef h /\
  scriptProcessorRef (exec (deliver mounted r) h) = scriptProcessorRef h /\
  sourceRef (exec (deliver mounted r) h) = sourceRef h /\
  calls (exec (deliver mounted r) h) = calls h.
Proof.
  destruct r as [src proc | m | | ]; cbn [is_opened deliver]; try discriminate; intros _.
  - destruct (onmessage_effect m h) as (_ & lines & E). rewrite E. repeat split.
  - destruct h, mounted; repeat split.
  - destruct h, mounted; repeat split.
Qed.

Lemma deliver_all_keeps_handles (mounted : bool) (events : list Remote) (h : Hook) :
  existsb is_opened events = false ->
  sessionRef (deliver_all mounted events h) = sessionRef h /\
  audioContextRef (deliver_all mounted events h) = audioContextRef h /\
  scriptProcessorRef (deliver_all mounted events h) = scriptProcessorRef h /\
  sourceRef (deliver_all mounted events h) = sourceRef h /\
  calls (deliver_all mounted events h) = calls h.
Proof.
  revert h. induction events as [|r events IH]; intros h; cbn [existsb].
  - intros _. repeat split.
  - intros Hno. apply orb_false_iff in Hno. destruct Hno as [Hr Hrest].
    change (deliver_all mounted (r :: events) h)
      with (deliver_all mounted events (exec (deliver mounted r) h)).
    destruct (IH (exec (deliver mounted r) h) Hrest) as (H1 & H2 & H3 & H4 & H5).
    destruct (deliver_keeps_handles mounted r h Hr) as (G1 & G2 & G3 & G4 & G5).
    rewrite H1, H2, H3, H4, H5. repeat split; assumption.
Qed.

Lemma cleanup_quiet_state (h : Hook) :
  releases_quietly h = true ->
  exec cleanup h
  = mkHook EmptyString false None None None None (calls h ++ teardown_calls h)
           (console h).
Proof.
  destruct h as [q b [s|] [[c [|]]|] [[p [|]]|] [[n [|]]|] l k]; cbn; try discriminate;
    intros _; unfold exec, teardown_calls; cbn; rewrite <- ?app_assoc, ?app_nil_r;
    reflexivity.
Qed.

(** X21: a whole activation, from the start of a recording to its end: the
    connection opens, any messages, close and error events arrive, the
    effect is cleaned up and then re-run with recording off.  Each of the
    four resources is released exactly once, in the order connection,
    processor, source, context, although the teardown runs twice; the
    session ends disconnected with an empty prompt and no handle held. *)
Theorem activation_releases_each_resource_once
    (context : AudioContext) (session : Session) (source processor : AudioNode)
    (events : list Remote) (key : string) (h : Hook) :
  handles_cleared h = true -> truthy key = true ->
  close_throws context = false -> disconnect_throws source = false ->
  disconnect_throws processor = false ->
  existsb is_opened events = false ->
  let host := connects context session in
  let activated := exec (effect true true (Some key) host) h in
  let live := deliver_all true (opened (Some source) (Some processor) :: events) activated in
  let cleaned := exec effect_cleanup live in
  let final := exec (effect false true (Some key) host) cleaned in
  isConnected (deliver_all true [opened (Some source) (Some processor)] activated) = true /\
  calls final
  = (calls h ++ [ThenClose (session_id session); Disconnect (node_id processor);
                 Disconnect (node_id source); Close (context_id context)])%list /\
  final = cleaned /\
  handles_cleared final = true /\ isConnected final = false /\
  currentQuestion final = EmptyString.
Proof.
  intros Hh Hk Hc Hs Hp Hev host activated live cleaned final.
  destruct h as [q b [s|] [c|] [p|] [n|] l k]; cbn in Hh; try discriminate.
  destruct key as [|ch key]; [discriminate|].
  assert (Hact : activated
                 = mkHook q b (Some session) (Some context) None None l k) by reflexivity.
  set (open := exec (deliver true (opened (Some source) (Some processor))) activated).
  assert (Hopen : open = mkHook q true (Some session) (Some context) (Some processor)
                               (Some source) l (k ++ ["Gemini Connected"%string]))
    by (unfold open; rewrite Hact; reflexivity).
  assert (Hlive : live = deliver_all true events open) by reflexivity.
  destruct (deliver_all_keeps_handles true events open Hev) as (H1 & H2 & H3 & H4 & H5).
  rewrite <- Hlive in H1, H2, H3, H4, H5. rewrite Hopen in H1, H2, H3, H4, H5.
  cbn [sessionRef audioContextRef scriptProcessorRef sourceRef calls] in H1, H2, H3, H4, H5.
  assert (Hquiet : releases_quietly live = true).
  { unfold releases_quietly. rewrite H2, H3, H4, Hc, Hs, Hp. reflexivity. }
  assert (Hcleaned : cleaned = mkHook EmptyString false None None None None
                                 (l ++ [ThenClose (session_id session);
                                        Disconnect (node_id processor);
                                        Disconnect (node_id source);
                                        Close (context_id context)])
                                 (console live)).
  { unfold cleaned, effect_cleanup. rewrite (cleanup_quiet_state live Hquiet).
    unfold teardown_calls. rewrite H1, H2, H3, H4, H5. reflexivity. }
  assert (Hfinal : final = cleaned).
  { unfold final, effect. rewrite (cleanup_quiet_state cleaned) by (rewrite Hcleaned; reflexivity).
    rewrite Hcleaned. cbn. rewrite app_nil_r. reflexivity. }
  split; [reflexivity|].
  rewrite Hfinal, Hcleaned. repeat split.
Qed.

Lemma activation_releases_each_resource_once_witness :
  handles_cleared unused = true /\ truthy "key" = true /\
  existsb is_opened [message (text_event "Hi"); closed; errored] = false /\
  calls (exec (effect false true (Some "key"%string)
                      (connects (mkContext 4 false) (mkSession 1)))
           (exec effect_cleanup
              (deliver_all true
                 (opened (Some (mkNode 3 false)) (Some (mkNode 2 false))
                  :: [message (text_event "Hi"); closed; errored])
                 (exec (effect true true (Some "key"%string)
                               (connects (mkContext 4 false) (mkSession 1)))
                       unused))))
  = [ThenClose 1; Disconnect 2; Disconnect 3; Close 4].
Proof.
  split; [reflexivity|]. split; [reflexivity|]. split; [reflexivity|].
  destruct (activation_releases_each_resource_once
              (mkContext 4 false) (mkSession 1) (mkNode 3 false) (mkNode 2 false)
              [message (text_event "Hi"); closed; errored] "key" unused
              eq_refl eq_refl eq_refl eq_refl eq_refl eq_refl) as (_ & H & _).
  exact H.
Defined.

(** X22: callbacks of an activation whose effect has been cleaned up never
    change the connected flag; but a text message that arrives after the
    teardown is still appended, so the prompt the teardown emptied holds
    that fragment. *)
Theorem late_callbacks_after_teardown (r : Remote) (fragment : string) (h : Hook) :
  isConnected (exec (deliver false r) h) = isConnected h /\
  isConnected (exec (deliver false r) (exec cleanup h)) = false /\
  currentQuestion (exec (deliver false (message (text_event fragment))) (exec cleanup h))
  = fragment.
Proof.
  assert (Hflag : forall k, isConnected (exec (deliver false r) k) = isConnected k).
  { intros k. destruct r as [[src|] [proc|] | m | | ]; cbn [deliver];
      try (destruct k; reflexivity).
    destruct (onmessage_effect m k) as (_ & lines & E). rewrite E. reflexivity. }
  split; [apply Hflag|]. split.
  - rewrite Hflag. apply cleanup_outcome.
  - cbn [deliver]. rewrite onmessage_text_event. cbn [currentQuestion].
    destruct (cleanup_outcome h) as (_ & Hp & _). now rewrite Hp.
Qed.

End LifecycleProps.

(** ** Ratio table, application shell and camera *)

Module ShellProps.
Import Compositor Selector.

(** *** The ratio table *)

(** X23: the selector offers every member of the enum exactly once, under the
    label that is the member's string value, and the surface configured
    for a member has exactly the proportions that label names, with
    positive sides. *)
Theorem every_ratio_offered_and_configured (a : AspectRatio) :
  map label (filter (highlighted a) ratios) = [value a] /\
  (forall e, In e ratios -> label e = value (entry_value e)) /\
  exists w h : Z,
    parse_ratio (value a) = Some (w, h) /\
    (width (ASPECT_RATIO_CONFIGS a) * h = height (ASPECT_RATIO_CONFIGS a) * w)%Z /\
    (0 < width (ASPECT_RATIO_CONFIGS a))%Z /\ (0 < height (ASPECT_RATIO_CONFIGS a))%Z.
Proof.
  split; [destruct a; reflexivity|]. split.
  - intros e He. cbn in He.
    destruct He as [<- | [<- | [<- | [<- | []]]]]; reflexivity.
  - destruct a; [exists 9%Z, 16%Z | exists 16%Z, 9%Z | exists 3%Z, 4%Z | exists 1%Z, 1%Z];
      repeat split; reflexivity.
Qed.

(** *** The application *)

Import App.

(** X24: the ratio changes only by a tap on the selector while the application
    is idle: while a recording runs or a result is shown no event changes
    it, and when idle a tap selects exactly the ratio of the entry. *)
Theorem ratio_changes_only_when_idle (e : Event) (s : State) :
  aspectRatio (step e s)
  = match e with
    | TapRatio entry => if busy s then aspectRatio s else entry_value entry
    | _ => aspectRatio s
    end.
Proof.
  unfold busy. destruct s as [a rec url err has].
  destruct e as [ | entry | | | u | | m ]; cbn;
    try reflexivity.
  - destruct url as [[|c u]|], has; cbn; destruct rec; reflexivity.
  - destruct rec; cbn; [reflexivity|]. destruct url as [[|c u]|]; reflexivity.
  - destruct url as [[|c u]|]; reflexivity.
Qed.

Lemma step_without_stream (e : Event) (s : State) :
  hasStream s = false -> isRecording s = false -> is_stream_ready e = false ->
  hasStream (step e s) = false /\ isRecording (step e s) = false.
Proof.
  destruct s as [a rec url err has]. cbn [hasStream isRecording]. intros -> -> He.
  destruct e as [ | entry | | | u | | m ]; cbn in *; try discriminate;
    try (split; reflexivity).
  - rewrite andb_false_r. split; reflexivity.
  - destruct url as [[|c u]|]; cbn; split; reflexivity.
  - destruct url as [[|c u]|]; cbn; split; reflexivity.
Qed.

Lemma run_without_stream (events : list Event) (s : State) :
  hasStream s = false -> isRecording s = false ->
  existsb is_stream_ready events = false ->
  hasStream (run events s) = false /\ isRecording (run events s) = false.
Proof.
  revert s. induction events as [|e events IH]; intros s Hs Hr Hev.
  - split; assumption.
  - cbn [existsb] in Hev. apply orb_false_iff in Hev. destruct Hev as [He Hrest].
    destruct (step_without_stream e s Hs Hr He) as [Hs' Hr'].
    exact (IH (step e s) Hs' Hr' Hrest).
Qed.

(** X25: until the recorder reports a stream, recording cannot start: whatever
    is tapped, and whatever else the recorder reports, the application
    stays out of recording. *)
Theorem no_recording_before_stream (events : list Event) (s : State) :
  hasStream s = false -> isRecording s = false ->
  existsb is_stream_ready events = false ->
  isRecording (run events s) = false /\ hasStream (run events s) = false.
Proof.
  intros Hs Hr Hev. destruct (run_without_stream events s Hs Hr Hev). split; assumption.
Qed.

Lemma no_recording_before_stream_witness :
  hasStream initial = false /\ isRecording initial = false /\
  existsb is_stream_ready [TapRecord; CameraError "denied"; TapRecord] = false /\
  isRecording (run [TapRecord; CameraError "denied"; TapRecord] initial) = false.
Proof.
  split; [reflexivity|]. split; [reflexivity|]. split; [reflexivity|].
  exact (proj1 (no_recording_before_stream
                  [TapRecord; CameraError "denied"; TapRecord] initial
                  eq_refl eq_refl eq_refl)).
Defined.

Lemma run_app (first second : list Event) (s : State) :
  run (first ++ second) s = run second (run first s).
Proof. unfold run. apply fold_left_app. Qed.

Lemma taps_keep_error (taps : list Event) (s : State) :
  forallb is_tap taps = true ->
  error (run taps s) = error s /\ existsb is_stream_ready taps = false.
Proof.
  revert s. induction taps as [|e taps IH]; intros s; cbn [forallb existsb].
  - intros _. split; reflexivity.
  - intros H. apply andb_true_iff in H. destruct H as [He Hrest].
    destruct (IH (step e s) Hrest) as [Herr Hno].
    change (run (e :: taps) s) with (run taps (step e s)). rewrite Herr, Hno.
    destruct s as [a rec url err has].
    destruct e as [ | entry | | | u | | m ]; cbn in *; try discriminate.
    + destruct url as [[|c u]|], has, rec; cbn; split; reflexivity.
    + destruct rec; cbn; [split; reflexivity|].
      destruct url as [[|c u]|]; cbn; split; reflexivity.
    + destruct url as [[|c u]|]; cbn; split; reflexivity.
    + split; reflexivity.
Qed.

(** X26: when the camera is refused while the application has not yet
    been told of any stream, it receives the error message once and no
    stream, it keeps showing that message and no sequence of taps starts a
    recording.  The stream flag is never reset, so this does not hold for
    a recorder mounted again after a result was discarded: there the record
    button stays enabled and one tap starts a recording. *)
Theorem refused_camera_blocks_recording (has_video_element : bool)
    (taps : list Event) (s : State) :
  hasStream s = false -> isRecording s = false ->
  forallb is_tap taps = true ->
  let mount := Camera.initCamera Camera.Denied (Camera.mounting has_video_element) in
  let after := run (map of_camera (Camera.callbacks mount) ++ taps) s in
  Camera.callbacks mount
  = [Camera.onError "Could not access camera or microphone. Please allow permissions."] /\
  Camera.stream mount = None /\
  isRecording after = false /\ hasStream after = false /\
  error after
  = Some "Could not access camera or microphone. Please allow permissions."%string /\
  (forall a err,
     isRecording
       (run (map of_camera (Camera.callbacks mount) ++ [TapRecord])
            (mkState a false None err true)) = true).
Proof.
  intros Hs Hr Htaps mount after. split; [reflexivity|]. split; [reflexivity|].
  subst after. rewrite run_app.
  set (s0 := run (map of_camera (Camera.callbacks mount)) s).
  assert (Hs0 : hasStream s0 = false) by (destruct s; exact Hs).
  assert (Hr0 : isRecording s0 = false) by (destruct s; exact Hr).
  destruct (taps_keep_error taps s0 Htaps) as [Herr Hev].
  destruct (run_without_stream taps s0 Hs0 Hr0 Hev) as [Hs1 Hr1].
  split; [exact Hr1|]. split; [exact Hs1|].
  split; [rewrite Herr; destruct s; reflexivity|].
  intros a err. reflexivity.
Qed.

Lemma refused_camera_blocks_recording_witness :
  hasStream initial = false /\ isRecording initial = false /\
  forallb is_tap [TapRecord; TapRecord] = true /\
  isRecording
    (run (map of_camera
            (Camera.callbacks (Camera.initCamera Camera.Denied (Camera.mounting true)))
          ++ [TapRecord; TapRecord]) initial) = false.
Proof.
  split; [reflexivity|]. split; [reflexivity|]. split; [reflexivity|].
  destruct (refused_camera_blocks_recording true [TapRecord; TapRecord] initial
              eq_refl eq_refl eq_refl) as (_ & _ & H & _).
  exact H.
Defined.

(** *** Releasing the camera *)

(** X27: the cleanup of the camera effect belongs to the first render, where
    the stream is still null: unmounting the component stops no track,
    also when a stream was granted, while the same cleanup given the
    granted stream would stop every track of it. *)
Theorem unmount_stops_no_track (has_video_element : bool) (outcome : Camera.Acquisition)
    (granted : Camera.MediaStream) :
  Camera.stopped (Camera.mount_then_unmount has_video_element outcome) = [] /\
  Camera.stream (Camera.mount_then_unmount has_video_element (Camera.Granted granted))
  = Some granted /\
  Camera.stopped
    (Camera.release (Some granted)
       (Camera.initCamera (Camera.Granted granted) (Camera.mounting has_video_element)))
  = map Camera.track_id (Camera.getTracks granted).
Proof.
  split; [destruct outcome; reflexivity|]. split; reflexivity.
Qed.

End ShellProps.
